(** * tagstash: record codec, tag cache and matching engine

    A shallow embedding of the Go package [tagstash]: the tag-record codec
    ([readAll], [writeAll]), the per-tag cache built on the [forget] blob
    cache ([withTagEntries], [cache.Get], [cache.Set], [cache.Remove],
    [cache.Delete]), and the matching engine ([setRequestIndex],
    [uniqueValues], [entrySort.Less], [getAll], [Get], [GetAll], [Set],
    [Remove], [Delete]).
    With them come the making of a stash ([getCommands], [newStorage],
    [newCache], [New]) and, of the tests, the storage they use ([mock]) and
    [stringSetsEqual].

    Conventions.
    - Go's [int] is a 64-bit two's complement integer: a [Z] with the
      wrap-around written out ([GoInt.wrap]).
    - Go's [string] is a [string]; [[]byte] is a [list byte].
    - A function returning [(T, error)] returns [error + T]; a method that
      also changes its receiver returns the new receiver next to the result.
    - A slice [[]*Entry] is a [list Entry], and a write through a pointer
      of the slice updates the list element in place.  This is what the code
      does on a slice in which no pointer occurs twice: the built-in cache
      allocates one [Entry] per decoded record and the built-in storage one
      per row.  The storage of the tests returns a stored pointer once for
      every query tag that matches it.  [uniqueValues_at] is [uniqueValues]
      with the entries in a memory and the slice pointing into it; the two
      agree on slices without a repeated pointer, and the properties that
      depend on how often an entry is counted are stated for slices in which
      no entry comes twice.
    - The mutex of the cache serialises [Set] and [Remove]; the embedding is
      the sequential behaviour of one call.
    - The packages [keyval], [forget], [sort] and [database/sql] are not part
      of the repository: they are interfaces here ([Keyval], [Forget],
      [Sorter], [Storage]), with their contracts as separate law classes, and
      reference instances at the end to run the definitions. *)

From Stdlib Require Import ZArith Lia String Ascii List Strings.Byte.
From Stdlib Require Import Permutation Sorted.
From stdpp Require Import base option list strings gmap sorting.

Local Open Scope string_scope.
Local Open Scope list_scope.
Local Open Scope Z_scope.

(** ** Go's [int] *)

Module GoInt.

Definition min_int : Z := - 2 ^ 63.
Definition max_int : Z := 2 ^ 63 - 1.

Definition is_int (z : Z) : Prop := min_int <= z <= max_int.

(** Two's complement wrap-around of a mathematical result. *)
Definition wrap (z : Z) : Z := (z + 2 ^ 63) mod 2 ^ 64 - 2 ^ 63.

Definition add (a b : Z) : Z := wrap (a + b).
Definition sub (a b : Z) : Z := wrap (a - b).

End GoInt.

(** ** Errors *)

(** [strconv.NumError.Err]. *)
Inductive numErr := ErrSyntax | ErrRange.

Inductive error :=
| ErrDamagedCacheData
| ErrFailedToCacheEntry
| ErrNotSupported
| NumError (Func Num : string) (Err : numErr)   (* *strconv.NumError *)
| ErrKeyval (msg : string)                      (* a parse error of keyval *)
| ErrSink (msg : string)                        (* a write error of the sink *)
| ErrStorage (msg : string).                    (* an error of a Storage *)

(** ** [strconv.Atoi] and [strconv.Itoa] *)

Module strconv.

Definition max_uint64 : Z := 2 ^ 64 - 1.
Definition cutoff : Z := max_uint64 / 10 + 1.

Definition digit_of (c : ascii) : option Z :=
  let n := Z.of_nat (nat_of_ascii c) in
  if (48 <=? n) && (n <=? 57) then Some (n - 48) else None.

Definition char_of (d : Z) : ascii := ascii_of_nat (Z.to_nat (48 + d)).

(** The digit loop of [ParseUint] in base 10 with 64 bits. *)
Fixpoint ParseUint_loop (s : string) (n : Z) : numErr + Z :=
  match s with
  | EmptyString => inr n
  | String c s' =>
      match digit_of c with
      | None => inl ErrSyntax
      | Some d =>
          if cutoff <=? n then inl ErrRange
          else
            let n1 := n * 10 + d in
            if max_uint64 <? n1 then inl ErrRange
            else ParseUint_loop s' n1
      end
  end.

Definition ParseUint (s : string) : numErr + Z :=
  match s with
  | EmptyString => inl ErrSyntax
  | _ => ParseUint_loop s 0
  end.

(** [ParseInt(s, 10, 0)] on a 64-bit platform. *)
Definition ParseInt (s : string) : numErr + Z :=
  match s with
  | EmptyString => inl ErrSyntax
  | String c s' =>
      let neg := Ascii.eqb c "-" in
      let body := if Ascii.eqb c "+" || neg then s' else s in
      match ParseUint body with
      | inl ErrSyntax => inl ErrSyntax
      | inl ErrRange => inl ErrRange
      | inr un =>
          if negb neg && (2 ^ 63 <=? un) then inl ErrRange
          else if neg && (2 ^ 63 <? un) then inl ErrRange
          else inr (if neg then - un else un)
      end
  end.

Definition Atoi (s : string) : error + Z :=
  match ParseInt s with
  | inl e => inl (NumError "Atoi" s e)
  | inr n => inr n
  end.

(** The digit loop of [formatBits] in base 10: the digits are produced
    from the least significant one, in front of what is already there. *)
Fixpoint formatBits (fuel : nat) (u : Z) (a : string) : string :=
  match fuel with
  | O => a
  | S fuel' =>
      if u <? 10 then String (char_of u) a
      else formatBits fuel' (u / 10) (String (char_of (u mod 10)) a)
  end.

(** A [uint64] has at most 20 decimal digits. *)
Definition FormatUint (u : Z) : string := formatBits 20 u "".

Definition Itoa (i : Z) : string :=
  if i <? 0 then String "-" (FormatUint (- i)) else FormatUint i.

End strconv.

(** ** Entries *)

Record Entry := mkEntry {
  Value : string;
  Tag : string;
  TagIndex : Z;
  requestTagMatch : Z;
  requestIndexDelta : Z
}.

(** [&Entry{Value: v, Tag: t, TagIndex: i}]: the request fields are zero. *)
Definition newEntry (v t : string) (i : Z) : Entry := mkEntry v t i 0 0.

(** [e.TagIndex = i], [e.requestIndexDelta = d], through the pointer. *)
Definition withTagIndex (e : Entry) (i : Z) : Entry :=
  mkEntry (Value e) (Tag e) i (requestTagMatch e) (requestIndexDelta e).

Definition withIndexDelta (e : Entry) (d : Z) : Entry :=
  mkEntry (Value e) (Tag e) (TagIndex e) (requestTagMatch e) d.

Definition withTagMatch (e : Entry) (n : Z) : Entry :=
  mkEntry (Value e) (Tag e) (TagIndex e) n (requestIndexDelta e).

(** What the wire format keeps of an entry: value and position; the tag is
    the key the record list is cached under. *)
Definition content (e : Entry) : string * string * Z :=
  (Value e, Tag e, TagIndex e).

(** ** The interfaces of the collaborators *)

(** [keyval.Entry]; its [Comment] field is never set or read here. *)
Record KvEntry := mkKv { Key : list string; Val : string }.

(** The error of a [ReadEntry] call: [io.EOF] or a parse error. *)
Inductive ioError := io_EOF | io_err (e : error).

(** What one [kvr.ReadEntry()] returns.  [readAll] looks at the entry only
    when the error is nil, so a result is an entry or an error. *)
Inductive ReadResult := ReadOk (e : KvEntry) | ReadErr (err : ioError).

(** Package keyval: [kv_WriteEntry e] is what [WriteEntry(e)] sends to the
    sink; [kv_ReadEntries r] is what the successive calls of [ReadEntry]
    return on a reader over the bytes [r]. *)
Class Keyval := {
  kv_WriteEntry : KvEntry -> list byte;
  kv_ReadEntries : list byte -> list ReadResult
}.

(** [io.Writer]. *)
Class Writer (W : Type) := Write : W -> list byte -> option error * W.

(** A growing buffer accepts everything. *)
#[export] Instance buffer_Write : Writer (list byte) :=
  fun w b => (None, w ++ b).

(** Package forget, a blob cache with state [C]: [forget_Get c key] is the
    content of the item read through [Get(key)], [None] when [ok] is false;
    [forget_Set c key] is [Set(key, forEver)], the flag [ok] and the cache
    with the item open for writing; [forget_Write] is a [Write] of the
    returned writer; [forget_Delete] is [Delete(key)]. *)
Class Forget (C : Type) := {
  forget_Get : C -> string -> option (list byte);
  forget_Set : C -> string -> bool * C;
  forget_Write : C -> string -> list byte -> option error * C;
  forget_Delete : C -> string -> C
}.

(** The writer returned by [forget.Set]: the cache and the key. *)
#[export] Instance forget_Writer {C} `{Forget C} : Writer (C * string) :=
  fun w b =>
    let (err, c') := forget_Write (fst w) (snd w) b in (err, (c', snd w)).

(** The interface [Storage] over a state [S].  [Close] releases resources
    and changes nothing that is modelled. *)
Record Storage (S : Type) := mkStorage {
  st_Get : S -> list string -> (error + list Entry) * S;
  st_Set : S -> Entry -> option error * S;
  st_Remove : S -> Entry -> option error * S;
  st_Delete : S -> string -> option error * S
}.
Arguments st_Get {S}. Arguments st_Set {S}.
Arguments st_Remove {S}. Arguments st_Delete {S}.

(** What the codec relies on in keyval: entries the format can carry
    ([kv_wf]) are read back as they were written, one [ReadEntry] each, and
    then comes [io.EOF]. *)
Class KeyvalLaws (K : Keyval) := {
  kv_wf : KvEntry -> Prop;
  kv_read_written : forall kvs,
    Forall kv_wf kvs ->
    kv_ReadEntries (flat_map kv_WriteEntry kvs)
    = map ReadOk kvs ++ [ReadErr io_EOF]
}.

(** What the cache relies on in forget: a new item is empty, and a write
    that succeeds appends to the item. *)
Class ForgetLaws {C : Type} (F : Forget C) := {
  forget_Set_ok : forall c key c',
    forget_Set c key = (true, c') -> forget_Get c' key = Some [];
  forget_Write_ok : forall c key b c',
    forget_Write c key b = (None, c') ->
    exists old, forget_Get c key = Some old
                /\ forget_Get c' key = Some (old ++ b)
}.

(** What [cache.Delete] relies on in forget: [Delete(key)] removes the item
    of the key and leaves the others. *)
Class ForgetDeleteLaws {C : Type} (F : Forget C) := {
  forget_Delete_gone : forall c key,
    forget_Get (forget_Delete c key) key = None;
  forget_Delete_others : forall c key key',
    key' <> key -> forget_Get (forget_Delete c key) key' = forget_Get c key'
}.

(** ** The record codec *)

Section Codec.
Context {K : Keyval}.

(** The loop of [readAll] over the results of [ReadEntry]; a reader that
    has nothing more to return is at its end, as with [io.EOF]. *)
Fixpoint readAll_loop (rs : list ReadResult) (tag : string)
    (entries : list Entry) : error + list Entry :=
  match rs with
  | [] => inr entries
  | ReadErr io_EOF :: _ => inr entries
  | ReadErr (io_err err) :: _ => inl err
  | ReadOk e :: rs' =>
      match strconv.Atoi (Val e) with
      | inl err => inl err
      | inr tagIndex =>
          match Key e with
          | [k] => readAll_loop rs' tag (entries ++ [newEntry k tag tagIndex])
          | _ => inl ErrDamagedCacheData
          end
      end
  end.

Definition readAll (r : list byte) (tag : string) : error + list Entry :=
  readAll_loop (kv_ReadEntries r) tag [].

(** cache.go has an earlier [readAll], which also takes an entry that comes
    together with [io.EOF], and stops on a nil entry.  It sees what
    [ReadEntry] returns as Go has it: the entry or nil, and the error or
    nil.  Its last test, [err == io.EOF], reads the [err] that [Atoi] has
    just set to nil, so the loop always goes on to the next [ReadEntry]. *)
Definition returned (r : ReadResult) : option KvEntry * option ioError :=
  match r with
  | ReadOk e => (Some e, None)
  | ReadErr err => (None, Some err)
  end.

Fixpoint readAll_loop_cache_go (rs : list (option KvEntry * option ioError))
    (tag : string) (entries : list Entry) : error + list Entry :=
  match rs with
  | [] => inr entries
  | (e, err) :: rs' =>
      match err with
      | Some (io_err x) => inl x
      | _ =>
          match e with
          | None => inr entries
          | Some e =>
              match strconv.Atoi (Val e) with
              | inl x => inl x
              | inr tagIndex =>
                  match Key e with
                  | [k] =>
                      readAll_loop_cache_go rs' tag
                        (entries ++ [newEntry k tag tagIndex])
                  | _ => inl ErrDamagedCacheData
                  end
              end
          end
      end
  end.

Definition readAll_cache_go (r : list byte) (tag : string)
    : error + list Entry :=
  readAll_loop_cache_go (map returned (kv_ReadEntries r)) tag [].

Definition kvOf (ei : Entry) : KvEntry :=
  mkKv [Value ei] (strconv.Itoa (TagIndex ei)).

Fixpoint writeAll {W} `{Writer W} (w : W) (e : list Entry) : option error * W :=
  match e with
  | [] => (None, w)
  | ei :: rest =>
      match Write w (kv_WriteEntry (kvOf ei)) with
      | (Some err, w') => (Some err, w')
      | (None, w') => writeAll w' rest
      end
  end.

(** The bytes [writeAll] leaves in a buffer: the encoding of a list. *)
Definition encode (e : list Entry) : list byte :=
  snd (writeAll ([] : list byte) e).

End Codec.

(** ** The tag cache *)

Section Cache.
Context {K : Keyval} {C : Type} {F : Forget C}.

Definition withTagEntries (c : C) (tag : string)
    (op : list Entry -> list Entry) : option error * C :=
  let read :=
    match forget_Get c tag with
    | Some r => readAll r tag
    | None => inr []
    end in
  match read with
  | inl err => (Some err, c)
  | inr entries =>
      let entries := op entries in
      match forget_Set c tag with
      | (false, c') => (Some ErrFailedToCacheEntry, c')
      | (true, c') =>
          let (err, w) := writeAll (c', tag) entries in (err, fst w)
      end
  end.

Fixpoint cache_Get_loop (c : C) (tags : list string) (entries : list Entry)
    : error + list Entry :=
  match tags with
  | [] => inr entries
  | t :: tags' =>
      match forget_Get c t with
      | None => cache_Get_loop c tags' entries
      | Some r =>
          match readAll r t with
          | inl err => inl err
          | inr tagEntries => cache_Get_loop c tags' (entries ++ tagEntries)
          end
      end
  end.

Definition cache_Get (c : C) (tags : list string) : error + list Entry :=
  cache_Get_loop c tags [].

(** The loop of [Set]'s closure: the list after the loop and [exists]. *)
Fixpoint cache_Set_find (e : Entry) (entries : list Entry)
    : list Entry * bool :=
  match entries with
  | [] => ([], false)
  | ei :: rest =>
      if String.eqb (Value ei) (Value e)
      then (withTagIndex ei (TagIndex e) :: rest, true)
      else let (rest', found) := cache_Set_find e rest in (ei :: rest', found)
  end.

Definition cache_Set_op (e : Entry) (entries : list Entry) : list Entry :=
  let (entries', found) := cache_Set_find e entries in
  if found then entries' else entries' ++ [e].

Definition cache_Set (c : C) (e : Entry) : option error * C :=
  withTagEntries c (Tag e) (cache_Set_op e).

(** [Remove]'s closure: the first entry with the value is cut out. *)
Fixpoint cache_Remove_op (e : Entry) (entries : list Entry) : list Entry :=
  match entries with
  | [] => []
  | ei :: rest =>
      if String.eqb (Value ei) (Value e) then rest
      else ei :: cache_Remove_op e rest
  end.

Definition cache_Remove (c : C) (e : Entry) : option error * C :=
  withTagEntries c (Tag e) (cache_Remove_op e).

Definition cache_Delete (c : C) (tag : string) : option error * C :=
  (None, forget_Delete c tag).

(** The cache as a [Storage]. *)
Definition cacheStorage : Storage C :=
  mkStorage C (fun c tags => (cache_Get c tags, c))
    cache_Set cache_Remove cache_Delete.

End Cache.

(** ** The matching engine *)

(** [sort.Sort(entrySort{entries})]. *)
Class Sorter := sort_Sort : list Entry -> list Entry.

Definition Less (left right : Entry) : bool :=
  if requestTagMatch left =? requestTagMatch right
  then requestIndexDelta left <? requestIndexDelta right
  else requestTagMatch left >? requestTagMatch right.

(** What [sort.Sort] promises: the slice is rearranged, and afterwards no
    element is [Less] than the one before it.  It does not promise to be
    stable. *)
Class SorterLaws (S : Sorter) := {
  sort_perm : forall l, Permutation (sort_Sort l) l;
  sort_sorted : forall l, Sorted (fun a b => Less b a = false) (sort_Sort l)
}.

(** [d := i - ei.TagIndex; if d < 0 { d = 0 - d }]. *)
Definition indexDelta (i tagIndex : Z) : Z :=
  let d := GoInt.sub i tagIndex in
  if d <? 0 then GoInt.sub 0 d else d.

(** The inner loop of [setRequestIndex] for the tag [t] at position [i]:
    the entries after the loop and [found]. *)
Fixpoint setRequestIndex_tag (i : Z) (t : string) (e : list Entry)
    : list Entry * bool :=
  match e with
  | [] => ([], false)
  | ei :: rest =>
      let (rest', found) := setRequestIndex_tag i t rest in
      if String.eqb (Tag ei) t
      then (withIndexDelta ei (indexDelta i (TagIndex ei)) :: rest', true)
      else (ei :: rest', found)
  end.

Fixpoint setRequestIndex_loop (i : Z) (tags : list string) (e : list Entry)
    (notFound : list string) : list string * list Entry :=
  match tags with
  | [] => (notFound, e)
  | t :: tags' =>
      let (e', found) := setRequestIndex_tag i t e in
      setRequestIndex_loop (i + 1) tags' e'
        (if found then notFound else notFound ++ [t])
  end.

(** [setRequestIndex]: the tags not found and the entries as the loop
    leaves them. *)
Definition setRequestIndex (tags : list string) (e : list Entry)
    : list string * list Entry :=
  setRequestIndex_loop 0 tags e [].

(** [eim.requestTagMatch++; eim.requestIndexDelta += ei.requestIndexDelta]. *)
Definition countMatch (ei eim : Entry) : Entry :=
  mkEntry (Value eim) (Tag eim) (TagIndex eim)
    (GoInt.add (requestTagMatch eim) 1)
    (GoInt.add (requestIndexDelta eim) (requestIndexDelta ei)).

(** The loop of [uniqueValues]: [m] maps a value to the place in [u] of the
    entry it points to. *)
Fixpoint uniqueValues_loop (e : list Entry) (m : gmap string nat)
    (u : list Entry) : list Entry :=
  match e with
  | [] => u
  | ei :: rest =>
      match m !! Value ei with
      | Some k => uniqueValues_loop rest m (alter (countMatch ei) k u)
      | None =>
          uniqueValues_loop rest (<[Value ei := length u]> m)
            (u ++ [withTagMatch ei 1])
      end
  end.

Definition uniqueValues (e : list Entry) : list Entry :=
  uniqueValues_loop e ∅ [].

(** A memory of entries is a list, and a pointer to an entry is a place of
    the list.  The pointers of a slice are places of the memory, so the
    default entry is never read. *)
#[export] Instance Entry_inhabited : Inhabited Entry :=
  populate (newEntry "" "" 0).

(** [uniqueValues] through the pointers.  The entries are in the memory
    [h], and the slice [e], the map [m] and the result [u] hold pointers.
    The writes go to the entry pointed to, so an entry that the slice points
    to more than once is read, at a later occurrence, as the earlier ones
    have left it: [eim.requestIndexDelta += ei.requestIndexDelta] reads [ei]
    after [eim.requestTagMatch++] was written. *)
Fixpoint uniqueValues_at_loop (e : list nat) (m : gmap string nat)
    (u : list nat) (h : list Entry) : list nat * list Entry :=
  match e with
  | [] => (u, h)
  | ei :: rest =>
      match m !! Value (h !!! ei) with
      | Some eim =>
          let h1 :=
            alter (fun x => withTagMatch x (GoInt.add (requestTagMatch x) 1))
              eim h in
          let h2 :=
            alter (fun x =>
                     withIndexDelta x
                       (GoInt.add (requestIndexDelta x)
                          (requestIndexDelta (h1 !!! ei))))
              eim h1 in
          uniqueValues_at_loop rest m u h2
      | None =>
          uniqueValues_at_loop rest (<[Value (h !!! ei) := ei]> m)
            (u ++ [ei]) (alter (fun x => withTagMatch x 1) ei h)
      end
  end.

(** The slice returned and the memory as [uniqueValues] leaves it. *)
Definition uniqueValues_at (h : list Entry) (e : list nat)
    : list nat * list Entry :=
  uniqueValues_at_loop e ∅ [] h.

(** The entries a slice points to. *)
Definition pointees (h : list Entry) (ps : list nat) : list Entry :=
  map (fun p => h !!! p) ps.

Definition mapEntries (e : list Entry) : list string := map Value e.

Record TagStash (C S : Type) := mkTagStash { cache : C; storage : S }.
Arguments mkTagStash {C S}. Arguments cache {C S}. Arguments storage {C S}.

Section Engine.
Context {C S : Type} (cacheI : Storage C) (storageI : Storage S).
Context {sorter : Sorter}.

(** The loop of [getAll] that caches what the storage returned. *)
Fixpoint cacheStored (c : C) (stored : list Entry) : option error * C :=
  match stored with
  | [] => (None, c)
  | e :: rest =>
      match st_Set cacheI c e with
      | (Some err, c') => (Some err, c')
      | (None, c') => cacheStored c' rest
      end
  end.

Definition getAll (t : TagStash C S) (tags : list string)
    : (error + list Entry) * TagStash C S :=
  match st_Get cacheI (cache t) tags with
  | (inl err, c1) => (inl err, mkTagStash c1 (storage t))
  | (inr entries, c1) =>
      let (notCached, entries) := setRequestIndex tags entries in
      match st_Get storageI (storage t) notCached with
      | (inl err, s1) => (inl err, mkTagStash c1 s1)
      | (inr stored, s1) =>
          match cacheStored c1 stored with
          | (Some err, c2) => (inl err, mkTagStash c2 s1)
          | (None, c2) =>
              let stored := snd (setRequestIndex tags stored) in
              let entries := entries ++ stored in
              let entries := uniqueValues entries in
              (inr (sort_Sort entries), mkTagStash c2 s1)
          end
      end
  end.

(** [Get]: the empty string and a nil error when nothing matches. *)
Definition Get (t : TagStash C S) (tags : list string)
    : (error + string) * TagStash C S :=
  match getAll t tags with
  | (inl err, t') => (inl err, t')
  | (inr [], t') => (inr "", t')
  | (inr entries, t') => (inr (hd "" (mapEntries (firstn 1 entries))), t')
  end.

Definition GetAll (t : TagStash C S) (tags : list string)
    : (error + list string) * TagStash C S :=
  match getAll t tags with
  | (inl err, t') => (inl err, t')
  | (inr entries, t') => (inr (mapEntries entries), t')
  end.

(** The loop of [Set] from position [i] on. *)
Fixpoint TagStash_Set_loop (t : TagStash C S) (value : string) (i : Z)
    (tags : list string) : option error * TagStash C S :=
  match tags with
  | [] => (None, t)
  | ti :: tags' =>
      let e := newEntry value ti i in
      match st_Set storageI (storage t) e with
      | (Some err, s') => (Some err, mkTagStash (cache t) s')
      | (None, s') =>
          match st_Set cacheI (cache t) e with
          | (Some err, c') => (Some err, mkTagStash c' s')
          | (None, c') =>
              TagStash_Set_loop (mkTagStash c' s') value (i + 1) tags'
          end
      end
  end.

Definition TagStash_Set (t : TagStash C S) (value : string)
    (tags : list string) : option error * TagStash C S :=
  TagStash_Set_loop t value 0 tags.

Definition TagStash_Remove (t : TagStash C S) (value tag : string)
    : option error * TagStash C S :=
  let e := newEntry value tag 0 in
  match st_Remove cacheI (cache t) e with
  | (Some err, c') => (Some err, mkTagStash c' (storage t))
  | (None, c') =>
      match st_Remove storageI (storage t) e with
      | (Some err, s') => (Some err, mkTagStash c' s')
      | (None, s') => (None, mkTagStash c' s')
      end
  end.

Definition TagStash_Delete (t : TagStash C S) (tag : string)
    : option error * TagStash C S :=
  match st_Delete cacheI (cache t) tag with
  | (Some err, c') => (Some err, mkTagStash c' (storage t))
  | (None, c') =>
      match st_Delete storageI (storage t) tag with
      | (Some err, s') => (Some err, mkTagStash c' s')
      | (None, s') => (None, mkTagStash c' s')
      end
  end.

End Engine.

(** ** Implementations of [Storage] besides the cache *)

(** [mockStorage] of the tests: a list of entries and a flag that makes the
    next call fail.  The mock keeps the pointers it is given and returns them
    again; the engine sets the request fields of what it is returned before
    it reads them, so only [Value], [Tag] and [TagIndex] of what the mock
    keeps matter.  For a query that names a tag twice its [Get] returns a
    pointer twice, which a list of entries does not tell from two equal
    entries. *)
Module mock.

Record mockStorage := mkMock { entries : list Entry; failNext : bool }.

Definition errForgedError : error := ErrStorage "forged".

Definition Get (s : mockStorage) (tags : list string)
    : (error + list Entry) * mockStorage :=
  if failNext s then (inl errForgedError, mkMock (entries s) false)
  else
    (inr (flat_map
            (fun e => flat_map
               (fun t => if String.eqb t (Tag e) then [e] else []) tags)
            (entries s)), s).

Fixpoint Set_find (e : Entry) (l : list Entry) : option (list Entry) :=
  match l with
  | [] => None
  | ei :: rest =>
      if String.eqb (Tag ei) (Tag e) && String.eqb (Value ei) (Value e)
      then Some (withTagIndex ei (TagIndex e) :: rest)
      else option_map (cons ei) (Set_find e rest)
  end.

Definition Set_ (s : mockStorage) (e : Entry) : option error * mockStorage :=
  if failNext s then (Some errForgedError, mkMock (entries s) false)
  else
    match Set_find e (entries s) with
    | Some l => (None, mkMock l false)
    | None => (None, mkMock (entries s ++ [e]) false)
    end.

Fixpoint Remove_first (e : Entry) (l : list Entry) : list Entry :=
  match l with
  | [] => []
  | ei :: rest =>
      if String.eqb (Tag ei) (Tag e) && String.eqb (Value ei) (Value e)
      then rest
      else ei :: Remove_first e rest
  end.

Definition Remove (s : mockStorage) (e : Entry)
    : option error * mockStorage :=
  if failNext s then (Some errForgedError, mkMock (entries s) false)
  else (None, mkMock (Remove_first e (entries s)) false).

Definition Delete (s : mockStorage) (tag : string)
    : option error * mockStorage :=
  if failNext s then (Some errForgedError, mkMock (entries s) false)
  else
    (None,
     mkMock (List.filter (fun e => negb (String.eqb (Tag e) tag)) (entries s))
       false).

Definition asStorage : Storage mockStorage :=
  mkStorage mockStorage Get Set_ Remove Delete.

End mock.

(** The built-in [storage] over [database/sql].  The data base is a table of
    rows (tag, value, tag index) and, when it is out of order, the error that
    every command returns. *)
Module sqlstorage.

Record row := mkRow { r_tag : string; r_value : string; r_index : Z }.

Record db := mkDb { rows : list row; fault : option error }.

Definition sameKey (tag value : string) (r : row) : bool :=
  String.eqb (r_tag r) tag && String.eqb (r_value r) value.

(** Modelled from the spec: the text of [sqlcmd.Cmd_insert_entry] (and of
    its Postgres variant) is generated from sql/ files that are missing;
    the spec has the Persistent Index's [Set] as an idempotent upsert on
    (value, tag): the row of the pair gets the new index, or a row is
    added. *)
Fixpoint Cmd_insert_entry (tag value : string) (index : Z) (t : list row)
    : list row :=
  match t with
  | [] => [mkRow tag value index]
  | r :: t' =>
      if sameKey tag value r then mkRow tag value index :: t'
      else r :: Cmd_insert_entry tag value index t'
  end.

(** Modelled from the spec: [sqlcmd.Cmd_get_entries] is missing; [Get]
    returns the entries whose tag is among the parameters. *)
Definition Cmd_get_entries (tags : list string) (t : list row) : list row :=
  List.filter (fun r => existsb (String.eqb (r_tag r)) tags) t.

(** Modelled from the spec: [sqlcmd.Cmd_delete_entry] is missing; [Remove]
    deletes the association of the pair and is a no-op if it is absent. *)
Definition Cmd_delete_entry (tag value : string) (t : list row) : list row :=
  List.filter (fun r => negb (sameKey tag value r)) t.

(** Modelled from the spec: [sqlcmd.Cmd_delete_tag] is missing; [Delete]
    deletes all associations of the tag. *)
Definition Cmd_delete_tag (tag : string) (t : list row) : list row :=
  List.filter (fun r => negb (String.eqb (r_tag r) tag)) t.

(** [db.Exec]: a command that rewrites the table. *)
Definition Exec (s : db) (cmd : list row -> list row) : option error * db :=
  match fault s with
  | Some err => (Some err, s)
  | None => (None, mkDb (cmd (rows s)) None)
  end.

Definition Get (s : db) (tags : list string) : (error + list Entry) * db :=
  match tags with
  | [] => (inr [], s)
  | _ =>
      match fault s with
      | Some err => (inl err, s)
      | None =>
          (inr (map (fun r => newEntry (r_value r) (r_tag r) (r_index r))
                  (Cmd_get_entries tags (rows s))), s)
      end
  end.

Definition Set_ (s : db) (e : Entry) : option error * db :=
  Exec s (Cmd_insert_entry (Tag e) (Value e) (TagIndex e)).

Definition Remove (s : db) (e : Entry) : option error * db :=
  Exec s (Cmd_delete_entry (Tag e) (Value e)).

Definition Delete (s : db) (tag : string) : option error * db :=
  Exec s (Cmd_delete_tag tag).

Definition asStorage : Storage db := mkStorage db Get Set_ Remove Delete.

End sqlstorage.

(** The making of the built-in storage, storage.go.  [newStorage] looks at
    the file system, opens the data base and may run a command in it: the
    embedding takes the answers of these calls from a [world] and returns,
    next to the result, the calls that were made, in order. *)
Module storageSetup.

Definition sqlite : string := "sqlite3".
Definition postgres : string := "postgres".
Definition DefaultDriverName : string := sqlite.
Definition DefaultDataSourceName : string := "data.sqlite".

(** The constants of the generated package sql, by name. *)
Inductive sqlcmd :=
| Cmd_create_db | Cmd_get_entries | Cmd_get_tags | Cmd_insert_entry
| Cmd_insert_entry_pq | Cmd_delete_entry | Cmd_delete_tag.

Record commands := mkCommands {
  createDB : sqlcmd;
  getEntries : sqlcmd;
  getTags : sqlcmd;
  insertEntry : sqlcmd;
  deleteEntry : sqlcmd;
  deleteTag : sqlcmd
}.

Definition getCommands (driverName : string) : commands :=
  let c := mkCommands Cmd_create_db Cmd_get_entries Cmd_get_tags
             Cmd_insert_entry Cmd_delete_entry Cmd_delete_tag in
  if String.eqb driverName postgres
  then mkCommands (createDB c) (getEntries c) (getTags c)
         Cmd_insert_entry_pq (deleteEntry c) (deleteTag c)
  else c.

Record StorageOptions := mkStorageOptions {
  DriverName : string;
  DataSourceName : string
}.

(** [os.Stat]: the file is there, it is not ([os.IsNotExist]), or another
    error. *)
Inductive statResult := StatFound | StatNotExist | StatError (err : error).

Record world := mkWorld {
  os_Stat : string -> statResult;
  sql_Open : string -> string -> option error;
  db_Exec : sqlcmd -> option error
}.

Inductive call :=
| CallStat (path : string)
| CallOpen (driver source : string)
| CallExec (cmd : sqlcmd)
| CallClose.

(** [&storage{db, commands}]: the handle is the data base that was
    opened. *)
Record storage := mkStorage {
  db_driver : string;
  db_source : string;
  st_commands : commands
}.

Definition newStorage (w : world) (o : StorageOptions)
    : (error + storage) * list call :=
  let driver :=
    if String.eqb (DriverName o) "" then DefaultDriverName
    else DriverName o in
  let source :=
    if String.eqb (DataSourceName o) "" then DefaultDataSourceName
    else DataSourceName o in
  let stat :=
    if String.eqb driver sqlite then Some (os_Stat w source) else None in
  let stats := match stat with Some _ => [CallStat source] | None => [] end in
  match stat with
  | Some (StatError err) => (inl err, stats)
  | _ =>
      let initDB :=
        match stat with Some StatNotExist => true | _ => false end in
      match sql_Open w driver source with
      | Some err => (inl err, stats ++ [CallOpen driver source])
      | None =>
          let c := getCommands driver in
          if initDB then
            match db_Exec w (createDB c) with
            | Some err =>
                (inl err,
                 stats ++ [CallOpen driver source; CallExec (createDB c);
                           CallClose])
            | None =>
                (inr (mkStorage driver source c),
                 stats ++ [CallOpen driver source; CallExec (createDB c)])
            end
          else
            (inr (mkStorage driver source c),
             stats ++ [CallOpen driver source])
      end
  end.

(** [CacheOptions] and what [newCache] passes to [forget.New]. *)
Record CacheOptions := mkCacheOptions {
  CacheSize : Z;
  ExpectedItemSize : Z
}.

Record forgetOptions := mkForgetOptions {
  forget_CacheSize : Z;
  forget_ChunkSize : Z
}.

Definition newCache (o : CacheOptions) : forgetOptions :=
  let size := if ExpectedItemSize o <? 64 then 64 else ExpectedItemSize o in
  mkForgetOptions (CacheSize o) size.

(** [Options]: a custom storage or cache, [None] for nil, and the options
    of the built-in ones; [New] returns the stash of the storage and the
    cache it takes or makes. *)
Record Options (S C : Type) := mkOptions {
  Storage_ : option S;
  Cache_ : option C;
  StorageOptions_ : StorageOptions;
  CacheOptions_ : CacheOptions
}.
Arguments mkOptions {S C}. Arguments Storage_ {S C}. Arguments Cache_ {S C}.
Arguments StorageOptions_ {S C}. Arguments CacheOptions_ {S C}.

Definition New {S C : Type} (w : world) (o : Options S C)
    : (error + TagStash (C + forgetOptions) (S + storage)) * list call :=
  let made :=
    match Storage_ o with
    | Some s => (inr (inl s), [])
    | None =>
        match newStorage w (StorageOptions_ o) with
        | (inl err, calls) => (inl err, calls)
        | (inr s, calls) => (inr (inr s), calls)
        end
    end in
  match made with
  | (inl err, calls) => (inl err, calls)
  | (inr s, calls) =>
      let c :=
        match Cache_ o with
        | Some c => inl c
        | None => inr (newCache (CacheOptions_ o))
        end in
      (inr (mkTagStash c s), calls)
  end.

End storageSetup.

(** [stringSetsEqual] of the tests, which compares the tags [GetTags]
    returns with the expected ones. *)
Definition stringSetsEqual (left right : list string) : bool :=
  if negb (length left =? length right)%nat then false
  else forallb (fun l => existsb (fun r => String.eqb l r) right) left.

(** ** Reference implementations of the collaborators

    Small implementations of the interfaces, to run the definitions above
    and to show that the contracts assumed of the collaborators can be met.
    They are not the packages themselves. *)

(** A line-oriented text codec: a record is [token.token=value] and a line
    feed. *)
Module lineCodec.

Definition lf : ascii := "010"%char.
Definition eq_sign : ascii := "="%char.
Definition dot : ascii := "."%char.

Fixpoint join (ts : list string) : string :=
  match ts with
  | [] => ""
  | [t] => t
  | t :: ts' => t +:+ String dot (join ts')
  end.

(** The fields of [s] between the separators [c]: one more than there are
    separators. *)
Fixpoint split (c : ascii) (s : string) : list string :=
  match s with
  | EmptyString => [""]
  | String a s' =>
      if Ascii.eqb a c then "" :: split c s'
      else
        match split c s' with
        | f :: fs => String a f :: fs
        | [] => [String a ""]
        end
  end.

(** The complete lines of [s] and what follows the last line feed. *)
Fixpoint lines (s : string) : list string * string :=
  match s with
  | EmptyString => ([], "")
  | String a s' =>
      let (ls, tl) := lines s' in
      if Ascii.eqb a lf then ("" :: ls, tl)
      else
        match ls with
        | [] => ([], String a tl)
        | l :: ls' => (String a l :: ls', tl)
        end
  end.

(** [s] cut at the first [c]. *)
Fixpoint break (c : ascii) (s : string) : option (string * string) :=
  match s with
  | EmptyString => None
  | String a s' =>
      if Ascii.eqb a c then Some ("", s')
      else
        match break c s' with
        | Some (p, r) => Some (String a p, r)
        | None => None
        end
  end.

Definition tokens (k : string) : list string :=
  match k with
  | EmptyString => []
  | _ => split dot k
  end.

Definition record (e : KvEntry) : string :=
  join (Key e) +:+ String eq_sign (Val e +:+ String lf "").

Definition parseLine (l : string) : ReadResult :=
  match break eq_sign l with
  | None => ReadErr (io_err (ErrKeyval "missing ="))
  | Some (k, v) => ReadOk (mkKv (tokens k) v)
  end.

Definition WriteEntry (e : KvEntry) : list byte :=
  list_byte_of_string (record e).

Definition ReadEntries (r : list byte) : list ReadResult :=
  let (ls, tl) := lines (string_of_list_byte r) in
  map parseLine ls ++
    [ReadErr (match tl with
              | EmptyString => io_EOF
              | _ => io_err (ErrKeyval "unterminated record")
              end)].

(** A token has a character and none of the separators. *)
Fixpoint free (c : ascii) (s : string) : bool :=
  match s with
  | EmptyString => true
  | String a s' => negb (Ascii.eqb a c) && free c s'
  end.

Definition token (s : string) : bool :=
  negb (String.eqb s "") && free dot s && free eq_sign s && free lf s.

Definition wf (e : KvEntry) : bool :=
  forallb token (Key e) && free lf (Val e).

#[export] Instance codec : Keyval :=
  {| kv_WriteEntry := WriteEntry; kv_ReadEntries := ReadEntries |}.

End lineCodec.

(** A blob cache of one segment: an item (key and content) larger than
    [cacheSize] is refused, and nothing is evicted to make room. *)
Module mapForget.

Record state := mkState {
  items : gmap string (list byte);
  cacheSize : nat
}.

Definition size (key : string) (b : list byte) : nat :=
  String.length key + length b.

Definition Get (c : state) (key : string) : option (list byte) :=
  items c !! key.

Definition Set_ (c : state) (key : string) : bool * state :=
  if (cacheSize c <? size key [])%nat then (false, c)
  else (true, mkState (<[key := []]> (items c)) (cacheSize c)).

Definition Write_ (c : state) (key : string) (b : list byte)
    : option error * state :=
  match items c !! key with
  | None => (Some (ErrSink "item discarded"), c)
  | Some old =>
      if (cacheSize c <? size key (old ++ b))%nat
      then (Some (ErrSink "write limit"),
            mkState (delete key (items c)) (cacheSize c))
      else (None, mkState (<[key := old ++ b]> (items c)) (cacheSize c))
  end.

Definition Delete (c : state) (key : string) : state :=
  mkState (delete key (items c)) (cacheSize c).

#[export] Instance forget : Forget state :=
  {| forget_Get := Get; forget_Set := Set_;
     forget_Write := Write_; forget_Delete := Delete |}.

Definition empty (n : nat) : state := mkState ∅ n.

End mapForget.

(** [sort.Sort] as the Go releases before pdqsort do it on a slice of at
    most 12 elements: one Shell pass with gap 6, then insertion sort.  On a
    longer slice this routine still sorts, where Go partitions first. *)
Module shortSort.

(** [for j := i; j > a && Less(j, j-1); j-- { Swap(j, j-1) }] for the
    element [x] behind the sorted slice whose reverse is [rp]. *)
Fixpoint insertBack (x : Entry) (rp : list Entry) : list Entry :=
  match rp with
  | [] => [x]
  | y :: rp' => if Less x y then y :: insertBack x rp' else x :: rp
  end.

Fixpoint insertionSort_loop (rp l : list Entry) : list Entry :=
  match l with
  | [] => rev rp
  | x :: l' => insertionSort_loop (insertBack x rp) l'
  end.

Definition insertionSort (l : list Entry) : list Entry :=
  insertionSort_loop [] l.

(** [if Less(i, i-6) { Swap(i, i-6) }]. *)
Definition shellStep (i : nat) (l : list Entry) : list Entry :=
  match l !! i, l !! (i - 6)%nat with
  | Some x, Some y =>
      if Less x y then <[i := y]> (<[(i - 6)%nat := x]> l) else l
  | _, _ => l
  end.

(** [n] steps of the pass from index [i] on. *)
Fixpoint shellPass (n i : nat) (l : list Entry) : list Entry :=
  match n with
  | O => l
  | S n' => shellPass n' (S i) (shellStep i l)
  end.

Definition Sort (l : list Entry) : list Entry :=
  insertionSort (shellPass (length l - 6) 6 l).

#[export] Instance sorter : Sorter := Sort.

(** [sort.Sort] of the later releases on a slice of at most 12 elements:
    insertion sort alone. *)
Definition insertionSorter : Sorter := insertionSort.

End shortSort.

(** * Properties *)

(** ** Arithmetic of [int] *)

Module GoIntFacts.
Import GoInt.

Lemma wrap_id z : is_int z -> wrap z = z.
Proof.
  unfold is_int, wrap, min_int, max_int. intros Hz.
  rewrite Z.mod_small; lia.
Qed.

Lemma wrap_is_int z : is_int (wrap z).
Proof.
  unfold is_int, wrap, min_int, max_int.
  pose proof (Z.mod_pos_bound (z + 2 ^ 63) (2 ^ 64)). lia.
Qed.

(** Wrapping an intermediate result does not change the wrapped sum. *)
Lemma add_wrap_l a b : add (wrap a) b = wrap (a + b).
Proof.
  unfold add, wrap.
  replace ((a + 2 ^ 63) mod 2 ^ 64 - 2 ^ 63 + b + 2 ^ 63)
    with ((a + 2 ^ 63) mod 2 ^ 64 + b) by lia.
  rewrite Zplus_mod_idemp_l. do 2 f_equal. lia.
Qed.

Lemma add_wrap_r a b : add a (wrap b) = wrap (a + b).
Proof.
  unfold add, wrap.
  replace (a + ((b + 2 ^ 63) mod 2 ^ 64 - 2 ^ 63) + 2 ^ 63)
    with (a + (b + 2 ^ 63) mod 2 ^ 64) by lia.
  rewrite Zplus_mod_idemp_r. do 2 f_equal. lia.
Qed.

End GoIntFacts.



(** ** [Atoi] reads back what [Itoa] prints *)

Module strconvFacts.
Import strconv.

Lemma digit_cases d :
  0 <= d <= 9 ->
  d = 0 \/ d = 1 \/ d = 2 \/ d = 3 \/ d = 4 \/
  d = 5 \/ d = 6 \/ d = 7 \/ d = 8 \/ d = 9.
Proof. lia. Qed.

Lemma digit_of_char_of d : 0 <= d <= 9 -> digit_of (char_of d) = Some d.
Proof.
  intros Hd. destruct (digit_cases d Hd) as
    [-> | [-> | [-> | [-> | [-> | [-> | [-> | [-> | [-> | ->]]]]]]]]];
    reflexivity.
Qed.

Lemma char_of_not_sign d :
  0 <= d <= 9 ->
  Ascii.eqb (char_of d) "+" = false /\ Ascii.eqb (char_of d) "-" = false.
Proof.
  intros Hd. destruct (digit_cases d Hd) as
    [-> | [-> | [-> | [-> | [-> | [-> | [-> | [-> | [-> | ->]]]]]]]]];
    split; reflexivity.
Qed.

Lemma ParseUint_loop_digit d s n :
  0 <= d <= 9 -> 0 <= n -> n * 10 + d <= max_uint64 ->
  ParseUint_loop (String (char_of d) s) n = ParseUint_loop s (n * 10 + d).
Proof.
  intros Hd Hn Hmax. simpl. rewrite digit_of_char_of by assumption.
  assert (Hc : (cutoff <=? n) = false).
  { apply Z.leb_gt. unfold cutoff, max_uint64 in *.
    change ((2 ^ 64 - 1) / 10 + 1) with 1844674407370955162.
    change (2 ^ 64 - 1) with 18446744073709551615 in Hmax. lia. }
  rewrite Hc.
  assert (Hm : (max_uint64 <? n * 10 + d) = false) by (apply Z.ltb_ge; lia).
  now rewrite Hm.
Qed.

Lemma formatBits_parse fuel : forall u a,
  0 <= u <= max_uint64 -> u < 10 ^ Z.of_nat fuel ->
  ParseUint_loop (formatBits fuel u a) 0 = ParseUint_loop a u.
Proof.
  induction fuel as [|fuel IH]; intros u a Hu Hlt.
  - simpl in *. assert (u = 0) by lia. now subst.
  - cbn [formatBits]. destruct (Z.ltb_spec u 10) as [Hs | Hs].
    + rewrite ParseUint_loop_digit by (unfold max_uint64 in *; lia).
      now rewrite Z.mul_0_l, Z.add_0_l.
    + rewrite Nat2Z.inj_succ, Z.pow_succ_r in Hlt by lia.
      rewrite IH.
      * pose proof (Z.mod_pos_bound u 10 ltac:(lia)).
        pose proof (Z.div_mod u 10 ltac:(lia)).
        rewrite ParseUint_loop_digit; [f_equal; lia | lia | | lia].
        apply Z.div_pos; lia.
      * split; [apply Z.div_pos; lia |].
        transitivity u; [apply Z.div_le_upper_bound; lia | lia].
      * apply Z.div_lt_upper_bound; lia.
Qed.

Lemma formatBits_head fuel : forall u a,
  0 <= u ->
  exists d rest,
    0 <= d <= 9 /\ formatBits (S fuel) u a = String (char_of d) rest.
Proof.
  induction fuel as [|fuel IH]; intros u a Hu; cbn [formatBits].
  - destruct (Z.ltb_spec u 10).
    + exists u, a. split; [lia | reflexivity].
    + exists (u mod 10), a. split; [|reflexivity].
      pose proof (Z.mod_pos_bound u 10 ltac:(lia)). lia.
  - destruct (Z.ltb_spec u 10).
    + exists u, a. split; [lia | reflexivity].
    + apply IH. apply Z.div_pos; lia.
Qed.

Lemma ParseUint_FormatUint u :
  0 <= u <= max_uint64 -> ParseUint (FormatUint u) = inr u.
Proof.
  intros Hu. unfold ParseUint.
  destruct (formatBits_head 19 u "" ltac:(lia)) as (d & rest & Hd & Heq).
  unfold FormatUint. rewrite Heq, <- Heq.
  rewrite formatBits_parse; [reflexivity | assumption |].
  unfold max_uint64 in Hu. change (10 ^ Z.of_nat 20) with 100000000000000000000.
  change (2 ^ 64 - 1) with 18446744073709551615 in Hu. lia.
Qed.

Theorem Atoi_Itoa i : GoInt.is_int i -> Atoi (Itoa i) = inr i.
Proof.
  unfold GoInt.is_int, GoInt.min_int, GoInt.max_int. intros Hi.
  change (2 ^ 63) with 9223372036854775808 in Hi.
  unfold Atoi, Itoa. destruct (Z.ltb_spec i 0) as [Hneg | Hpos].
  - unfold ParseInt.
    change (Ascii.eqb "-" "+") with false. change (Ascii.eqb "-" "-") with true.
    cbn [orb andb negb].
    rewrite ParseUint_FormatUint
      by (unfold max_uint64; change (2 ^ 64 - 1) with 18446744073709551615; lia).
    change (2 ^ 63) with 9223372036854775808.
    destruct (Z.ltb_spec 9223372036854775808 (- i)); [lia |].
    f_equal. lia.
  - destruct (formatBits_head 19 i "" Hpos) as (d & rest & Hd & Heq).
    assert (HF : FormatUint i = String (char_of d) rest) by exact Heq.
    unfold ParseInt. rewrite HF.
    destruct (char_of_not_sign d Hd) as [-> ->]. cbn [orb andb negb].
    rewrite <- HF, ParseUint_FormatUint
      by (unfold max_uint64; change (2 ^ 64 - 1) with 18446744073709551615; lia).
    change (2 ^ 63) with 9223372036854775808.
    destruct (Z.leb_spec 9223372036854775808 i); [lia | reflexivity].
Qed.

End strconvFacts.

(** ** The record codec *)

(** A record [readAll] accepts: one key token and a decimal position. *)
Definition wellFormed (e : KvEntry) : Prop :=
  (exists k, Key e = [k]) /\ exists i, strconv.Atoi (Val e) = inr i.

(** The error [readAll] returns for a record it does not accept. *)
Definition recordError (e : KvEntry) : error :=
  match strconv.Atoi (Val e) with
  | inl err => err
  | inr _ => ErrDamagedCacheData
  end.

(** The entry [readAll] makes of a record it accepts. *)
Definition entryOf (tag : string) (e : KvEntry) : Entry :=
  newEntry (hd "" (Key e)) tag
    (match strconv.Atoi (Val e) with inr i => i | inl _ => 0 end).

Section CodecFacts.
Context `{K : Keyval}.

Lemma readAll_loop_good good : forall rest tag acc,
  Forall wellFormed good ->
  readAll_loop (map ReadOk good ++ rest) tag acc
  = readAll_loop rest tag (acc ++ map (entryOf tag) good).
Proof.
  induction good as [|e good IH]; intros rest tag acc Hgood.
  - simpl. now rewrite app_nil_r.
  - inversion Hgood as [|? ? [[k Hk] [i Hi]] Hgood']; subst.
    cbn [map app readAll_loop]. rewrite Hi, Hk.
    rewrite IH by assumption. f_equal.
    rewrite <- app_assoc. f_equal. cbn [app].
    unfold entryOf. now rewrite Hi, Hk.
Qed.

Lemma readAll_loop_bad bad rest tag acc :
  ~ wellFormed bad ->
  readAll_loop (ReadOk bad :: rest) tag acc = inl (recordError bad).
Proof.
  intros Hbad. cbn [readAll_loop]. unfold recordError.
  destruct (strconv.Atoi (Val bad)) as [err | i] eqn:Hi; [reflexivity |].
  destruct (Key bad) as [|k [|k' ks]] eqn:Hk; try reflexivity.
  exfalso. apply Hbad. split; eauto.
Qed.

(** On a reader that returns an entry or an error, never both, the two
    versions of [readAll] do the same. *)
Lemma readAll_cache_go_same r tag : readAll_cache_go r tag = readAll r tag.
Proof.
  unfold readAll_cache_go, readAll. generalize (@nil Entry).
  induction (kv_ReadEntries r) as [|[e | [|x]] rs IH]; intros acc;
    try reflexivity.
  cbn [map returned readAll_loop_cache_go readAll_loop].
  destruct (strconv.Atoi (Val e)); [reflexivity |].
  destruct (Key e) as [|k [|k' ks]]; try reflexivity. apply IH.
Qed.

(** The bytes [writeAll] sends to a buffer. *)
Lemma writeAll_buffer e : forall w : list byte,
  writeAll w e = (None, w ++ flat_map (fun ei => kv_WriteEntry (kvOf ei)) e).
Proof.
  induction e as [|ei e IH]; intros w; cbn [writeAll flat_map].
  - now rewrite app_nil_r.
  - unfold Write at 1, buffer_Write. rewrite IH. now rewrite <- app_assoc.
Qed.

Lemma encode_flat_map e :
  encode e = flat_map kv_WriteEntry (map kvOf e).
Proof.
  unfold encode. rewrite writeAll_buffer. cbn [snd app].
  induction e as [|ei e IH]; [reflexivity |].
  cbn [map flat_map]. now rewrite IH.
Qed.

End CodecFacts.

Section Decoding.
Context `{K : Keyval}.

(** C4, as the code has it: decoding fails at the first record that has
    not exactly one key token or whose position is not an integer,
    whatever follows it and however many well-formed records precede it
    (none: a lone malformed record); no entry list is returned.  The error
    is the one of the integer conversion when the position is not an
    integer, and [ErrDamagedCacheData] otherwise.  The [readAll] of cache.go
    does the same. *)
Theorem readAll_first_malformed (r : list byte) (tag : string)
    (good : list KvEntry) (bad : KvEntry) (rest : list ReadResult) :
  kv_ReadEntries r = map ReadOk good ++ ReadOk bad :: rest ->
  Forall wellFormed good ->
  ~ wellFormed bad ->
  readAll r tag = inl (recordError bad)
  /\ readAll_cache_go r tag = inl (recordError bad)
  /\ (forall num why,
        strconv.Atoi (Val bad) = inl (NumError "Atoi" num why) ->
        readAll r tag = inl (NumError "Atoi" num why))
  /\ ((exists i, strconv.Atoi (Val bad) = inr i) ->
      readAll r tag = inl ErrDamagedCacheData).
Proof.
  intros Hr Hgood Hbad.
  assert (Hread : readAll r tag = inl (recordError bad)).
  { unfold readAll. rewrite Hr, readAll_loop_good by assumption.
    now apply readAll_loop_bad. }
  split; [exact Hread |].
  split; [now rewrite readAll_cache_go_same |]. split.
  - intros num why Hnum. rewrite Hread. unfold recordError. now rewrite Hnum.
  - intros [i Hi]. rewrite Hread. unfold recordError. now rewrite Hi.
Qed.

(** When every record is well formed and the reader ends with [io.EOF],
    decoding returns one entry per record, in order. *)
Lemma readAll_all_good (r : list byte) (tag : string) (good : list KvEntry) :
  kv_ReadEntries r = map ReadOk good ++ [ReadErr io_EOF] ->
  Forall wellFormed good ->
  readAll r tag = inr (map (entryOf tag) good).
Proof.
  intros Hr Hgood. unfold readAll.
  now rewrite Hr, readAll_loop_good by assumption.
Qed.

End Decoding.

Section RoundTrip.
Context `{K : Keyval} `{L : !KeyvalLaws K}.

Lemma wellFormed_kvOf e :
  GoInt.is_int (TagIndex e) -> wellFormed (kvOf e).
Proof.
  intros Hi. split; [now exists (Value e) |].
  exists (TagIndex e). now apply strconvFacts.Atoi_Itoa.
Qed.

Lemma entryOf_kvOf tag e :
  GoInt.is_int (TagIndex e) ->
  entryOf tag (kvOf e) = newEntry (Value e) tag (TagIndex e).
Proof.
  intros Hi. unfold entryOf. cbn [kvOf Key Val hd].
  now rewrite strconvFacts.Atoi_Itoa.
Qed.

Lemma readAll_encode tag l :
  Forall (fun e => GoInt.is_int (TagIndex e) /\ kv_wf (kvOf e)) l ->
  readAll (encode l) tag
  = inr (map (fun e => newEntry (Value e) tag (TagIndex e)) l).
Proof.
  intros Hl. rewrite List.Forall_forall in Hl.
  rewrite (readAll_all_good _ tag (map kvOf l)).
  - f_equal. rewrite map_map. apply map_ext_in. intros e He.
    apply entryOf_kvOf. now apply Hl.
  - rewrite encode_flat_map. apply kv_read_written.
    apply List.Forall_forall. intros kv Hkv.
    apply in_map_iff in Hkv as (e & <- & He). now apply Hl.
  - apply List.Forall_forall. intros kv Hkv.
    apply in_map_iff in Hkv as (e & <- & He).
    apply wellFormed_kvOf. now apply Hl.
Qed.

(** C5: for a record list whose entries carry the tag of the list, an
    [int] position and a value the format can carry as one token, decoding
    what [writeAll] wrote returns a list with the same value, tag and tag
    index, record by record. *)
Theorem decode_encode_roundtrip (tag : string) (l : list Entry) :
  Forall (fun e => Tag e = tag /\ GoInt.is_int (TagIndex e)
                   /\ kv_wf (kvOf e)) l ->
  exists l', readAll (encode l) tag = inr l'
             /\ map content l' = map content l.
Proof.
  intros Hl. rewrite List.Forall_forall in Hl. eexists. split.
  - apply readAll_encode. apply List.Forall_forall. intros e He.
    destruct (Hl e He) as (_ & Hi & Hw). now split.
  - rewrite map_map. apply map_ext_in. intros e He.
    destruct (Hl e He) as (Ht & _).
    unfold content. cbn. now rewrite Ht.
Qed.

End RoundTrip.

(** ** The tag cache *)

Section CacheReads.
Context `{K : Keyval} {C : Type} `{F : Forget C}.

(** The record list the cache holds for a tag, as [withTagEntries] reads
    it: empty when the blob cache has no item. *)
Definition cached (c : C) (tag : string) : error + list Entry :=
  match forget_Get c tag with
  | Some r => readAll r tag
  | None => inr []
  end.

Definition entriesOf (c : C) (tag : string) : list Entry :=
  match cached c tag with inr l => l | inl _ => [] end.





End CacheReads.

Section CacheWrites.
Context `{K : Keyval} {C : Type} `{F : Forget C}.

Lemma withTagEntries_decode_error c tag op r err :
  forget_Get c tag = Some r -> readAll r tag = inl err ->
  withTagEntries c tag op = (Some err, c).
Proof.
  intros Hg Hr. unfold withTagEntries. now rewrite Hg, Hr.
Qed.

(** C10: when the bytes cached for the tag of the entry do not decode,
    [cache.Set] and [cache.Remove] return the decoding error and the blob
    cache is the one they started from: nothing was written. *)
Theorem cache_write_decode_error (c : C) (e : Entry) (r : list byte)
    (err : error) :
  forget_Get c (Tag e) = Some r ->
  readAll r (Tag e) = inl err ->
  cache_Set c e = (Some err, c) /\ cache_Remove c e = (Some err, c).
Proof.
  intros Hg Hr. split.
  - unfold cache_Set. now apply withTagEntries_decode_error with r.
  - unfold cache_Remove. now apply withTagEntries_decode_error with r.
Qed.

End CacheWrites.

(** ** The engine: failures *)

Section EngineFailures.
Context {C S : Type} (cacheI : Storage C) (storageI : Storage S).
Context {sorter : Sorter}.

Lemma cacheStored_app pre : forall post c,
  cacheStored cacheI c (pre ++ post)
  = match cacheStored cacheI c pre with
    | (Some err, c') => (Some err, c')
    | (None, c') => cacheStored cacheI c' post
    end.
Proof.
  induction pre as [|e pre IH]; intros post c; [reflexivity |].
  cbn [app cacheStored].
  destruct (st_Set cacheI c e) as [[err|] c']; [reflexivity | apply IH].
Qed.

(** C6: the cache returned its entries, the storage returned [stored] for
    the tags not cached, and writing one of the stored entries into the
    cache fails after the ones before it were written: [getAll], [Get] and
    [GetAll] return that error and no result. *)
Theorem getAll_cache_write_failure (t : TagStash C S) (tags : list string)
    (entries : list Entry) (c1 : C) (stored : list Entry) (s1 : S)
    (pre : list Entry) (e : Entry) (post : list Entry) (c' c2 : C)
    (err : error) :
  st_Get cacheI (cache t) tags = (inr entries, c1) ->
  st_Get storageI (storage t) (fst (setRequestIndex tags entries))
  = (inr stored, s1) ->
  stored = pre ++ e :: post ->
  cacheStored cacheI c1 pre = (None, c') ->
  st_Set cacheI c' e = (Some err, c2) ->
  getAll cacheI storageI t tags = (inl err, mkTagStash c2 s1)
  /\ Get cacheI storageI t tags = (inl err, mkTagStash c2 s1)
  /\ GetAll cacheI storageI t tags = (inl err, mkTagStash c2 s1).
Proof.
  intros Hc Hs -> Hpre He.
  assert (Hall : getAll cacheI storageI t tags
                 = (inl err, mkTagStash c2 s1)).
  { unfold getAll. rewrite Hc.
    destruct (setRequestIndex tags entries) as [notCached entries'].
    cbn [fst] in Hs. rewrite Hs, cacheStored_app, Hpre.
    cbn [cacheStored]. now rewrite He. }
  unfold Get, GetAll. now rewrite Hall.
Qed.

Lemma TagStash_Set_loop_app value pre : forall post t i,
  TagStash_Set_loop cacheI storageI t value i (pre ++ post)
  = match TagStash_Set_loop cacheI storageI t value i pre with
    | (Some err, t') => (Some err, t')
    | (None, t') =>
        TagStash_Set_loop cacheI storageI t' value
          (i + Z.of_nat (length pre)) post
    end.
Proof.
  induction pre as [|ti pre IH]; intros post t i.
  - cbn. now rewrite Z.add_0_r.
  - cbn [app TagStash_Set_loop length].
    destruct (st_Set storageI (storage t) _) as [[err|] s']; [reflexivity |].
    destruct (st_Set cacheI (cache t) _) as [[err|] c']; [reflexivity |].
    rewrite IH. rewrite Nat2Z.inj_succ.
    destruct (TagStash_Set_loop cacheI storageI _ value (i + 1) pre)
      as [[err|] t']; [reflexivity |].
    f_equal. lia.
Qed.

(** C7: [Set] has stored the tags [pre] and comes to the tag [ti], at the
    position that is the number of tags before it.  The entry goes to the
    storage first: if that fails, [Set] returns the error, the cache is not
    written for this tag and the tags [post] are not looked at.  Then it
    goes to the cache: if that fails, [Set] returns the error with the
    storage already written.  In both cases the stash is the one left by
    the tags [pre] and the failing call: nothing is undone. *)
Theorem TagStash_Set_first_failure (t : TagStash C S) (value : string)
    (pre : list string) (ti : string) (post : list string)
    (t1 : TagStash C S) :
  TagStash_Set cacheI storageI t value pre = (None, t1) ->
  (forall err s',
      st_Set storageI (storage t1)
        (newEntry value ti (Z.of_nat (length pre))) = (Some err, s') ->
      TagStash_Set cacheI storageI t value (pre ++ ti :: post)
      = (Some err, mkTagStash (cache t1) s'))
  /\ (forall s' err c',
      st_Set storageI (storage t1)
        (newEntry value ti (Z.of_nat (length pre))) = (None, s') ->
      st_Set cacheI (cache t1)
        (newEntry value ti (Z.of_nat (length pre))) = (Some err, c') ->
      TagStash_Set cacheI storageI t value (pre ++ ti :: post)
      = (Some err, mkTagStash c' s'))
  /\ (forall s' c',
      st_Set storageI (storage t1)
        (newEntry value ti (Z.of_nat (length pre))) = (None, s') ->
      st_Set cacheI (cache t1)
        (newEntry value ti (Z.of_nat (length pre))) = (None, c') ->
      TagStash_Set cacheI storageI t value (pre ++ ti :: post)
      = TagStash_Set_loop cacheI storageI (mkTagStash c' s') value
          (Z.of_nat (length pre) + 1) post).
Proof.
  intros Hpre. unfold TagStash_Set in *.
  rewrite TagStash_Set_loop_app, Hpre, Z.add_0_l. cbn [TagStash_Set_loop].
  split; [|split].
  - intros err s' Hs. now rewrite Hs.
  - intros s' err c' Hs Hc. now rewrite Hs, Hc.
  - intros s' c' Hs Hc. now rewrite Hs, Hc.
Qed.

End EngineFailures.

(** ** The engine: request positions *)

(** The position [setRequestIndex] leaves with an entry of tag [x]: the tags
    are visited in order from position [i], so the last one equal to [x]
    decides. *)
Fixpoint lastPos (i : Z) (tags : list string) (x : string) : option Z :=
  match tags with
  | [] => None
  | t :: tags' =>
      match lastPos (i + 1) tags' x with
      | Some p => Some p
      | None => if String.eqb x t then Some i else None
      end
  end.

(** The position of a tag in the query; of a tag the query names more than
    once, the last of its positions. *)
Fixpoint position (tags : list string) (x : string) : Z :=
  match tags with
  | [] => 0
  | t :: tags' =>
      if existsb (String.eqb x) tags' then 1 + position tags' x else 0
  end.

Definition markTag (i : Z) (t : string) (ei : Entry) : Entry :=
  if String.eqb (Tag ei) t
  then withIndexDelta ei (indexDelta i (TagIndex ei))
  else ei.

Definition annotate (i : Z) (tags : list string) (ei : Entry) : Entry :=
  match lastPos i tags (Tag ei) with
  | Some p => withIndexDelta ei (indexDelta p (TagIndex ei))
  | None => ei
  end.

Definition hasTag (t : string) (e : list Entry) : bool :=
  existsb (fun ei => String.eqb (Tag ei) t) e.

Lemma setRequestIndex_tag_spec i t e :
  setRequestIndex_tag i t e = (map (markTag i t) e, hasTag t e).
Proof.
  induction e as [|ei e IH]; [reflexivity |].
  cbn [setRequestIndex_tag map hasTag existsb]. rewrite IH.
  fold (hasTag t e).
  assert (Hm : markTag i t ei
               = if String.eqb (Tag ei) t
                 then withIndexDelta ei (indexDelta i (TagIndex ei)) else ei)
    by reflexivity.
  rewrite Hm. destruct (String.eqb (Tag ei) t); reflexivity.
Qed.

Lemma hasTag_markTag i t t' e : hasTag t' (map (markTag i t) e) = hasTag t' e.
Proof.
  induction e as [|ei e IH]; [reflexivity |].
  cbn [map hasTag existsb]. fold (hasTag t' (map (markTag i t) e)).
  fold (hasTag t' e). rewrite IH. f_equal.
  unfold markTag. now destruct (String.eqb (Tag ei) t).
Qed.

Lemma annotate_markTag i t tags ei :
  annotate (i + 1) tags (markTag i t ei) = annotate i (t :: tags) ei.
Proof.
  unfold annotate, markTag. cbn [lastPos].
  destruct (String.eqb (Tag ei) t) eqn:Ht; cbn [Tag withIndexDelta TagIndex].
  - destruct (lastPos (i + 1) tags (Tag ei)); reflexivity.
  - destruct (lastPos (i + 1) tags (Tag ei)); reflexivity.
Qed.

Lemma setRequestIndex_loop_spec tags : forall i e notFound,
  setRequestIndex_loop i tags e notFound
  = (notFound ++ List.filter (fun t => negb (hasTag t e)) tags,
     map (annotate i tags) e).
Proof.
  induction tags as [|t tags IH]; intros i e notFound.
  - cbn. rewrite app_nil_r. f_equal. symmetry. apply map_id.
  - cbn [setRequestIndex_loop List.filter]. rewrite setRequestIndex_tag_spec.
    rewrite IH. f_equal.
    + rewrite (filter_ext _ (fun t0 => negb (hasTag t0 e)))
        by (intros; now rewrite hasTag_markTag).
      destruct (hasTag t e); cbn [negb]; [reflexivity |].
      now rewrite <- app_assoc.
    + rewrite map_map. apply map_ext. intros ei. apply annotate_markTag.
Qed.

(** [setRequestIndex] returns the query tags of which no entry came, and
    leaves with each entry the delta to the position of its tag. *)
Lemma setRequestIndex_spec tags e :
  setRequestIndex tags e
  = (List.filter (fun t => negb (hasTag t e)) tags, map (annotate 0 tags) e).
Proof. unfold setRequestIndex. now rewrite setRequestIndex_loop_spec. Qed.

Lemma lastPos_absent tags : forall i x, ~ In x tags -> lastPos i tags x = None.
Proof.
  induction tags as [|t tags IH]; intros i x Hx; [reflexivity |].
  cbn [lastPos]. rewrite IH by (intros Hin; apply Hx; now right).
  destruct (String.eqb_spec x t) as [-> | _]; [|reflexivity].
  exfalso. apply Hx. now left.
Qed.

Lemma existsb_eqb_In x (tags : list string) :
  existsb (String.eqb x) tags = true <-> In x tags.
Proof.
  rewrite existsb_exists. split.
  - intros (t & Ht & Heq). apply String.eqb_eq in Heq. now subst.
  - intros Hx. exists x. split; [assumption | apply String.eqb_refl].
Qed.


(** The tag at the position of a tag is that tag. *)
Lemma position_lookup tags x :
  In x tags -> tags !! Z.to_nat (position tags x) = Some x.
Proof.
  induction tags as [|t tags IH]; intros Hx; [destruct Hx |].
  cbn [position]. destruct (existsb (String.eqb x) tags) eqn:Hlater.
  - apply existsb_eqb_In in Hlater. specialize (IH Hlater).
    assert (Hpos : 0 <= position tags x).
    { clear. induction tags as [|t tags IH]; cbn [position]; [lia |].
      destruct (existsb (String.eqb x) tags); lia. }
    replace (Z.to_nat (1 + position tags x))
      with (S (Z.to_nat (position tags x))) by lia.
    exact IH.
  - destruct Hx as [<- | Hx]; [reflexivity |].
    apply existsb_eqb_In in Hx. congruence.
Qed.


(** ** The engine: deduplication *)

Definition sameValue (v : string) (e : Entry) : bool := String.eqb (Value e) v.



(** [uniqueValues] with the map replaced by a search in [u]. *)
Definition bump (ei x : Entry) : Entry :=
  if sameValue (Value ei) x then countMatch ei x else x.

Fixpoint dedup (e u : list Entry) : list Entry :=
  match e with
  | [] => u
  | ei :: rest =>
      if existsb (sameValue (Value ei)) u
      then dedup rest (map (bump ei) u)
      else dedup rest (u ++ [withTagMatch ei 1])
  end.

(** [m] maps the values of [u], and only them, to their places. *)
Definition indexed (m : gmap string nat) (u : list Entry) : Prop :=
  forall v k, m !! v = Some k <-> exists x, u !! k = Some x /\ Value x = v.

Lemma indexed_empty : indexed ∅ [].
Proof.
  intros v k. rewrite lookup_empty. split; [discriminate |].
  intros (x & Hx & _). discriminate.
Qed.

Lemma indexed_alter m u ei k :
  indexed m u -> indexed m (alter (countMatch ei) k u).
Proof.
  intros Hm v j. rewrite (Hm v j). split; intros (x & Hx & Hv).
  - destruct (decide (k = j)) as [-> | Hne].
    + exists (countMatch ei x). rewrite list_lookup_alter_eq, Hx.
      split; [reflexivity | exact Hv].
    + exists x. rewrite list_lookup_alter_ne by assumption. now split.
  - destruct (decide (k = j)) as [-> | Hne].
    + rewrite list_lookup_alter_eq in Hx.
      destruct (u !! j) as [y|]; [|discriminate].
      injection Hx as <-. exists y. split; [reflexivity | exact Hv].
    + rewrite list_lookup_alter_ne in Hx by assumption. eauto.
Qed.

Lemma indexed_insert m u x :
  indexed m u -> m !! Value x = None ->
  indexed (<[Value x := length u]> m) (u ++ [x]).
Proof.
  intros Hm Hnone v k. destruct (decide (Value x = v)) as [<- | Hne].
  - rewrite lookup_insert_eq. split.
    + intros [= <-]. exists x. split; [|reflexivity].
      rewrite lookup_app_r by lia. now rewrite Nat.sub_diag.
    + intros (y & Hy & Hv). f_equal.
      destruct (decide (k < length u)%nat) as [Hlt | Hge].
      * rewrite lookup_app_l in Hy by assumption.
        assert (m !! Value x = Some k) by (apply Hm; eauto). congruence.
      * apply lookup_lt_Some in Hy. rewrite length_app in Hy. cbn in Hy. lia.
  - rewrite lookup_insert_ne by assumption. rewrite (Hm v k).
    split; intros (y & Hy & Hv).
    + exists y. split; [|assumption]. apply lookup_app_l_Some. assumption.
    + destruct (decide (k < length u)%nat) as [Hlt | Hge].
      * rewrite lookup_app_l in Hy by assumption. eauto.
      * rewrite lookup_app_r in Hy by lia.
        destruct (k - length u)%nat; cbn in Hy; [|discriminate].
        injection Hy as <-. congruence.
Qed.

Lemma alter_is_bump m u ei k :
  indexed m u -> m !! Value ei = Some k ->
  alter (countMatch ei) k u = map (bump ei) u.
Proof.
  intros Hm Hk. apply list_eq. intros j.
  change (map (bump ei) u) with (bump ei <$> u). rewrite list_lookup_fmap.
  destruct (decide (k = j)) as [<- | Hne].
  - rewrite list_lookup_alter_eq. apply Hm in Hk as (x & Hx & Hv).
    rewrite Hx. cbn. unfold bump, sameValue. rewrite Hv.
    now rewrite String.eqb_refl.
  - rewrite list_lookup_alter_ne by assumption.
    destruct (u !! j) as [y|] eqn:Hy; [|reflexivity]. cbn. f_equal.
    unfold bump, sameValue. destruct (String.eqb_spec (Value y) (Value ei));
      [|reflexivity].
    assert (m !! Value ei = Some j) by (apply Hm; eauto). congruence.
Qed.

Lemma existsb_sameValue_indexed m u v :
  indexed m u -> existsb (sameValue v) u = bool_decide (is_Some (m !! v)).
Proof.
  intros Hm. destruct (existsb (sameValue v) u) eqn:Hex.
  - apply existsb_exists in Hex as (x & Hin & Hv).
    apply String.eqb_eq in Hv. apply list_elem_of_In in Hin.
    apply list_elem_of_lookup in Hin as [k Hk].
    symmetry. apply bool_decide_eq_true. exists k. apply Hm. eauto.
  - symmetry. apply bool_decide_eq_false. intros [k Hk].
    apply Hm in Hk as (x & Hx & Hv).
    assert (Ht : existsb (sameValue v) u = true); [|congruence].
    apply existsb_exists. exists x. split.
    + apply list_elem_of_In. eapply list_elem_of_lookup_2. eassumption.
    + unfold sameValue. now apply String.eqb_eq.
Qed.

(** The map of [uniqueValues] finds what a search in [u] finds. *)
Lemma uniqueValues_loop_dedup e : forall m u,
  indexed m u -> uniqueValues_loop e m u = dedup e u.
Proof.
  induction e as [|ei rest IH]; intros m u Hm; [reflexivity |].
  cbn [uniqueValues_loop dedup].
  rewrite (existsb_sameValue_indexed m u) by assumption.
  destruct (m !! Value ei) as [k|] eqn:Hk.
  - rewrite bool_decide_eq_true_2 by eauto.
    rewrite <- (alter_is_bump m u ei k) by assumption.
    apply IH. now apply indexed_alter.
  - rewrite bool_decide_eq_false_2 by (intros [? ?]; discriminate).
    apply IH. now apply (indexed_insert m u (withTagMatch ei 1)).
Qed.

Lemma uniqueValues_dedup e : uniqueValues e = dedup e [].
Proof. apply uniqueValues_loop_dedup, indexed_empty. Qed.

Lemma NoDup_snoc {A} (l : list A) (x : A) :
  List.NoDup l -> ~ In x l -> List.NoDup (l ++ [x]).
Proof.
  intros Hl Hx. apply (Permutation_NoDup (Permutation_cons_append l x)).
  now constructor.
Qed.

Lemma map_Value_bump ei u : map Value (map (bump ei) u) = map Value u.
Proof.
  rewrite map_map. apply map_ext. intros x. unfold bump.
  now destruct (sameValue (Value ei) x).
Qed.

Lemma existsb_sameValue v u :
  existsb (sameValue v) u = true <-> In v (map Value u).
Proof.
  rewrite existsb_exists, in_map_iff. unfold sameValue.
  split; intros (x & H1 & H2).
  - apply String.eqb_eq in H2. eauto.
  - exists x. split; [assumption | now apply String.eqb_eq].
Qed.

(** The values of the result: those of [u], then the new ones of [e], each
    once. *)
Lemma dedup_values e : forall u,
  List.NoDup (map Value u) ->
  List.NoDup (map Value (dedup e u))
  /\ forall v, In v (map Value (dedup e u))
               <-> In v (map Value u) \/ In v (map Value e).
Proof.
  induction e as [|ei rest IH]; intros u Hu.
  - cbn. split; [assumption | tauto].
  - cbn [dedup map]. destruct (existsb (sameValue (Value ei)) u) eqn:Hex.
    + destruct (IH (map (bump ei) u)) as [Hnd Hin].
      { now rewrite map_Value_bump. }
      split; [assumption |]. intros v. rewrite Hin, map_Value_bump.
      apply existsb_sameValue in Hex. cbn [In].
      split; [tauto |]. intros [H1 | [<- | H1]]; tauto.
    + assert (Hnew : ~ In (Value ei) (map Value u)).
      { intros Hin. apply existsb_sameValue in Hin. congruence. }
      destruct (IH (u ++ [withTagMatch ei 1])) as [Hnd Hin].
      { rewrite map_app. cbn. apply NoDup_snoc; assumption. }
      split; [assumption |]. intros v. rewrite Hin, map_app, in_app_iff.
      cbn. tauto.
Qed.



Lemma sameValue_true v x : sameValue v x = true <-> Value x = v.
Proof. unfold sameValue. apply String.eqb_eq. Qed.

Lemma sameValue_false v x : sameValue v x = false <-> Value x <> v.
Proof. unfold sameValue. apply String.eqb_neq. Qed.



(** ** The engine: ranking *)

(** [a] may stand before [b] in the result: more matches, or as many and a
    delta that is not larger. *)
Definition ranksBefore (a b : Entry) : Prop :=
  requestTagMatch a > requestTagMatch b
  \/ (requestTagMatch a = requestTagMatch b
      /\ requestIndexDelta a <= requestIndexDelta b).





Lemma Less_false_iff a b : Less b a = false <-> ranksBefore a b.
Proof.
  unfold Less, ranksBefore.
  destruct (Z.eqb_spec (requestTagMatch b) (requestTagMatch a)) as [Heq | Hne].
  - rewrite Z.ltb_ge. lia.
  - destruct (Z.gtb_spec (requestTagMatch b) (requestTagMatch a)); split;
      try discriminate; try reflexivity; lia.
Qed.

Lemma ranksBefore_trans a b c :
  ranksBefore a b -> ranksBefore b c -> ranksBefore a c.
Proof. unfold ranksBefore. lia. Qed.

Lemma Sorted_weaken {A} (R1 R2 : A -> A -> Prop) l :
  (forall a b, R1 a b -> R2 a b) -> Sorted R1 l -> Sorted R2 l.
Proof.
  intros Himp Hs. induction Hs as [|a l Hs IH Hhd]; constructor.
  - assumption.
  - destruct Hhd; constructor. now apply Himp.
Qed.

Lemma sort_Sort_ranked `{SL : SorterLaws} l :
  StronglySorted ranksBefore (sort_Sort l).
Proof.
  apply Sorted_StronglySorted.
  - intros a b c. apply ranksBefore_trans.
  - apply Sorted_weaken with (R1 := fun a b => Less b a = false).
    + intros a b. apply Less_false_iff.
    + apply sort_sorted.
Qed.


Lemma map_Value_annotate i tags l :
  map Value (map (annotate i tags) l) = map Value l.
Proof.
  rewrite map_map. apply map_ext. intros e. unfold annotate.
  now destruct (lastPos i tags (Tag e)).
Qed.








Section Ranking.
Context {C S : Type} (cacheI : Storage C) (storageI : Storage S).
Context {sorter : Sorter} {SL : SorterLaws sorter}.

(** What [getAll] returns when nothing fails. *)
Lemma getAll_success (t : TagStash C S) (tags : list string)
    (cached : list Entry) (c1 : C) (stored : list Entry) (s1 : S) (c2 : C) :
  st_Get cacheI (cache t) tags = (inr cached, c1) ->
  st_Get storageI (storage t) (fst (setRequestIndex tags cached))
  = (inr stored, s1) ->
  cacheStored cacheI c1 stored = (None, c2) ->
  getAll cacheI storageI t tags
  = (inr (sort_Sort (uniqueValues (map (annotate 0 tags) (cached ++ stored)))),
     mkTagStash c2 s1).
Proof.
  intros Hc Hs Hw. unfold getAll. rewrite Hc.
  rewrite setRequestIndex_spec in *. cbn [fst] in Hs. rewrite Hs, Hw.
  rewrite setRequestIndex_spec. cbn [snd]. now rewrite map_app.
Qed.


End Ranking.

(** ** The engine: match counts *)



Definition pairOf (e : Entry) : string * string := (Value e, Tag e).

Lemma NoDup_map_filter {A B} (f : A -> B) (p : A -> bool) l :
  List.NoDup (map f l) -> List.NoDup (map f (List.filter p l)).
Proof.
  induction l as [|x l IH]; intros Hnd; [constructor |].
  cbn [map] in Hnd. inversion Hnd as [|? ? Hx Hnd']; subst.
  cbn [List.filter]. destruct (p x); [|now apply IH].
  cbn [map]. constructor; [|now apply IH].
  intros Hin. apply Hx. apply in_map_iff in Hin as (y & Hy & Hin).
  apply filter_In in Hin as [Hin _]. apply in_map_iff. eauto.
Qed.



(** ** The engine: the delta over the matched tags *)








Section RankedQuery.
Context {C S : Type} (cacheI : Storage C) (storageI : Storage S).
Context {sorter : Sorter} {SL : SorterLaws sorter}.


End RankedQuery.

(** ** The engine: match counts and the associations *)

(** The associations of the stash are the entries [rows].  The storage
    answered for the tags it was asked: it returned, once each, the
    associations that have one of these tags. *)
Definition answered (rows : list Entry) (asked : list string)
    (stored : list Entry) : Prop :=
  List.NoDup (map pairOf stored)
  /\ forall v t, In (v, t) (map pairOf stored)
                 <-> In (v, t) (map pairOf rows) /\ In t asked.






Section MatchCount.
Context {C S : Type} (cacheI : Storage C) (storageI : Storage S).
Context {sorter : Sorter} {SL : SorterLaws sorter}.


End MatchCount.

(** ** The engine: what the sort leaves open *)

(** The two numbers the result is ordered by. *)
Definition rankKey (e : Entry) : Z * Z :=
  (requestTagMatch e, requestIndexDelta e).

Definition keyBefore (a b : Z * Z) : Prop :=
  fst a > fst b \/ (fst a = fst b /\ snd a <= snd b).

#[local] Instance keyBefore_trans : Transitive keyBefore.
Proof. intros a b c. unfold keyBefore. lia. Qed.

#[local] Instance keyBefore_antisym : AntiSymm (=) keyBefore.
Proof.
  intros [a1 a2] [b1 b2]. unfold keyBefore. cbn. intros H1 H2.
  f_equal; lia.
Qed.

Lemma rankKeys_sorted l :
  StronglySorted ranksBefore l -> StronglySorted keyBefore (map rankKey l).
Proof.
  change (map rankKey l) with (rankKey <$> l).
  apply StronglySorted_fmap. intros a b Hab. exact Hab.
Qed.

Section SortContract.
Context {C S : Type} (cacheI : Storage C) (storageI : Storage S).

(** A result of [getAll] is the sorted list of the deduplicated entries,
    which do not depend on the sorting routine. *)
Lemma getAll_result_inv (sorter : Sorter) (t : TagStash C S)
    (tags : list string) (r : list Entry) (t' : TagStash C S) :
  getAll (sorter := sorter) cacheI storageI t tags = (inr r, t') ->
  exists unsorted,
    r = sort_Sort unsorted
    /\ forall sorter' : Sorter,
         getAll (sorter := sorter') cacheI storageI t tags
         = (inr (sort_Sort unsorted), t').
Proof.
  unfold getAll.
  destruct (st_Get cacheI (cache t) tags) as [[err | cached] c1];
    [discriminate |].
  destruct (setRequestIndex tags cached) as [notCached entries].
  destruct (st_Get storageI (storage t) notCached) as [[err | stored] s1];
    [discriminate |].
  destruct (cacheStored cacheI c1 stored) as [[err |] c2]; [discriminate |].
  intros [= <- <-]. eexists. split; reflexivity.
Qed.

(** C3, as the code has it: [getAll] sorts with [sort.Sort], of which only
    the contract is known: its result rearranges the deduplicated entries
    so that none is [Less] than the one before it.  Whatever routine meets
    the contract, [getAll] returns the same entries with the same sequence
    of match counts and deltas: only entries tied on both can stand in
    another order. *)
Theorem getAll_order_up_to_ties (sorter1 sorter2 : Sorter)
    (SL1 : SorterLaws sorter1) (SL2 : SorterLaws sorter2)
    (t : TagStash C S) (tags : list string) (r1 : list Entry)
    (t1 : TagStash C S) :
  getAll (sorter := sorter1) cacheI storageI t tags = (inr r1, t1) ->
  exists r2,
    getAll (sorter := sorter2) cacheI storageI t tags = (inr r2, t1)
    /\ Permutation r1 r2
    /\ map rankKey r1 = map rankKey r2
    /\ StronglySorted ranksBefore r1
    /\ StronglySorted ranksBefore r2.
Proof.
  intros H1. apply getAll_result_inv in H1 as (unsorted & -> & Hany).
  exists (sort_Sort (Sorter := sorter2) unsorted).
  split; [apply Hany |].
  assert (Hperm : Permutation (sort_Sort (Sorter := sorter1) unsorted)
                    (sort_Sort (Sorter := sorter2) unsorted)).
  { etransitivity; [apply sort_perm | symmetry; apply sort_perm]. }
  split; [exact Hperm |]. split; [|split; apply sort_Sort_ranked].
  apply (StronglySorted_unique keyBefore).
  - apply rankKeys_sorted, sort_Sort_ranked.
  - apply rankKeys_sorted, sort_Sort_ranked.
  - now apply Permutation_map.
Qed.

End SortContract.

(** ** Unique (value, tag) pairs *)

Section RecordLists.

Lemma cache_Set_find_values e l :
  map Value (fst (cache_Set_find e l)) = map Value l.
Proof.
  induction l as [|ei l IH]; [reflexivity |]. cbn [cache_Set_find].
  destruct (String.eqb (Value ei) (Value e)); [reflexivity |].
  destruct (cache_Set_find e l) as [l' found]. cbn in *. now rewrite IH.
Qed.

Lemma cache_Set_find_found e l :
  snd (cache_Set_find e l) = existsb (sameValue (Value e)) l.
Proof.
  induction l as [|ei l IH]; [reflexivity |].
  cbn [cache_Set_find existsb]. unfold sameValue at 1.
  destruct (String.eqb (Value ei) (Value e)); [reflexivity |].
  destruct (cache_Set_find e l) as [l' found]. cbn in *. exact IH.
Qed.

(** Where the value is not in the list, the loop changes nothing. *)
Lemma cache_Set_find_absent e l :
  ~ In (Value e) (map Value l) -> fst (cache_Set_find e l) = l.
Proof.
  induction l as [|ei l IH]; intros Hno; [reflexivity |].
  cbn [cache_Set_find].
  destruct (String.eqb_spec (Value ei) (Value e)) as [Heq | Hne].
  - exfalso. apply Hno. left. exact Heq.
  - destruct (cache_Set_find e l) as [l' found] eqn:Hf. cbn in *.
    f_equal. apply IH. tauto.
Qed.

(** Where the values are distinct, every entry with the value of [e] has
    the tag index of [e] after the loop, and the others are as before. *)
Lemma cache_Set_find_entries e l :
  List.NoDup (map Value l) ->
  forall x, In x (fst (cache_Set_find e l)) ->
    (Value x = Value e /\ TagIndex x = TagIndex e)
    \/ (Value x <> Value e /\ In x l).
Proof.
  induction l as [|ei l IH]; intros Hnd x Hx; [destruct Hx |].
  cbn [map] in Hnd. inversion Hnd as [|? ? Hnotin Hnd']; subst.
  cbn [cache_Set_find] in Hx.
  destruct (String.eqb_spec (Value ei) (Value e)) as [Heq | Hne].
  - destruct Hx as [<- | Hx]; [left; now split |].
    right. split; [|now right]. intros Hv. apply Hnotin.
    rewrite Heq, <- Hv. now apply in_map.
  - destruct (cache_Set_find e l) as [l' found]. cbn [fst] in *.
    destruct Hx as [<- | Hx]; [right; split; [assumption | now left] |].
    destruct (IH Hnd' x Hx) as [Hl | [Hv Hin]]; [now left |].
    right. split; [assumption | now right].
Qed.

Lemma cache_Set_find_keeps e l x :
  In x l -> Value x <> Value e -> In x (fst (cache_Set_find e l)).
Proof.
  induction l as [|ei l IH]; intros Hx Hne; [destruct Hx |].
  cbn [cache_Set_find].
  destruct (String.eqb_spec (Value ei) (Value e)) as [Heq | Hne'].
  - destruct Hx as [<- | Hx]; [contradiction | now right].
  - destruct (cache_Set_find e l) as [l' found]. cbn [fst] in *.
    destruct Hx as [<- | Hx]; [now left | right; auto].
Qed.

Lemma cache_Set_op_spec e l :
  List.NoDup (map Value l) ->
  List.NoDup (map Value (cache_Set_op e l))
  /\ In (Value e) (map Value (cache_Set_op e l))
  /\ (forall x, In x (cache_Set_op e l) -> Value x = Value e ->
                TagIndex x = TagIndex e)
  /\ (forall x, Value x <> Value e ->
                (In x (cache_Set_op e l) <-> In x l))
  /\ (In (Value e) (map Value l) ->
      map Value (cache_Set_op e l) = map Value l)
  /\ (~ In (Value e) (map Value l) -> cache_Set_op e l = l ++ [e]).
Proof.
  intros Hnd. unfold cache_Set_op.
  pose proof (cache_Set_find_values e l) as Hvals.
  pose proof (cache_Set_find_found e l) as Hfound.
  pose proof (cache_Set_find_entries e l Hnd) as Hent.
  pose proof (cache_Set_find_absent e l) as Habs.
  pose proof (cache_Set_find_keeps e l) as Hkeep.
  destruct (cache_Set_find e l) as [l' found]. cbn [fst snd] in *.
  subst found. destruct (existsb (sameValue (Value e)) l) eqn:Hex.
  - apply existsb_sameValue in Hex.
    split; [now rewrite Hvals |]. split; [now rewrite Hvals |].
    split; [|split; [|split; [intros _; exact Hvals | tauto]]].
    + intros x Hx Hv. destruct (Hent x Hx) as [[_ Hi] | [Hne _]];
        [exact Hi | contradiction].
    + intros x Hne. split; [|intros Hx; now apply Hkeep].
      intros Hx. destruct (Hent x Hx) as [[Hv _] | [_ Hin]];
        [contradiction | exact Hin].
  - assert (Hno : ~ In (Value e) (map Value l)).
    { intros Hin. apply existsb_sameValue in Hin. congruence. }
    rewrite (Habs Hno). rewrite map_app. cbn [map].
    split; [now apply NoDup_snoc |].
    split; [apply in_app_iff; right; now left |].
    split; [|split; [|split; [tauto | reflexivity]]].
    + intros x Hx Hv. apply in_app_iff in Hx as [Hx | [<- | []]];
        [|reflexivity]. exfalso. apply Hno. rewrite <- Hv. now apply in_map.
    + intros x Hne. rewrite in_app_iff. cbn. split; [|tauto].
      intros [Hx | [<- | []]]; [assumption | contradiction].
Qed.

(** [Remove]'s closure drops the entry with the value of [e] and nothing
    else. *)
Lemma cache_Remove_op_spec e l :
  List.NoDup (map Value l) ->
  List.NoDup (map Value (cache_Remove_op e l))
  /\ ~ In (Value e) (map Value (cache_Remove_op e l))
  /\ (forall x, Value x <> Value e ->
                (In x (cache_Remove_op e l) <-> In x l)).
Proof.
  induction l as [|ei l IH]; intros Hnd.
  - cbn. split; [constructor | tauto].
  - cbn [map] in Hnd. inversion Hnd as [|? ? Hnotin Hnd']; subst.
    destruct (IH Hnd') as (IH1 & IH2 & IH3). cbn [cache_Remove_op].
    destruct (String.eqb_spec (Value ei) (Value e)) as [Heq | Hne].
    + split; [assumption |]. split; [now rewrite <- Heq |].
      intros x Hx. cbn [In]. split; [tauto |].
      intros [<- | Hin]; [contradiction | assumption].
    + cbn [map In]. split; [|split].
      * constructor; [|assumption]. intros Hin. apply Hnotin.
        apply in_map_iff in Hin as (y & Hy & Hin).
        assert (Hye : Value y <> Value e) by congruence.
        apply (IH3 y Hye) in Hin. rewrite <- Hy. now apply in_map.
      * tauto.
      * intros x Hx. rewrite (IH3 x Hx). tauto.
Qed.

End RecordLists.

Section CacheContent.
Context `{K : Keyval} {C : Type} `{F : Forget C} {FL : ForgetLaws F}.

Lemma writeAll_forget entries : forall (c : C) key c' key' old,
  writeAll (c, key) entries = (None, (c', key')) ->
  forget_Get c key = Some old ->
  forget_Get c' key
  = Some (old ++ flat_map (fun ei => kv_WriteEntry (kvOf ei)) entries).
Proof.
  induction entries as [|ei entries IH]; intros c key c' key' old Hw Hold.
  - cbn in Hw. injection Hw as <- <-. cbn. now rewrite app_nil_r.
  - cbn [writeAll flat_map] in *. unfold Write at 1, forget_Writer in Hw.
    cbn [fst snd] in Hw.
    destruct (forget_Write c key (kv_WriteEntry (kvOf ei)))
      as [[err|] c1] eqn:Hwr; [discriminate |].
    apply forget_Write_ok in Hwr as (old' & Hold' & Hnew).
    assert (old' = old) by congruence. subst old'.
    rewrite (IH c1 key c' key' _ Hw Hnew). now rewrite <- app_assoc.
Qed.

(** After a successful read-modify-write the item of the tag holds the
    encoding of the new list. *)
Lemma withTagEntries_written c tag op c' l :
  cached c tag = inr l ->
  withTagEntries c tag op = (None, c') ->
  forget_Get c' tag = Some (encode (op l)).
Proof.
  unfold cached, withTagEntries. intros Hl.
  assert (Hread : match forget_Get c tag with
                  | Some r => readAll r tag
                  | None => inr []
                  end = inr l) by exact Hl.
  rewrite Hread.
  destruct (forget_Set c tag) as [[|] c0] eqn:Hset; [|discriminate].
  destruct (writeAll (c0, tag) (op l)) as [err [c1 key1]] eqn:Hw.
  cbn [fst]. intros [= -> ->].
  apply forget_Set_ok in Hset.
  rewrite (writeAll_forget _ _ _ _ _ _ Hw Hset).
  cbn [app]. rewrite encode_flat_map. f_equal.
  generalize (op l). clear. intros xs.
  induction xs as [|x xs IHx]; [reflexivity |].
  cbn [flat_map map]. now rewrite IHx.
Qed.

End CacheContent.

Section StorageRows.
Import sqlstorage.

Definition rowKey (r : row) : string * string := (r_value r, r_tag r).

(** The rows of the table have distinct (value, tag) pairs. *)
Definition uniqueRows (s : db) : Prop := List.NoDup (map rowKey (rows s)).

Lemma sameKey_true tag value r :
  sameKey tag value r = true <-> rowKey r = (value, tag).
Proof.
  unfold sameKey, rowKey. rewrite andb_true_iff, !String.eqb_eq.
  split; [intros [-> ->]; reflexivity | intros [= -> ->]; now split].
Qed.

Lemma Cmd_insert_entry_spec tag value index t :
  List.NoDup (map rowKey t) ->
  List.NoDup (map rowKey (Cmd_insert_entry tag value index t))
  /\ In (mkRow tag value index) (Cmd_insert_entry tag value index t)
  /\ (forall r, In r (Cmd_insert_entry tag value index t) ->
                rowKey r = (value, tag) -> r_index r = index)
  /\ (forall r, rowKey r <> (value, tag) ->
                (In r (Cmd_insert_entry tag value index t) <-> In r t)).
Proof.
  induction t as [|r0 t IH]; intros Hnd.
  - cbn. split; [repeat constructor; tauto |]. split; [now left |].
    split; [intros r [<- | []] _; reflexivity |].
    intros r Hne. split; [|tauto]. intros [<- | []]. now elim Hne.
  - cbn [map] in Hnd. inversion Hnd as [|? ? Hnotin Hnd']; subst.
    destruct (IH Hnd') as (IH1 & IH2 & IH3 & IH4).
    cbn [Cmd_insert_entry].
    destruct (sameKey tag value r0) eqn:Hk.
    + apply sameKey_true in Hk. cbn [map In].
      split; [|split; [now left | split]].
      * constructor; [|assumption].
        change (rowKey (mkRow tag value index)) with (value, tag).
        now rewrite <- Hk.
      * intros r [<- | Hr] Hkey; [reflexivity |].
        exfalso. apply Hnotin. rewrite Hk, <- Hkey. now apply in_map.
      * intros r Hne. split; (intros [<- | Hr]; [|now right]).
        -- now elim Hne.
        -- congruence.
    + assert (Hne0 : rowKey r0 <> (value, tag)).
      { intros Heq. apply sameKey_true in Heq. congruence. }
      cbn [map In]. split; [|split; [now right | split]].
      * constructor; [|assumption]. intros Hin. apply Hnotin.
        apply in_map_iff in Hin as (r & Hr & Hin).
        assert (Hner : rowKey r <> (value, tag)) by congruence.
        apply (IH4 r Hner) in Hin. rewrite <- Hr. now apply in_map.
      * intros r [<- | Hr] Hkey; [contradiction | now apply IH3].
      * intros r Hne. rewrite (IH4 r Hne). tauto.
Qed.

End StorageRows.

Section MockRows.
Import mock.

Lemma pairOf_same ei e :
  String.eqb (Tag ei) (Tag e) && String.eqb (Value ei) (Value e) = true
  <-> pairOf ei = pairOf e.
Proof.
  unfold pairOf. rewrite andb_true_iff, !String.eqb_eq.
  split; [intros [-> ->]; reflexivity | intros [= -> ->]; now split].
Qed.

(** The loop of the mock's [Set]: the entry of the pair gets the tag index,
    the pairs stay as they are. *)
Lemma Set_find_spec e l l' :
  Set_find e l = Some l' ->
  map pairOf l' = map pairOf l
  /\ In (pairOf e) (map pairOf l)
  /\ (List.NoDup (map pairOf l) ->
      forall x, In x l' -> pairOf x = pairOf e -> TagIndex x = TagIndex e).
Proof.
  revert l'. induction l as [|ei l IH]; intros l' Hf; [discriminate |].
  cbn [Set_find] in Hf.
  destruct (String.eqb (Tag ei) (Tag e) && String.eqb (Value ei) (Value e))
    eqn:Hk.
  - injection Hf as <-. apply pairOf_same in Hk.
    split; [reflexivity |]. split; [left; exact Hk |].
    intros Hnd x [<- | Hx] Hp; [reflexivity |].
    cbn [map] in Hnd. inversion Hnd as [|? ? Hnotin _]; subst.
    exfalso. apply Hnotin. rewrite Hk, <- Hp. now apply in_map.
  - destruct (Set_find e l) as [l0|] eqn:Hl; [|discriminate].
    injection Hf as <-. destruct (IH l0 eq_refl) as (I1 & I2 & I3).
    cbn [map]. split; [now rewrite I1 |]. split; [now right |].
    intros Hnd x [<- | Hx] Hp.
    + apply pairOf_same in Hp. congruence.
    + inversion Hnd; subst. now apply I3.
Qed.

Lemma Set_find_none e l :
  Set_find e l = None -> ~ In (pairOf e) (map pairOf l).
Proof.
  induction l as [|ei l IH]; intros Hf; [tauto |]. cbn [Set_find] in Hf.
  destruct (String.eqb (Tag ei) (Tag e) && String.eqb (Value ei) (Value e))
    eqn:Hk; [discriminate |].
  destruct (Set_find e l); [discriminate |].
  intros [Heq | Hin]; [|now apply IH].
  apply pairOf_same in Heq. congruence.
Qed.

(** After the mock's [Set] the pairs are distinct, and when it did not fail
    the pair of [e] is there, with the tag index of [e]. *)
Lemma mock_Set_spec (s : mockStorage) (e : Entry) res s' :
  List.NoDup (map pairOf (entries s)) ->
  Set_ s e = (res, s') ->
  List.NoDup (map pairOf (entries s'))
  /\ (res = None ->
      In (pairOf e) (map pairOf (entries s'))
      /\ forall x, In x (entries s') -> pairOf x = pairOf e ->
                   TagIndex x = TagIndex e).
Proof.
  intros Hnd. unfold Set_. destruct (failNext s).
  - intros [= <- <-]. split; [exact Hnd | discriminate].
  - destruct (Set_find e (entries s)) as [l'|] eqn:Hf; intros [= <- <-];
      cbn [entries].
    + destruct (Set_find_spec e _ _ Hf) as (F1 & F2 & F3).
      split; [now rewrite F1 |]. intros _.
      split; [now rewrite F1 | now apply F3].
    + apply Set_find_none in Hf. rewrite map_app. cbn [map].
      split; [now apply NoDup_snoc |]. intros _.
      split; [apply in_app_iff; right; now left |].
      intros x Hx Hp. apply in_app_iff in Hx as [Hx | [<- | []]];
        [|reflexivity].
      exfalso. apply Hf. rewrite <- Hp. now apply in_map.
Qed.

End MockRows.

Section UniquePairs.
Context `{K : Keyval} {KL : KeyvalLaws K}.
Context {C : Type} `{F : Forget C} {FL : ForgetLaws F}.
Import sqlstorage.

(** The list a later read of the tag decodes, when [l] was written. *)
Definition reread (tag : string) (l : list Entry) : list Entry :=
  map (fun x => newEntry (Value x) tag (TagIndex x)) l.

Lemma cached_after_write c tag l :
  forget_Get c tag = Some (encode l) ->
  Forall (fun x => GoInt.is_int (TagIndex x) /\ kv_wf (kvOf x)) l ->
  cached c tag = inr (reread tag l).
Proof.
  intros Hg Hwf. unfold cached. rewrite Hg. now apply readAll_encode.
Qed.

(** C9: the record list [l] cached for the tag of [e] has distinct values
    and the table of the storage has distinct (value, tag) pairs.
    - [cache.Set]'s closure leaves distinct values, among them the value
      of [e], with the tag index of [e]; it keeps the values of the list
      as they are when the value is among them, and appends [e]
      otherwise.  When [Set] succeeds the item of the tag is the encoding
      of that list, which a later read decodes with the same values and
      tag indices.
    - [cache.Remove]'s closure leaves distinct values, and when [Remove]
      succeeds the item of the tag is the encoding of what it leaves.
    - After the storage's [Set] the pairs of the table are distinct and
      the row of (value, tag) has the tag index of [e]; after [Remove] and
      [Delete] they are distinct.  The same holds of [Set] of the storage
      the tests use. *)
Theorem unique_pairs_preserved (c : C) (e : Entry) (l : list Entry)
    (s : db) (m : mock.mockStorage) :
  cached c (Tag e) = inr l ->
  List.NoDup (map Value l) ->
  uniqueRows s ->
  List.NoDup (map pairOf (mock.entries m)) ->
  (List.NoDup (map Value (cache_Set_op e l))
   /\ In (Value e) (map Value (cache_Set_op e l))
   /\ (forall x, In x (cache_Set_op e l) -> Value x = Value e ->
                 TagIndex x = TagIndex e)
   /\ (In (Value e) (map Value l) ->
       map Value (cache_Set_op e l) = map Value l)
   /\ (~ In (Value e) (map Value l) -> cache_Set_op e l = l ++ [e])
   /\ (forall c', cache_Set c e = (None, c') ->
         forget_Get c' (Tag e) = Some (encode (cache_Set_op e l))
         /\ (Forall (fun x => GoInt.is_int (TagIndex x) /\ kv_wf (kvOf x))
               (cache_Set_op e l) ->
             cached c' (Tag e) = inr (reread (Tag e) (cache_Set_op e l)))))
  /\ (List.NoDup (map Value (cache_Remove_op e l))
      /\ ~ In (Value e) (map Value (cache_Remove_op e l))
      /\ (forall c', cache_Remove c e = (None, c') ->
            forget_Get c' (Tag e) = Some (encode (cache_Remove_op e l))))
  /\ (forall res s', Set_ s e = (res, s') ->
        uniqueRows s'
        /\ (res = None ->
            In (mkRow (Tag e) (Value e) (TagIndex e)) (rows s')
            /\ forall r, In r (rows s') -> rowKey r = (Value e, Tag e) ->
                         r_index r = TagIndex e))
  /\ (forall res s', Remove s e = (res, s') -> uniqueRows s')
  /\ (forall res tag s', Delete s tag = (res, s') -> uniqueRows s')
  /\ (forall res m', mock.Set_ m e = (res, m') ->
        List.NoDup (map pairOf (mock.entries m'))
        /\ (res = None ->
            In (pairOf e) (map pairOf (mock.entries m'))
            /\ forall x, In x (mock.entries m') -> pairOf x = pairOf e ->
                         TagIndex x = TagIndex e)).
Proof.
  intros Hl Hnd Hrows Hmock.
  destruct (cache_Set_op_spec e l Hnd) as (S1 & S2 & S3 & _ & S5 & S6).
  destruct (cache_Remove_op_spec e l Hnd) as (R1 & R2 & _).
  split; [|split; [|split; [|split; [|split]]]];
    [| | | | | intros res m' Hm; now apply (mock_Set_spec m e res m')].
  - split; [exact S1 |]. split; [exact S2 |]. split; [exact S3 |].
    split; [exact S5 |]. split; [exact S6 |].
    intros c' Hset.
    assert (Hw : forget_Get c' (Tag e) = Some (encode (cache_Set_op e l)))
      by (eapply withTagEntries_written; eassumption).
    split; [exact Hw |]. intros Hwf. now apply cached_after_write.
  - split; [exact R1 |]. split; [exact R2 |].
    intros c' Hrem. eapply withTagEntries_written; eassumption.
  - intros res s'. unfold Set_, Exec.
    destruct (fault s) as [err|]; intros [= <- <-].
    + split; [exact Hrows | discriminate].
    + destruct (Cmd_insert_entry_spec (Tag e) (Value e) (TagIndex e)
                  (rows s) Hrows) as (I1 & I2 & I3 & _).
      split; [exact I1 |]. intros _. split; [exact I2 | exact I3].
  - intros res s'. unfold Remove, Exec.
    destruct (fault s) as [err|]; intros [= <- <-]; [exact Hrows |].
    unfold uniqueRows, Cmd_delete_entry. cbn [rows].
    now apply NoDup_map_filter.
  - intros res tag s'. unfold Delete, Exec.
    destruct (fault s) as [err|]; intros [= <- <-]; [exact Hrows |].
    unfold uniqueRows, Cmd_delete_tag. cbn [rows].
    now apply NoDup_map_filter.
Qed.

End UniquePairs.

(** * Further properties

    Properties of the functions around those above: the order [Less]
    defines, what [setRequestIndex] and [uniqueValues] keep, when [readAll]
    and [writeAll] succeed, how the operations of the cache and of the stash
    compose, the storage of the tests, and the making of a stash. *)

(** ** [entrySort.Less] *)

Lemma Less_true_iff a b :
  Less a b = true
  <-> requestTagMatch a > requestTagMatch b
      \/ (requestTagMatch a = requestTagMatch b
          /\ requestIndexDelta a < requestIndexDelta b).
Proof.
  unfold Less.
  destruct (Z.eqb_spec (requestTagMatch a) (requestTagMatch b)) as [Heq | Hne].
  - rewrite Z.ltb_lt. lia.
  - rewrite Z.gtb_ltb, Z.ltb_lt. lia.
Qed.

Lemma Less_false_cases a b :
  Less a b = false
  <-> requestTagMatch a < requestTagMatch b
      \/ (requestTagMatch a = requestTagMatch b
          /\ requestIndexDelta b <= requestIndexDelta a).
Proof. rewrite Less_false_iff. unfold ranksBefore. lia. Qed.

(** [Less] is a strict weak order, which [sort.Sort] needs to sort: no
    entry is [Less] than itself, [Less] is transitive, and the entries that
    are not [Less] either way are those with the same match count and the
    same delta, so that being tied is transitive too. *)
Theorem Less_strict_weak_order :
  (forall a, Less a a = false)
  /\ (forall a b, Less a b = true -> Less b a = false)
  /\ (forall a b c, Less a b = true -> Less b c = true -> Less a c = true)
  /\ (forall a b,
        Less a b = false /\ Less b a = false <-> rankKey a = rankKey b)
  /\ (forall a b c,
        Less a b = false -> Less b a = false ->
        Less b c = false -> Less c b = false ->
        Less a c = false /\ Less c a = false).
Proof.
  split; [|split; [|split; [|split]]].
  - intros a. apply Less_false_cases. lia.
  - intros a b Hab. apply Less_true_iff in Hab. apply Less_false_cases. lia.
  - intros a b c Hab Hbc. apply Less_true_iff in Hab, Hbc.
    apply Less_true_iff. lia.
  - intros a b. rewrite !Less_false_cases. unfold rankKey. split.
    + intros [H1 H2]. f_equal; lia.
    + intros [= H1 H2]. lia.
  - intros a b c Hab Hba Hbc Hcb.
    apply Less_false_cases in Hab, Hba, Hbc, Hcb.
    rewrite !Less_false_cases. lia.
Qed.

(** ** The delta of one entry *)

(** [setRequestIndex] takes the absolute value of the difference between
    position and tag index by negating a negative difference, in [int].
    The result is the absolute value of the (wrapped) difference, except
    for the one difference that has no negation in [int]: the smallest
    [int] stays as it is, and only then is the delta negative.  A tag index
    that is the smallest [int], at position 0, is such a case. *)
Theorem indexDelta_overflow (i k : Z) :
  (GoInt.sub i k <> GoInt.min_int -> indexDelta i k = Z.abs (GoInt.sub i k))
  /\ (GoInt.sub i k = GoInt.min_int -> indexDelta i k = GoInt.min_int)
  /\ (indexDelta i k < 0 <-> GoInt.sub i k = GoInt.min_int)
  /\ indexDelta 0 GoInt.min_int = GoInt.min_int.
Proof.
  assert (Hmin : indexDelta 0 GoInt.min_int = GoInt.min_int)
    by (vm_compute; reflexivity).
  assert (Hd : GoInt.is_int (GoInt.sub i k)) by apply GoIntFacts.wrap_is_int.
  unfold indexDelta. set (d := GoInt.sub i k) in *.
  unfold GoInt.is_int, GoInt.min_int, GoInt.max_int in *.
  assert (Hneg : d = - 2 ^ 63 -> GoInt.sub 0 d = - 2 ^ 63).
  { intros ->. vm_compute. reflexivity. }
  assert (Hpos : d <> - 2 ^ 63 -> GoInt.sub 0 d = - d).
  { intros Hne. unfold GoInt.sub. apply GoIntFacts.wrap_id.
    unfold GoInt.is_int, GoInt.min_int, GoInt.max_int. lia. }
  split; [|split; [|split; [|exact Hmin]]].
  - intros Hne. destruct (Z.ltb_spec d 0); [rewrite Hpos by assumption |]; lia.
  - intros Heq. destruct (Z.ltb_spec d 0); [now apply Hneg | lia].
  - destruct (Z.ltb_spec d 0) as [Hlt | Hge]; [|lia].
    destruct (Z.eq_dec d (- 2 ^ 63)) as [Heq | Hne].
    + rewrite (Hneg Heq). lia.
    + rewrite (Hpos Hne). lia.
Qed.

(** ** [setRequestIndex]: the tags not found *)

Lemma hasTag_true t e : hasTag t e = true <-> exists x, In x e /\ Tag x = t.
Proof.
  unfold hasTag. rewrite existsb_exists.
  split; intros (x & Hx & Ht); exists x; (split; [assumption |]);
    now apply String.eqb_eq.
Qed.

Lemma annotate_keeps i tags e :
  content (annotate i tags e) = content e
  /\ requestTagMatch (annotate i tags e) = requestTagMatch e.
Proof. unfold annotate. now destruct (lastPos i tags (Tag e)). Qed.

Lemma annotate_unqueried i tags e : ~ In (Tag e) tags -> annotate i tags e = e.
Proof. intros Hno. unfold annotate. now rewrite lastPos_absent. Qed.

(** [setRequestIndex] returns the query tags that no entry carries, in the
    order of the query and as often as the query names them.  It leaves
    every entry in its place with its value, tag, tag index and match
    count, and does not touch an entry whose tag is not in the query. *)
Theorem setRequestIndex_notFound (tags : list string) (e : list Entry) :
  fst (setRequestIndex tags e) = List.filter (fun t => negb (hasTag t e)) tags
  /\ (forall t, In t (fst (setRequestIndex tags e))
                <-> In t tags /\ forall x, In x e -> Tag x <> t)
  /\ map content (snd (setRequestIndex tags e)) = map content e
  /\ map requestTagMatch (snd (setRequestIndex tags e))
     = map requestTagMatch e
  /\ (forall (k : nat) x, e !! k = Some x -> ~ In (Tag x) tags ->
        snd (setRequestIndex tags e) !! k = Some x).
Proof.
  rewrite setRequestIndex_spec. cbn [fst snd].
  split; [reflexivity |]. split; [|split; [|split]].
  - intros t. rewrite filter_In, negb_true_iff.
    assert (Hh : hasTag t e = false <-> forall x, In x e -> Tag x <> t).
    { rewrite <- not_true_iff_false, hasTag_true. split.
      - intros Hno x Hx Ht. apply Hno. eauto.
      - intros Hall (x & Hx & Ht). now apply (Hall x). }
    now rewrite Hh.
  - rewrite map_map. apply map_ext. intros x. apply annotate_keeps.
  - rewrite map_map. apply map_ext. intros x. apply annotate_keeps.
  - intros k x Hk Hno.
    change (map (annotate 0 tags) e) with (annotate 0 tags <$> e).
    rewrite list_lookup_fmap, Hk. cbn. f_equal.
    now apply annotate_unqueried.
Qed.

(** ** [uniqueValues]: which entry stays, and where *)

(** The values of [l] that are not in [seen], each once, in the order in
    which they first come. *)
Fixpoint firstSeen (seen l : list string) : list string :=
  match l with
  | [] => []
  | v :: l' =>
      if existsb (String.eqb v) seen then firstSeen seen l'
      else v :: firstSeen (seen ++ [v]) l'
  end.

Lemma existsb_sameValue_map v u :
  existsb (sameValue v) u = existsb (String.eqb v) (map Value u).
Proof.
  induction u as [|x u IH]; [reflexivity |]. cbn [existsb map].
  unfold sameValue at 1. now rewrite IH, String.eqb_sym.
Qed.

Lemma content_bump ei x : content (bump ei x) = content x.
Proof. unfold bump. now destruct (sameValue (Value ei) x). Qed.

Lemma dedup_order e : forall u,
  map Value (dedup e u)
  = map Value u ++ firstSeen (map Value u) (map Value e).
Proof.
  induction e as [|ei rest IH]; intros u; cbn [dedup map firstSeen].
  - now rewrite app_nil_r.
  - rewrite existsb_sameValue_map.
    destruct (existsb (String.eqb (Value ei)) (map Value u)).
    + now rewrite IH, map_Value_bump.
    + rewrite IH, map_app. cbn [map Value withTagMatch].
      now rewrite <- app_assoc.
Qed.

Lemma dedup_survivors e : forall u r,
  In r (dedup e u) ->
  (exists x, In x u /\ content r = content x)
  \/ (~ In (Value r) (map Value u)
      /\ exists x, List.find (sameValue (Value r)) e = Some x
                   /\ content r = content x).
Proof.
  induction e as [|ei rest IH]; intros u r Hr; cbn [dedup] in Hr.
  - left. eauto.
  - destruct (existsb (sameValue (Value ei)) u) eqn:Hex.
    + apply existsb_sameValue in Hex.
      destruct (IH _ _ Hr) as [(x' & Hx' & Hc) | (Hnew & x & Hf & Hc)].
      * apply in_map_iff in Hx' as (x & <- & Hx). left. exists x.
        split; [assumption |]. now rewrite Hc, content_bump.
      * rewrite map_Value_bump in Hnew. right. split; [assumption |].
        exists x. split; [|assumption]. cbn [List.find].
        assert (Hs : sameValue (Value r) ei = false).
        { apply sameValue_false. intros Heq. apply Hnew. now rewrite <- Heq. }
        now rewrite Hs.
    + assert (Hfresh : ~ In (Value ei) (map Value u)).
      { intros Hin. apply existsb_sameValue in Hin. congruence. }
      destruct (IH _ _ Hr) as [(x' & Hx' & Hc) | (Hnew & x & Hf & Hc)].
      * apply in_app_iff in Hx' as [Hx' | [<- | []]]; [left; eauto |].
        assert (Hv : Value r = Value ei) by (injection Hc; auto).
        right. split; [now rewrite Hv |]. exists ei. split; [|exact Hc].
        cbn [List.find].
        assert (Hs : sameValue (Value r) ei = true)
          by (apply sameValue_true; congruence).
        now rewrite Hs.
      * rewrite map_app, in_app_iff in Hnew. cbn in Hnew. right.
        split; [tauto |]. exists x. split; [|assumption]. cbn [List.find].
        assert (Hs : sameValue (Value r) ei = false).
        { apply sameValue_false. intros Heq. apply Hnew. auto. }
        now rewrite Hs.
Qed.

(** [uniqueValues] returns the values in the order in which they first come
    in its argument, and the entry it returns for a value is the first one
    with that value: it has that entry's tag and tag index. *)
Theorem uniqueValues_first_occurrence (e : list Entry) :
  map Value (uniqueValues e) = firstSeen [] (map Value e)
  /\ forall r, In r (uniqueValues e) ->
       exists x, List.find (sameValue (Value r)) e = Some x
                 /\ content r = content x.
Proof.
  rewrite uniqueValues_dedup. split.
  - now rewrite dedup_order.
  - intros r Hr.
    destruct (dedup_survivors e [] r Hr) as [(x & [] & _) | (_ & Hx)].
    exact Hx.
Qed.

(** ** [uniqueValues]: the counters add up *)

Definition sumMatch (l : list Entry) : Z :=
  fold_right Z.add 0 (map requestTagMatch l).

Definition sumDelta (l : list Entry) : Z :=
  fold_right Z.add 0 (map requestIndexDelta l).

Lemma map_bump_absent ei u :
  ~ In (Value ei) (map Value u) -> map (bump ei) u = u.
Proof.
  induction u as [|x u IH]; intros Hno; [reflexivity |]. cbn [map].
  rewrite IH by (intros Hin; apply Hno; now right). f_equal.
  unfold bump.
  assert (Hs : sameValue (Value ei) x = false).
  { apply sameValue_false. intros Heq. apply Hno. now left. }
  now rewrite Hs.
Qed.

Lemma sums_nonneg u :
  (forall x, In x u -> 1 <= requestTagMatch x /\ 0 <= requestIndexDelta x) ->
  0 <= sumMatch u /\ 0 <= sumDelta u.
Proof.
  unfold sumMatch, sumDelta. induction u as [|x u IH]; intros Hu; cbn; [lia |].
  destruct (Hu x (or_introl eq_refl)).
  destruct IH; [intros; apply Hu; now right |]. lia.
Qed.

(** One more entry with a value that is in [u]: its entry counts one more
    and takes the delta, when that stays within [int]. *)
Lemma sums_bump ei u :
  List.NoDup (map Value u) ->
  In (Value ei) (map Value u) ->
  (forall x, In x u -> 1 <= requestTagMatch x /\ 0 <= requestIndexDelta x) ->
  0 <= requestIndexDelta ei ->
  sumMatch u + 1 <= GoInt.max_int ->
  sumDelta u + requestIndexDelta ei <= GoInt.max_int ->
  sumMatch (map (bump ei) u) = sumMatch u + 1
  /\ sumDelta (map (bump ei) u) = sumDelta u + requestIndexDelta ei
  /\ forall x, In x (map (bump ei) u) ->
       1 <= requestTagMatch x /\ 0 <= requestIndexDelta x.
Proof.
  induction u as [|x u IH]; intros Hnd Hin Hu Hei Hm Hd; [destruct Hin |].
  cbn [map] in Hnd. inversion Hnd as [|? ? Hx Hnd']; subst.
  destruct (Hu x (or_introl eq_refl)) as [Hx1 Hx2].
  destruct (sums_nonneg u) as [Hs1 Hs2]; [intros; apply Hu; now right |].
  unfold sumMatch, sumDelta in *. cbn [map fold_right] in *.
  unfold bump at 1 3 5.
  destruct (sameValue (Value ei) x) eqn:Hs.
  - apply sameValue_true in Hs. rewrite Hs in Hx.
    rewrite (map_bump_absent ei u Hx).
    cbn [countMatch requestTagMatch requestIndexDelta]. unfold GoInt.add.
    rewrite !GoIntFacts.wrap_id
      by (unfold GoInt.is_int, GoInt.min_int, GoInt.max_int in *; lia).
    split; [lia |]. split; [lia |].
    intros y [<- | Hy]; [|apply Hu; now right].
    cbn [countMatch requestTagMatch requestIndexDelta]. unfold GoInt.add.
    rewrite !GoIntFacts.wrap_id
      by (unfold GoInt.is_int, GoInt.min_int, GoInt.max_int in *; lia).
    lia.
  - apply sameValue_false in Hs.
    destruct Hin as [Heq | Hin]; [congruence |].
    destruct IH as (I1 & I2 & I3); try assumption; try lia.
    { intros; apply Hu; now right. }
    split; [lia |]. split; [lia |].
    intros y [<- | Hy]; [now apply Hu; left | now apply I3].
Qed.

Lemma dedup_totals e : forall u,
  List.NoDup (map Value u) ->
  (forall x, In x u -> 1 <= requestTagMatch x /\ 0 <= requestIndexDelta x) ->
  (forall x, In x e -> 0 <= requestIndexDelta x) ->
  sumMatch u + Z.of_nat (length e) <= GoInt.max_int ->
  sumDelta u + sumDelta e <= GoInt.max_int ->
  sumMatch (dedup e u) = sumMatch u + Z.of_nat (length e)
  /\ sumDelta (dedup e u) = sumDelta u + sumDelta e.
Proof.
  induction e as [|ei rest IH]; intros u Hnd Hu He Hm Hd.
  - unfold sumMatch, sumDelta. cbn. lia.
  - assert (Hei : 0 <= requestIndexDelta ei) by (apply He; now left).
    assert (Hrest : forall x, In x rest -> 0 <= requestIndexDelta x)
      by (intros; apply He; now right).
    assert (Hsr : 0 <= sumDelta rest).
    { clear - Hrest. unfold sumDelta.
      induction rest as [|y rest IH]; cbn; [lia |].
      pose proof (Hrest y (or_introl eq_refl)).
      assert (0 <= fold_right Z.add 0 (map requestIndexDelta rest))
        by (apply IH; intros; apply Hrest; now right).
      lia. }
    assert (Hde : sumDelta (ei :: rest) = requestIndexDelta ei + sumDelta rest)
      by reflexivity.
    rewrite Hde in *. cbn [length] in *. rewrite Nat2Z.inj_succ in *.
    cbn [dedup]. destruct (existsb (sameValue (Value ei)) u) eqn:Hex.
    + apply existsb_sameValue in Hex.
      destruct (sums_bump ei u) as (B1 & B2 & B3); try assumption; try lia.
      destruct (IH (map (bump ei) u)) as [I1 I2];
        [now rewrite map_Value_bump | exact B3 | exact Hrest | lia | lia |].
      lia.
    + assert (Hfresh : ~ In (Value ei) (map Value u)).
      { intros Hin. apply existsb_sameValue in Hin. congruence. }
      assert (B1 : sumMatch (u ++ [withTagMatch ei 1]) = sumMatch u + 1).
      { unfold sumMatch. rewrite map_app, fold_right_app. cbn.
        generalize (map requestTagMatch u). intros zs.
        induction zs as [|z zs IHz]; cbn; lia. }
      assert (B2 : sumDelta (u ++ [withTagMatch ei 1])
                   = sumDelta u + requestIndexDelta ei).
      { unfold sumDelta. rewrite map_app, fold_right_app. cbn.
        generalize (map requestIndexDelta u). intros zs.
        induction zs as [|z zs IHz]; cbn; lia. }
      destruct (IH (u ++ [withTagMatch ei 1])) as [I1 I2];
        [| | exact Hrest | lia | lia |].
      { rewrite map_app. cbn. now apply NoDup_snoc. }
      { intros x Hx. apply in_app_iff in Hx as [Hx | [<- | []]];
          [now apply Hu | cbn; lia]. }
      lia.
Qed.

(** The counters of a list of entries add up. *)
Lemma uniqueValues_list_totals (e : list Entry) :
  Z.of_nat (length e) <= GoInt.max_int ->
  (forall x, In x e -> 0 <= requestIndexDelta x) ->
  sumDelta e <= GoInt.max_int ->
  sumMatch (uniqueValues e) = Z.of_nat (length e)
  /\ sumDelta (uniqueValues e) = sumDelta e.
Proof.
  intros Hlen Hpos Hsum. rewrite uniqueValues_dedup.
  change (sumDelta e) with (sumDelta [] + sumDelta e) in Hsum.
  destruct (dedup_totals e []) as [H1 H2];
    [constructor | intros x [] | exact Hpos | | exact Hsum |].
  - change (sumMatch []) with 0. lia.
  - change (sumMatch []) with 0 in H1. change (sumDelta []) with 0 in H2.
    split; lia.
Qed.

(** ** [uniqueValues] and the pointers *)

(** [m] maps a value to the pointer that [ml] gives the place of in [u]. *)
Definition linked (m ml : gmap string nat) (u : list nat) : Prop :=
  forall v,
    (m !! v = None /\ ml !! v = None)
    \/ exists k q, ml !! v = Some k /\ u !! k = Some q /\ m !! v = Some q.

Lemma pointees_alter_other f q h ps :
  ~ In q ps -> pointees (alter f q h) ps = pointees h ps.
Proof.
  intros Hq. unfold pointees. apply map_ext_in. intros p Hp.
  apply list_lookup_total_alter_ne. intros ->. contradiction.
Qed.

Lemma pointees_alter_at f (q k : nat) h u :
  (q < length h)%nat -> List.NoDup u -> u !! k = Some q ->
  pointees (alter f q h) u = alter f k (pointees h u).
Proof.
  intros Hq Hnd Hk. apply NoDup_ListNoDup in Hnd. unfold pointees.
  apply list_eq. intros j.
  change (map (fun p => alter f q h !!! p) u)
    with ((fun p => alter f q h !!! p) <$> u).
  change (map (fun p => h !!! p) u) with ((fun p => h !!! p) <$> u).
  rewrite list_lookup_fmap.
  destruct (decide (k = j)) as [<- | Hne].
  - rewrite list_lookup_alter_eq, list_lookup_fmap, Hk. cbn.
    now rewrite list_lookup_total_alter_eq.
  - rewrite list_lookup_alter_ne, list_lookup_fmap by assumption.
    destruct (u !! j) as [p|] eqn:Hj; [|reflexivity]. cbn. f_equal.
    apply list_lookup_total_alter_ne. intros ->.
    apply Hne. exact (NoDup_lookup u k j _ Hnd Hk Hj).
Qed.

(** On a slice that holds no pointer twice, the writes through the pointers
    are the updates of the list of entries. *)
Lemma uniqueValues_at_loop_list e : forall m u h ml,
  (forall p, In p (u ++ e) -> (p < length h)%nat) ->
  List.NoDup (u ++ e) ->
  linked m ml u ->
  pointees (snd (uniqueValues_at_loop e m u h))
    (fst (uniqueValues_at_loop e m u h))
  = uniqueValues_loop (pointees h e) ml (pointees h u).
Proof.
  induction e as [|p rest IH]; intros m u h ml Hvalid Hnd Hlink;
    [reflexivity |].
  assert (Hp : (p < length h)%nat).
  { apply Hvalid. apply in_app_iff. right. now left. }
  assert (Hnd' : List.NoDup (u ++ rest)) by now apply NoDup_remove_1 in Hnd.
  assert (Hpnew : ~ In p (u ++ rest)) by now apply NoDup_remove_2 in Hnd.
  assert (Hpu : ~ In p u) by (intros H; apply Hpnew, in_app_iff; now left).
  assert (Hprest : ~ In p rest)
    by (intros H; apply Hpnew, in_app_iff; now right).
  cbn [uniqueValues_at_loop pointees map uniqueValues_loop].
  fold (pointees h rest). fold (pointees h u).
  destruct (Hlink (Value (h !!! p))) as [[Hm Hml] | (k & q & Hml & Hk & Hm)];
    rewrite Hm, Hml.
  - set (h1 := alter (fun x => withTagMatch x 1) p h).
    rewrite (IH (<[Value (h !!! p) := p]> m) (u ++ [p]) h1
               (<[Value (h !!! p) := length (pointees h u)]> ml)).
    + assert (Hsnoc : pointees h1 (u ++ [p])
                      = pointees h u ++ [withTagMatch (h !!! p) 1]).
      { unfold pointees at 1. rewrite map_app. fold (pointees h1 u).
        cbn [map]. unfold h1. rewrite pointees_alter_other by assumption.
        now rewrite list_lookup_total_alter_eq. }
      rewrite Hsnoc. unfold h1.
      now rewrite pointees_alter_other by assumption.
    + intros p' Hp'. unfold h1. rewrite length_alter. apply Hvalid.
      rewrite <- app_assoc in Hp'. exact Hp'.
    + now rewrite <- app_assoc.
    + intros v. destruct (decide (v = Value (h !!! p))) as [-> | Hv].
      * right. exists (length u), p. rewrite !lookup_insert_eq.
        unfold pointees. rewrite length_map.
        split; [reflexivity |]. split; [|reflexivity].
        rewrite lookup_app_r by lia. now rewrite Nat.sub_diag.
      * rewrite !lookup_insert_ne by congruence.
        destruct (Hlink v) as [Hnone | (k & q & H1 & H2 & H3)];
          [now left | right].
        exists k, q. split; [assumption |]. split; [|assumption].
        now apply lookup_app_l_Some.
  - assert (Hq : In q u).
    { apply list_elem_of_In. now apply list_elem_of_lookup_2 in Hk. }
    assert (Hqp : q <> p) by (intros ->; contradiction).
    assert (Hqv : (q < length h)%nat).
    { apply Hvalid. apply in_app_iff. now left. }
    assert (Hqrest : ~ In q rest).
    { intros Hin. apply NoDup_remove_1 in Hnd.
      revert Hq Hin. clear - Hnd. induction u as [|a u IHu]; [tauto |].
      cbn [app] in Hnd. inversion Hnd as [|? ? Ha Hnd']; subst.
      intros [-> | Hq] Hin; [|now apply IHu].
      apply Ha. apply in_app_iff. now right. }
    set (f := fun x => withTagMatch x (GoInt.add (requestTagMatch x) 1)).
    set (h1 := alter f q h).
    assert (Hread : h1 !!! p = h !!! p)
      by (unfold h1; now apply list_lookup_total_alter_ne).
    rewrite Hread.
    set (g := fun x =>
                withIndexDelta x
                  (GoInt.add (requestIndexDelta x)
                     (requestIndexDelta (h !!! p)))).
    set (h2 := alter g q h1).
    rewrite (IH m u h2 ml).
    + unfold h2, h1. rewrite !pointees_alter_other by assumption.
      assert (Hu : List.NoDup u) by now apply NoDup_app_remove_r in Hnd'.
      rewrite (pointees_alter_at g q k) by
        (try rewrite length_alter; assumption).
      rewrite (pointees_alter_at f q k) by assumption.
      rewrite list_alter_alter_eq. reflexivity.
    + intros p' Hp'. unfold h2, h1. rewrite !length_alter. apply Hvalid.
      apply in_app_iff in Hp' as [Hp' | Hp']; apply in_app_iff;
        [now left | right; now right].
    + assumption.
    + assumption.
Qed.

Lemma uniqueValues_at_list (h : list Entry) (ps : list nat) :
  (forall p, In p ps -> (p < length h)%nat) ->
  List.NoDup ps ->
  pointees (snd (uniqueValues_at h ps)) (fst (uniqueValues_at h ps))
  = uniqueValues (pointees h ps).
Proof.
  intros Hvalid Hnd. unfold uniqueValues_at, uniqueValues.
  apply (uniqueValues_at_loop_list ps ∅ [] h ∅); [assumption ..|].
  intros v. left. split; apply lookup_empty.
Qed.

(** One turn of the loop on a pointer that is new, and on a pointer that
    the map already has for its own value. *)
Lemma uniqueValues_at_loop_new p rest m u h :
  m !! Value (h !!! p) = None ->
  uniqueValues_at_loop (p :: rest) m u h
  = uniqueValues_at_loop rest (<[Value (h !!! p) := p]> m) (u ++ [p])
      (alter (fun x => withTagMatch x 1) p h).
Proof. intros Hm. cbn [uniqueValues_at_loop]. now rewrite Hm. Qed.

Lemma uniqueValues_at_loop_again p rest m u h :
  (p < length h)%nat ->
  m !! Value (h !!! p) = Some p ->
  uniqueValues_at_loop (p :: rest) m u h
  = uniqueValues_at_loop rest m u (alter (fun x => countMatch x x) p h).
Proof.
  intros Hp Hm. cbn [uniqueValues_at_loop]. rewrite Hm. cbv zeta. f_equal.
  rewrite list_lookup_total_alter_eq by assumption.
  rewrite list_alter_alter_eq. apply list_alter_ext; [|reflexivity].
  intros x Hx. now rewrite (list_lookup_total_correct h p x Hx).
Qed.

(** The same pointer three times. *)
Lemma uniqueValues_at_thrice (h : list Entry) (p : nat) :
  (p < length h)%nat ->
  uniqueValues_at h [p; p; p]
  = ([p],
     alter (fun x => mkEntry (Value x) (Tag x) (TagIndex x) 3
                       (GoInt.wrap (4 * requestIndexDelta x))) p h).
Proof.
  intros Hp. unfold uniqueValues_at.
  rewrite uniqueValues_at_loop_new by apply lookup_empty. cbn [app].
  rewrite uniqueValues_at_loop_again;
    [| now rewrite length_alter
     | rewrite list_lookup_total_alter_eq by assumption;
       apply lookup_insert_eq].
  rewrite list_alter_alter_eq.
  rewrite uniqueValues_at_loop_again;
    [| now rewrite length_alter
     | rewrite list_lookup_total_alter_eq by assumption;
       apply lookup_insert_eq].
  rewrite list_alter_alter_eq. cbn [uniqueValues_at_loop]. f_equal.
  apply list_alter_ext; [|reflexivity]. intros x _.
  unfold compose, countMatch, withTagMatch.
  cbn [Value Tag TagIndex requestTagMatch requestIndexDelta].
  f_equal. set (d := requestIndexDelta x).
  assert (Hadd : forall a b, GoInt.add a b = GoInt.wrap (a + b))
    by reflexivity.
  rewrite (Hadd d d), GoIntFacts.add_wrap_l.
  rewrite <- (Hadd (d + d) (GoInt.wrap (d + d))), GoIntFacts.add_wrap_r.
  f_equal. lia.
Qed.

(** [uniqueValues] writes through pointers.  On a slice that holds no
    pointer twice the entries it leaves are those of the list of entries
    the slice points to, updated in place.  On a slice that holds the same
    pointer three times the delta of the entry is added to itself twice, and
    comes out as its fourfold, where three equal entries give the
    threefold. *)
Theorem uniqueValues_pointers :
  (forall (h : list Entry) (ps : list nat),
      (forall p, In p ps -> (p < length h)%nat) ->
      List.NoDup ps ->
      pointees (snd (uniqueValues_at h ps)) (fst (uniqueValues_at h ps))
      = uniqueValues (pointees h ps))
  /\ (forall (h : list Entry) (p : nat),
        (p < length h)%nat ->
        pointees (snd (uniqueValues_at h [p; p; p]))
          (fst (uniqueValues_at h [p; p; p]))
        = [mkEntry (Value (h !!! p)) (Tag (h !!! p)) (TagIndex (h !!! p)) 3
             (GoInt.wrap (4 * requestIndexDelta (h !!! p)))]
        /\ uniqueValues (pointees h [p; p; p])
           = [mkEntry (Value (h !!! p)) (Tag (h !!! p)) (TagIndex (h !!! p)) 3
                (GoInt.wrap (3 * requestIndexDelta (h !!! p)))]).
Proof.
  split; [exact uniqueValues_at_list |].
  intros h p Hp. split.
  - rewrite uniqueValues_at_thrice by assumption. cbn [fst snd pointees map].
    now rewrite list_lookup_total_alter_eq.
  - rewrite uniqueValues_dedup. cbn [pointees map dedup existsb app].
    unfold sameValue. cbn [Value withTagMatch map bump]. unfold sameValue.
    cbn [Value withTagMatch countMatch]. rewrite !String.eqb_refl.
    cbn [orb map bump]. unfold bump, sameValue.
    cbn [Value countMatch withTagMatch]. rewrite !String.eqb_refl.
    cbn [countMatch Value Tag TagIndex requestTagMatch requestIndexDelta
         withTagMatch].
    cbn [orb]. unfold countMatch, withTagMatch.
    cbn [Value Tag TagIndex requestTagMatch requestIndexDelta].
    f_equal. f_equal. set (d := requestIndexDelta (h !!! p)).
    assert (Hadd : forall a b, GoInt.add a b = GoInt.wrap (a + b))
      by reflexivity.
    rewrite (Hadd d d), GoIntFacts.add_wrap_l. f_equal. lia.
Qed.

(** Every entry that goes into [uniqueValues] is counted once, when
    the slice holds no pointer twice: the match counts of the result add up
    to the number of entries, and the deltas of the result to the sum of
    the deltas that came in, when these sums are within [int] and no delta
    is negative. *)
Theorem uniqueValues_totals (h : list Entry) (ps : list nat) :
  (forall p, In p ps -> (p < length h)%nat) ->
  List.NoDup ps ->
  Z.of_nat (length ps) <= GoInt.max_int ->
  (forall x, In x (pointees h ps) -> 0 <= requestIndexDelta x) ->
  sumDelta (pointees h ps) <= GoInt.max_int ->
  sumMatch (pointees (snd (uniqueValues_at h ps)) (fst (uniqueValues_at h ps)))
  = Z.of_nat (length ps)
  /\ sumDelta (pointees (snd (uniqueValues_at h ps))
                 (fst (uniqueValues_at h ps)))
     = sumDelta (pointees h ps).
Proof.
  intros Hvalid Hnd Hlen Hpos Hsum.
  rewrite uniqueValues_at_list by assumption.
  assert (Hl : length (pointees h ps) = length ps)
    by (unfold pointees; apply length_map).
  rewrite <- Hl in *. now apply uniqueValues_list_totals.
Qed.

(** ** [Atoi] returns an [int] *)

Lemma ParseUint_loop_nonneg s : forall n r,
  0 <= n -> strconv.ParseUint_loop s n = inr r -> 0 <= r.
Proof.
  induction s as [|c s IH]; intros n r Hn; cbn [strconv.ParseUint_loop].
  - intros [= <-]. exact Hn.
  - unfold strconv.digit_of.
    destruct ((48 <=? Z.of_nat (nat_of_ascii c))
              && (Z.of_nat (nat_of_ascii c) <=? 57)) eqn:Hd; [|discriminate].
    apply andb_true_iff in Hd as [Hd1 Hd2].
    apply Z.leb_le in Hd1, Hd2.
    destruct (strconv.cutoff <=? n); [discriminate |].
    destruct (strconv.max_uint64 <? n * 10 + (Z.of_nat (nat_of_ascii c) - 48));
      [discriminate |].
    apply IH. lia.
Qed.

Lemma Atoi_is_int s n : strconv.Atoi s = inr n -> GoInt.is_int n.
Proof.
  unfold strconv.Atoi, strconv.ParseInt.
  destruct s as [|c s]; [discriminate |].
  set (body := if Ascii.eqb c "+" || Ascii.eqb c "-" then s else String c s).
  destruct (strconv.ParseUint body) as [[|] | un] eqn:Hu;
    [discriminate | discriminate |].
  assert (Hun : 0 <= un).
  { unfold strconv.ParseUint in Hu. destruct body; [discriminate |].
    now apply ParseUint_loop_nonneg in Hu. }
  unfold GoInt.is_int, GoInt.min_int, GoInt.max_int.
  destruct (Ascii.eqb c "-"); cbn [negb andb].
  - destruct (Z.ltb_spec (2 ^ 63) un); [discriminate |].
    intros [= <-]. lia.
  - destruct (Z.leb_spec (2 ^ 63) un); [discriminate |].
    intros [= <-]. lia.
Qed.

(** ** [readAll]: when it succeeds *)

Section ReadAllSuccess.
Context {K : Keyval}.

(** What is left of the reader is its end: nothing, or [io.EOF]. *)
Definition atEnd (rest : list ReadResult) : Prop :=
  rest = [] \/ exists rest', rest = ReadErr io_EOF :: rest'.

Lemma readAll_loop_atEnd rest tag acc :
  atEnd rest -> readAll_loop rest tag acc = inr acc.
Proof. intros [-> | [rest' ->]]; reflexivity. Qed.

Lemma readAll_loop_success rs : forall tag acc l,
  readAll_loop rs tag acc = inr l ->
  exists kvs rest,
    rs = map ReadOk kvs ++ rest /\ atEnd rest
    /\ Forall wellFormed kvs /\ l = acc ++ map (entryOf tag) kvs.
Proof.
  induction rs as [|[e | [|err]] rs IH]; intros tag acc l;
    cbn [readAll_loop].
  - intros [= <-]. exists [], []. cbn. rewrite app_nil_r.
    repeat split; [now left | constructor].
  - destruct (strconv.Atoi (Val e)) as [err | i] eqn:Hi; [discriminate |].
    destruct (Key e) as [|k [|k' ks]] eqn:Hk; try discriminate.
    intros Hl. apply IH in Hl as (kvs & rest & -> & Hend & Hwf & ->).
    exists (e :: kvs), rest. split; [reflexivity |]. split; [assumption |].
    split.
    + constructor; [|assumption]. split; eauto.
    + rewrite <- app_assoc. cbn [app map]. do 2 f_equal.
      unfold entryOf. now rewrite Hi, Hk.
  - intros [= <-]. exists [], (ReadErr io_EOF :: rs). cbn.
    rewrite app_nil_r. repeat split; [right; eauto | constructor].
  - discriminate.
Qed.

(** [readAll] returns a list exactly when every record the reader gives
    before its end is well formed; the list then has one entry per record,
    in the order of the records.  What the reader would give after [io.EOF]
    is not read. *)
Theorem readAll_success_iff (r : list byte) (tag : string) (l : list Entry) :
  readAll r tag = inr l
  <-> exists kvs rest,
        kv_ReadEntries r = map ReadOk kvs ++ rest /\ atEnd rest
        /\ Forall wellFormed kvs /\ l = map (entryOf tag) kvs.
Proof.
  unfold readAll. split.
  - intros Hl. apply readAll_loop_success in Hl as (kvs & rest & H1 & H2 & H3 & H4).
    exists kvs, rest. auto.
  - intros (kvs & rest & -> & Hend & Hwf & ->).
    rewrite readAll_loop_good by assumption. now apply readAll_loop_atEnd.
Qed.

(** A decoded entry: the tag asked for, an [int] position, and the request
    fields at zero. *)
Definition decodedFor (tag : string) (e : Entry) : Prop :=
  Tag e = tag /\ GoInt.is_int (TagIndex e)
  /\ requestTagMatch e = 0 /\ requestIndexDelta e = 0.

Lemma readAll_decoded r tag l :
  readAll r tag = inr l -> Forall (decodedFor tag) l.
Proof.
  unfold readAll. intros Hl.
  apply readAll_loop_success in Hl as (kvs & rest & _ & _ & Hwf & ->).
  cbn [app]. apply List.Forall_forall. intros x Hx.
  apply in_map_iff in Hx as (kv & <- & Hkv).
  rewrite List.Forall_forall in Hwf. destruct (Hwf kv Hkv) as [_ [i Hi]].
  unfold decodedFor, entryOf. rewrite Hi. cbn.
  split; [reflexivity |]. split; [now apply Atoi_is_int in Hi |].
  split; reflexivity.
Qed.

End ReadAllSuccess.

(** ** [cache.Get]: what it returns *)

Section CacheGetEntries.
Context {K : Keyval} {C : Type} {F : Forget C}.

Lemma cache_Get_loop_success c tags : forall acc l,
  cache_Get_loop c tags acc = inr l ->
  l = acc ++ flat_map (entriesOf c) tags
  /\ forall t, In t tags -> exists l', cached c t = inr l'.
Proof.
  induction tags as [|t tags IH]; intros acc l; cbn [cache_Get_loop flat_map].
  - intros [= <-]. rewrite app_nil_r. split; [reflexivity | intros t []].
  - unfold entriesOf at 1, cached at 1 2.
    destruct (forget_Get c t) as [r|] eqn:Hg.
    + destruct (readAll r t) as [err | lt] eqn:Hr; [discriminate |].
      intros Hl. apply IH in Hl as [-> Hall].
      split; [now rewrite app_assoc |].
      intros t' [<- | Ht']; [|now apply Hall].
      exists lt. now rewrite Hg.
    + intros Hl. apply IH in Hl as [-> Hall]. split; [reflexivity |].
      intros t' [<- | Ht']; [|now apply Hall].
      exists []. now rewrite Hg.
Qed.

Lemma cached_decoded c t l : cached c t = inr l -> Forall (decodedFor t) l.
Proof.
  unfold cached. destruct (forget_Get c t) as [r|].
  - apply readAll_decoded.
  - intros [= <-]. constructor.
Qed.

(** When [cache.Get] succeeds, it returns the record lists of the queried
    tags one after the other, in the order of the query.  Every entry has
    one of the queried tags, an [int] position, and the request fields at
    zero. *)
Theorem cache_Get_entries (c : C) (tags : list string) (l : list Entry) :
  cache_Get c tags = inr l ->
  l = flat_map (entriesOf c) tags
  /\ Forall (fun e => In (Tag e) tags /\ decodedFor (Tag e) e) l.
Proof.
  unfold cache_Get. intros Hl.
  apply cache_Get_loop_success in Hl as [-> Hall]. cbn [app].
  split; [reflexivity |]. apply List.Forall_forall. intros x Hx.
  apply in_flat_map in Hx as (t & Ht & Hx).
  destruct (Hall t Ht) as [l' Hl']. unfold entriesOf in Hx.
  rewrite Hl' in Hx. apply cached_decoded in Hl'.
  rewrite List.Forall_forall in Hl'. specialize (Hl' x Hx).
  assert (Htag : Tag x = t) by apply Hl'. rewrite Htag. now split.
Qed.

Lemma cache_Get_single c tag l :
  cached c tag = inr l -> cache_Get c [tag] = inr l.
Proof.
  unfold cached, cache_Get. cbn [cache_Get_loop].
  destruct (forget_Get c tag) as [r|].
  - intros ->. reflexivity.
  - intros [= <-]. reflexivity.
Qed.

End CacheGetEntries.

(** ** [writeAll]: sink errors *)

Section WriteAllErrors.
Context {K : Keyval} {W : Type} {WW : Writer W}.

Lemma writeAll_app pre : forall post (w : W),
  writeAll w (pre ++ post)
  = match writeAll w pre with
    | (Some err, w') => (Some err, w')
    | (None, w') => writeAll w' post
    end.
Proof.
  induction pre as [|ei pre IH]; intros post w; [reflexivity |].
  cbn [app writeAll].
  destruct (Write w (kv_WriteEntry (kvOf ei))) as [[err|] w'];
    [reflexivity | apply IH].
Qed.

Lemma writeAll_error_inv e : forall (w : W) err w',
  writeAll w e = (Some err, w') ->
  exists pre ei post w1,
    e = pre ++ ei :: post /\ writeAll w pre = (None, w1)
    /\ Write w1 (kv_WriteEntry (kvOf ei)) = (Some err, w').
Proof.
  induction e as [|ei e IH]; intros w err w'; cbn [writeAll];
    [discriminate |].
  destruct (Write w (kv_WriteEntry (kvOf ei))) as [[err0|] w0] eqn:Hw.
  - intros [= <- <-]. exists [], ei, e, w. auto.
  - intros He. apply IH in He as (pre & ej & post & w1 & -> & Hpre & Hej).
    exists (ei :: pre), ej, post, w1. split; [reflexivity |].
    split; [|assumption]. cbn [writeAll]. now rewrite Hw.
Qed.

(** [writeAll] fails only when a [Write] of the sink fails, and then at
    once: the records before the failing one were written, the ones after
    it are not, and the error is the sink's.  Into a buffer, which takes
    every [Write], it never fails. *)
Theorem writeAll_sink_errors (w : W) (e : list Entry) :
  (forall pre ei post w1 err w2,
      e = pre ++ ei :: post ->
      writeAll w pre = (None, w1) ->
      Write w1 (kv_WriteEntry (kvOf ei)) = (Some err, w2) ->
      writeAll w e = (Some err, w2))
  /\ (forall err w',
        writeAll w e = (Some err, w') ->
        exists pre ei post w1,
          e = pre ++ ei :: post /\ writeAll w pre = (None, w1)
          /\ Write w1 (kv_WriteEntry (kvOf ei)) = (Some err, w'))
  /\ (forall b : list byte, fst (writeAll b e) = None).
Proof.
  split; [|split].
  - intros pre ei post w1 err w2 -> Hpre Hei.
    rewrite writeAll_app, Hpre. cbn [writeAll]. now rewrite Hei.
  - apply writeAll_error_inv.
  - intros b. now rewrite writeAll_buffer.
Qed.

End WriteAllErrors.

(** ** The closures of [cache.Set] and [cache.Remove] *)

(** What the wire format keeps of an entry under its tag. *)
Definition recordOf (x : Entry) : string * Z := (Value x, TagIndex x).








Lemma cache_Remove_op_records e l1 : forall l2,
  map recordOf l1 = map recordOf l2 ->
  map recordOf (cache_Remove_op e l1) = map recordOf (cache_Remove_op e l2).
Proof.
  induction l1 as [|x1 l1 IH]; intros [|x2 l2] Heq; try discriminate.
  - reflexivity.
  - cbn [map] in Heq. injection Heq as Hv Hi Hl.
    assert (Hx : recordOf x1 = recordOf x2)
      by (unfold recordOf; congruence).
    cbn [cache_Remove_op]. rewrite Hv.
    destruct (String.eqb (Value x2) (Value e)); [exact Hl |].
    cbn [map]. now rewrite Hx, (IH l2 Hl).
Qed.

Lemma cache_Remove_op_incl e l x : In x (cache_Remove_op e l) -> In x l.
Proof.
  induction l as [|ei l IH]; [tauto |]. cbn [cache_Remove_op].
  destruct (String.eqb (Value ei) (Value e)); [now right |].
  intros [<- | Hx]; [now left | right; auto].
Qed.

Lemma cache_Remove_op_absent e l :
  ~ In (Value e) (map Value l) -> cache_Remove_op e l = l.
Proof.
  induction l as [|ei l IH]; intros Hno; [reflexivity |].
  cbn [cache_Remove_op].
  destruct (String.eqb_spec (Value ei) (Value e)) as [Heq | Hne].
  - exfalso. apply Hno. now left.
  - f_equal. apply IH. intros Hin. apply Hno. now right.
Qed.

Section CacheRoundTrips.
Context {K : Keyval} {KL : KeyvalLaws K}.
Context {C : Type} {F : Forget C} {FL : ForgetLaws F}.

(** An entry the codec can write and read back. *)
Definition writable (x : Entry) : Prop :=
  GoInt.is_int (TagIndex x) /\ kv_wf (kvOf x).





(** After [cache.Remove] has succeeded, [cache.Get] of the tag returns the
    records that were cached without the one of the value: the value is
    gone, every other record is there with its position, and when the value
    was not cached the records are the ones that were there.  The tag has an
    item afterwards even when it had none. *)
Theorem cache_Remove_then_Get (c : C) (e : Entry) (l : list Entry) (c' : C) :
  cached c (Tag e) = inr l ->
  List.NoDup (map Value l) ->
  Forall writable l ->
  cache_Remove c e = (None, c') ->
  cache_Get c' [Tag e] = inr (reread (Tag e) (cache_Remove_op e l))
  /\ forget_Get c' (Tag e) = Some (encode (cache_Remove_op e l))
  /\ ~ In (Value e) (map Value (reread (Tag e) (cache_Remove_op e l)))
  /\ (forall x, In x l -> Value x <> Value e ->
        In (newEntry (Value x) (Tag e) (TagIndex x))
          (reread (Tag e) (cache_Remove_op e l)))
  /\ (~ In (Value e) (map Value l) -> cache_Remove_op e l = l).
Proof.
  intros Hl Hnd Hwf Hrem.
  destruct (cache_Remove_op_spec e l Hnd) as (_ & R2 & R3).
  assert (G : forget_Get c' (Tag e) = Some (encode (cache_Remove_op e l)))
    by (eapply withTagEntries_written; eassumption).
  assert (Hwf' : Forall writable (cache_Remove_op e l)).
  { rewrite List.Forall_forall in *. intros x Hx. apply Hwf.
    now apply cache_Remove_op_incl in Hx. }
  split; [|split; [exact G | split; [|split]]].
  - apply cache_Get_single. now apply cached_after_write.
  - unfold reread. rewrite map_map. cbn [Value newEntry]. exact R2.
  - intros x Hx Hne. unfold reread.
    apply (in_map (fun y => newEntry (Value y) (Tag e) (TagIndex y))).
    now apply R3.
  - apply cache_Remove_op_absent.
Qed.


End CacheRoundTrips.

(** ** [cache.Delete] *)

Section CacheDelete.
Context {K : Keyval} {C : Type} {F : Forget C} {FD : ForgetDeleteLaws F}.

Lemma cache_Get_loop_deleted c tag tags : forall acc,
  cache_Get_loop (forget_Delete c tag) tags acc
  = cache_Get_loop c
      (List.filter (fun t => negb (String.eqb t tag)) tags) acc.
Proof.
  induction tags as [|t tags IH]; intros acc; [reflexivity |].
  cbn [cache_Get_loop List.filter].
  destruct (String.eqb_spec t tag) as [-> | Hne]; cbn [negb].
  - rewrite forget_Delete_gone. apply IH.
  - cbn [cache_Get_loop]. rewrite forget_Delete_others by assumption.
    destruct (forget_Get c t) as [r|]; [|apply IH].
    destruct (readAll r t); [reflexivity | apply IH].
Qed.

(** [cache.Delete] never fails, and afterwards [cache.Get] answers as it
    did before for the query without the tag: the tag gives no entry and no
    error, also when its item was damaged, and the other tags give what
    they gave. *)
Theorem cache_Delete_then_Get (c : C) (tag : string) (tags : list string) :
  fst (cache_Delete c tag) = None
  /\ cache_Get (snd (cache_Delete c tag)) tags
     = cache_Get c (List.filter (fun t => negb (String.eqb t tag)) tags)
  /\ cache_Get (snd (cache_Delete c tag)) [tag] = inr [].
Proof.
  unfold cache_Delete. cbn [fst snd]. split; [reflexivity |].
  unfold cache_Get. split; [apply cache_Get_loop_deleted |].
  cbn [cache_Get_loop]. now rewrite forget_Delete_gone.
Qed.

End CacheDelete.

(** ** Short results *)

Lemma sort_Sort_nil `{SL : SorterLaws} : sort_Sort [] = [].
Proof. apply Permutation_nil. symmetry. apply sort_perm. Qed.



Lemma hasTag_filter_nil tags e :
  (forall tag, In tag tags -> hasTag tag e = true) ->
  List.filter (fun t => negb (hasTag t e)) tags = [].
Proof.
  induction tags as [|t tags IH]; intros Hall; [reflexivity |].
  cbn [List.filter]. rewrite (Hall t (or_introl eq_refl)). cbn [negb].
  apply IH. intros tag Htag. apply Hall. now right.
Qed.

Lemma hasTag_filter_cons tags e :
  (exists tag, In tag tags /\ hasTag tag e = false) ->
  exists t rest, List.filter (fun t => negb (hasTag t e)) tags = t :: rest.
Proof.
  induction tags as [|t tags IH]; intros (tag & Hin & Hno); [destruct Hin |].
  cbn [List.filter]. destruct (hasTag t e) eqn:Ht; cbn [negb]; [|eauto].
  apply IH. destruct Hin as [-> | Hin]; [congruence | eauto].
Qed.

(** ** [getAll] and the data base *)

Section CachedQueries.
Context {C : Type} (cacheI : Storage C) {sorter : Sorter}.

(** [storage.Get] returns at once when it is asked for no tag, and
    [getAll] asks it for the tags of which the cache returned no entry.
    So when the cache returns an entry for every tag of the query (and for
    the query of no tag), [getAll] succeeds from the cache alone, whatever
    the state of the data base; when some tag is left and the data base
    fails, [getAll] fails with its error. *)
Theorem getAll_consults_database (t : TagStash C sqlstorage.db)
    (tags : list string) (cached : list Entry) (c1 : C) :
  st_Get cacheI (cache t) tags = (inr cached, c1) ->
  ((forall tag, In tag tags -> hasTag tag cached = true) ->
   getAll cacheI sqlstorage.asStorage t tags
   = (inr (sort_Sort (uniqueValues (snd (setRequestIndex tags cached)))),
      mkTagStash c1 (storage t)))
  /\ (forall err,
        (exists tag, In tag tags /\ hasTag tag cached = false) ->
        sqlstorage.fault (storage t) = Some err ->
        getAll cacheI sqlstorage.asStorage t tags
        = (inl err, mkTagStash c1 (storage t))).
Proof.
  intros Hc. unfold getAll. rewrite Hc, setRequestIndex_spec. split.
  - intros Hall. rewrite hasTag_filter_nil by assumption.
    cbn [st_Get sqlstorage.asStorage sqlstorage.Get cacheStored].
    rewrite setRequestIndex_spec. cbn [snd map]. now rewrite app_nil_r.
  - intros err Hsome Hfault.
    destruct (hasTag_filter_cons tags cached Hsome) as (t0 & rest & ->).
    cbn [st_Get sqlstorage.asStorage sqlstorage.Get]. now rewrite Hfault.
Qed.

End CachedQueries.

(** ** A tag that is stored but not cached *)

Section Shadowing.
Context {K : Keyval} {KL : KeyvalLaws K}.
Context {C : Type} {F : Forget C} {FL : ForgetLaws F}.
Context {S : Type} (storageI : Storage S).
Context {sorter : Sorter} {SL : SorterLaws sorter}.


End Shadowing.

(** ** A tag the blob cache refuses *)

Section Refusal.
Context {K : Keyval} {C : Type} {F : Forget C}.
Context {S : Type} (storageI : Storage S).

(** When the blob cache refuses the item of a tag, [Set] of a value for the
    tag writes the storage and then fails with [ErrFailedToCacheEntry];
    [Remove] of the value fails with the same error in the cache, before it
    comes to the storage, which keeps the association; [Delete] of the tag
    does not write an item and goes on to the storage. *)
Theorem refused_tag_stored_not_removable (t : TagStash C S)
    (value tag : string) (l : list Entry) (c' : C) :
  cached (cache t) tag = inr l ->
  forget_Set (cache t) tag = (false, c') ->
  (forall s',
      st_Set storageI (storage t) (newEntry value tag 0) = (None, s') ->
      TagStash_Set cacheStorage storageI t value [tag]
      = (Some ErrFailedToCacheEntry, mkTagStash c' s'))
  /\ TagStash_Remove cacheStorage storageI t value tag
     = (Some ErrFailedToCacheEntry, mkTagStash c' (storage t))
  /\ TagStash_Delete cacheStorage storageI t tag
     = (fst (st_Delete storageI (storage t) tag),
        mkTagStash (forget_Delete (cache t) tag)
          (snd (st_Delete storageI (storage t) tag))).
Proof.
  intros Hl Hset.
  assert (Hw : forall op,
             withTagEntries (cache t) tag op
             = (Some ErrFailedToCacheEntry, c')).
  { intros op. unfold withTagEntries. unfold cached in Hl.
    destruct (forget_Get (cache t) tag) as [r|].
    - now rewrite Hl, Hset.
    - now rewrite Hset. }
  split; [|split].
  - intros s' Hs. unfold TagStash_Set. cbn [TagStash_Set_loop].
    rewrite Hs. cbn [st_Set cacheStorage]. unfold cache_Set.
    cbn [Tag newEntry]. now rewrite Hw.
  - unfold TagStash_Remove. cbn [st_Remove cacheStorage].
    unfold cache_Remove. cbn [Tag newEntry]. now rewrite Hw.
  - unfold TagStash_Delete. cbn [st_Delete cacheStorage cache_Delete].
    now destruct (st_Delete storageI (storage t) tag) as [[err|] s'].
Qed.

End Refusal.

(** ** [Delete], then a query *)

Section DeleteThenQuery.
Context {K : Keyval} {C : Type} {F : Forget C} {FD : ForgetDeleteLaws F}.
Context {sorter : Sorter} {SL : SorterLaws sorter}.

Lemma mock_Get_deleted tag l :
  flat_map
    (fun e => flat_map (fun t => if String.eqb t (Tag e) then [e] else [])
                [tag])
    (List.filter (fun e => negb (String.eqb (Tag e) tag)) l) = [].
Proof.
  induction l as [|e l IH]; [reflexivity |]. cbn [List.filter].
  destruct (String.eqb (Tag e) tag) eqn:He; cbn [negb]; [exact IH |].
  cbn [flat_map]. rewrite String.eqb_sym, He. cbn [app]. exact IH.
Qed.

(** After [Delete] of a tag has succeeded on a stash with the built-in
    cache and the storage of the tests, a query for the tag finds nothing:
    [GetAll] returns no value and [Get] the empty string, without error. *)
Theorem Delete_then_GetAll (t : TagStash C mock.mockStorage) (tag : string)
    (t' : TagStash C mock.mockStorage) :
  TagStash_Delete cacheStorage mock.asStorage t tag = (None, t') ->
  GetAll cacheStorage mock.asStorage t' [tag] = (inr [], t')
  /\ Get cacheStorage mock.asStorage t' [tag] = (inr "", t').
Proof.
  unfold TagStash_Delete.
  cbn [st_Delete cacheStorage cache_Delete mock.asStorage].
  unfold mock.Delete. destruct (mock.failNext (storage t)); [discriminate |].
  intros [= <-].
  set (c' := forget_Delete (cache t) tag).
  set (m' := mock.mkMock _ false).
  assert (Hall : getAll cacheStorage mock.asStorage (mkTagStash c' m') [tag]
                 = (inr [], mkTagStash c' m')).
  { rewrite (getAll_success cacheStorage mock.asStorage (mkTagStash c' m')
               [tag] [] c' [] m' c').
    - cbn [app map]. now rewrite sort_Sort_nil.
    - cbn [st_Get cacheStorage cache]. unfold c', cache_Get.
      cbn [cache_Get_loop]. now rewrite forget_Delete_gone.
    - cbn [st_Get mock.asStorage storage]. unfold mock.Get, m'.
      cbn [mock.failNext mock.entries setRequestIndex fst].
      unfold setRequestIndex. cbn [setRequestIndex_loop setRequestIndex_tag
                                   app fst].
      now rewrite mock_Get_deleted.
    - reflexivity. }
  unfold GetAll, Get. rewrite Hall. split; reflexivity.
Qed.

End DeleteThenQuery.

(** ** The storage of the tests *)

Section MockStorage.
Import mock.

Definition samePair (e x : Entry) : bool :=
  String.eqb (Tag x) (Tag e) && String.eqb (Value x) (Value e).

Lemma samePair_true e x : samePair e x = true <-> pairOf x = pairOf e.
Proof. apply pairOf_same. Qed.

Lemma samePair_false e x : samePair e x = false <-> pairOf x <> pairOf e.
Proof. rewrite <- samePair_true. now destruct (samePair e x). Qed.

Lemma Set_find_frame e l : forall l',
  Set_find e l = Some l' ->
  forall x, pairOf x <> pairOf e -> (In x l' <-> In x l).
Proof.
  induction l as [|ei l IH]; intros l' Hf x Hne; [discriminate |].
  cbn [Set_find] in Hf. fold (samePair e ei) in Hf.
  destruct (samePair e ei) eqn:Hk.
  - injection Hf as <-. apply samePair_true in Hk. cbn [In].
    split; (intros [<- | Hx]; [|now right]); exfalso; apply Hne.
    + unfold pairOf in *. cbn. exact Hk.
    + exact Hk.
  - destruct (Set_find e l) as [l0|]; [|discriminate].
    injection Hf as <-. cbn [In]. now rewrite (IH l0 eq_refl x Hne).
Qed.

Lemma mock_Set_frame (s : mockStorage) e s' :
  Set_ s e = (None, s') ->
  failNext s = false /\ failNext s' = false
  /\ forall x, pairOf x <> pairOf e ->
       (In x (entries s') <-> In x (entries s)).
Proof.
  unfold Set_. destruct (failNext s); [discriminate |].
  destruct (Set_find e (entries s)) as [l'|] eqn:Hf; intros [= <-];
    cbn [entries failNext]; (split; [reflexivity |]);
    (split; [reflexivity |]); intros x Hne.
  - now apply (Set_find_frame e (entries s)).
  - rewrite in_app_iff. cbn [In]. split; [|tauto].
    intros [Hx | [<- | []]]; [assumption | contradiction].
Qed.

Lemma mock_Get_one tag l :
  flat_map
    (fun e => flat_map (fun t => if String.eqb t (Tag e) then [e] else [])
                [tag]) l
  = List.filter (fun e => String.eqb (Tag e) tag) l.
Proof.
  induction l as [|e l IH]; [reflexivity |].
  cbn [flat_map List.filter]. rewrite String.eqb_sym.
  destruct (String.eqb (Tag e) tag); cbn [app]; now rewrite <- IH.
Qed.

Lemma mock_Get_entry tags e :
  List.NoDup tags ->
  flat_map (fun t => if String.eqb t (Tag e) then [e] else []) tags
  = if existsb (String.eqb (Tag e)) tags then [e] else [].
Proof.
  induction tags as [|t tags IH]; intros Hnd; [reflexivity |].
  inversion Hnd as [|? ? Hno Hnd']; subst. cbn [flat_map existsb].
  rewrite (IH Hnd'), (String.eqb_sym t).
  destruct (String.eqb_spec (Tag e) t) as [Heq | Hne]; [|reflexivity].
  cbn [orb]. destruct (existsb (String.eqb (Tag e)) tags) eqn:Hex;
    [|reflexivity].
  exfalso. apply Hno. apply existsb_eqb_In in Hex. now rewrite <- Heq.
Qed.

(** What [mockStorage.Get] returns when it does not fail. *)
Definition mock_found (tags : list string) (l : list Entry) : list Entry :=
  flat_map
    (fun e => flat_map (fun t => if String.eqb t (Tag e) then [e] else [])
                tags) l.

Lemma mock_found_In tags l x :
  In x (mock_found tags l) <-> In x l /\ In (Tag x) tags.
Proof.
  unfold mock_found. rewrite in_flat_map. split.
  - intros (e & He & Hx). apply in_flat_map in Hx as (t & Ht & Hx).
    destruct (String.eqb_spec t (Tag e)) as [-> | _]; [|destruct Hx].
    destruct Hx as [<- | []]. now split.
  - intros [Hx Ht]. exists x. split; [assumption |].
    apply in_flat_map. exists (Tag x). split; [assumption |].
    rewrite String.eqb_refl. now left.
Qed.

Lemma mock_Get_ok (s : mockStorage) tags :
  failNext s = false -> Get s tags = (inr (mock_found tags (entries s)), s).
Proof. intros Hf. unfold Get. now rewrite Hf. Qed.

(** [mockStorage.Get]: when the next call is not set to fail, it returns
    the stored entries whose tag is in the query, and leaves the storage as
    it is; with distinct query tags each such entry comes once, in the
    order in which the entries are stored.  When the next call is set to
    fail, it returns the forged error and the storage is as before, with
    the flag cleared. *)
Theorem mock_Get_returns (s : mockStorage) (tags : list string) :
  (failNext s = false ->
   exists l,
     Get s tags = (inr l, s)
     /\ (forall x, In x l <-> In x (entries s) /\ In (Tag x) tags)
     /\ (List.NoDup tags ->
         l = List.filter (fun e => existsb (String.eqb (Tag e)) tags)
               (entries s)))
  /\ (failNext s = true ->
      Get s tags = (inl errForgedError, mkMock (entries s) false)).
Proof.
  split; intros Hf; [|unfold Get; now rewrite Hf].
  exists (mock_found tags (entries s)). split; [now apply mock_Get_ok |].
  split; [intros x; apply mock_found_In |].
  intros Hnd. unfold mock_found.
  induction (entries s) as [|e l IH]; [reflexivity |].
  cbn [flat_map List.filter]. rewrite IH, (mock_Get_entry tags e Hnd).
  now destruct (existsb (String.eqb (Tag e)) tags).
Qed.

(** [mockStorage.Set], then [Get] of the tag of the entry, on a storage
    whose (value, tag) pairs are distinct: [Get] returns one entry with the
    pair of the entry that was set, and it has the tag index that was set;
    the other entries it returns are the ones that were stored for the tag
    before. *)
Theorem mock_Set_then_Get (s : mockStorage) (e : Entry) (s' : mockStorage) :
  List.NoDup (map pairOf (entries s)) ->
  Set_ s e = (None, s') ->
  exists l,
    Get s' [Tag e] = (inr l, s')
    /\ List.NoDup (map pairOf l)
    /\ (exists x, In x l /\ pairOf x = pairOf e)
    /\ (forall x, In x l -> pairOf x = pairOf e -> TagIndex x = TagIndex e)
    /\ (forall x, pairOf x <> pairOf e ->
          (In x l <-> In x (entries s) /\ Tag x = Tag e)).
Proof.
  intros Hnd Hset.
  destruct (mock_Set_spec s e None s' Hnd Hset) as (Hnd' & Hin).
  destruct (Hin eq_refl) as [Hpair Hidx].
  destruct (mock_Set_frame s e s' Hset) as (_ & Hf' & Hframe).
  unfold Get. rewrite Hf', mock_Get_one. eexists. split; [reflexivity |].
  split; [now apply NoDup_map_filter |]. split; [|split].
  - apply in_map_iff in Hpair as (x & Hx & Hxin). exists x.
    split; [|exact Hx]. apply filter_In. split; [assumption |].
    apply String.eqb_eq. unfold pairOf in Hx. congruence.
  - intros x Hx. apply filter_In in Hx as [Hx _]. now apply Hidx.
  - intros x Hne. rewrite filter_In, String.eqb_eq, (Hframe x Hne).
    reflexivity.
Qed.

Lemma Remove_first_filter e l :
  List.NoDup (map pairOf l) ->
  Remove_first e l = List.filter (fun x => negb (samePair e x)) l.
Proof.
  induction l as [|ei l IH]; intros Hnd; [reflexivity |].
  cbn [map] in Hnd. inversion Hnd as [|? ? Hno Hnd']; subst.
  cbn [Remove_first List.filter]. fold (samePair e ei).
  destruct (samePair e ei) eqn:Hk; cbn [negb]; [|now rewrite IH].
  apply samePair_true in Hk. symmetry.
  apply forallb_filter_id. apply forallb_forall. intros x Hx.
  apply negb_true_iff, samePair_false. intros Heq. apply Hno.
  rewrite Hk, <- Heq. now apply in_map.
Qed.

(** [mockStorage.Remove] and [Delete], when they do not fail, on a storage
    whose (value, tag) pairs are distinct: [Remove] leaves the entries
    without the one of the pair, [Delete] the entries without those of the
    tag, in both cases in the order they had; the pairs stay distinct, and
    [Get] of the tag then returns no entry of the pair, or no entry at
    all. *)
Theorem mock_Remove_and_Delete (s : mockStorage) :
  List.NoDup (map pairOf (entries s)) ->
  (forall e s', Remove s e = (None, s') ->
     entries s' = List.filter (fun x => negb (samePair e x)) (entries s)
     /\ List.NoDup (map pairOf (entries s'))
     /\ ~ In (pairOf e) (map pairOf (entries s'))
     /\ exists l, Get s' [Tag e] = (inr l, s')
                  /\ ~ In (Value e) (map Value l))
  /\ (forall tag s', Delete s tag = (None, s') ->
        entries s'
        = List.filter (fun x => negb (String.eqb (Tag x) tag)) (entries s)
        /\ List.NoDup (map pairOf (entries s'))
        /\ Get s' [tag] = (inr [], s')).
Proof.
  intros Hnd. split.
  - intros e s'. unfold Remove. destruct (failNext s); [discriminate |].
    intros [= <-]. cbn [entries]. rewrite (Remove_first_filter e _ Hnd).
    assert (Hgone : ~ In (pairOf e)
                      (map pairOf (List.filter
                                     (fun x => negb (samePair e x))
                                     (entries s)))).
    { intros Hin. apply in_map_iff in Hin as (x & Hx & Hin).
      apply filter_In in Hin as [_ Hk].
      apply negb_true_iff, samePair_false in Hk. contradiction. }
    split; [reflexivity |]. split; [now apply NoDup_map_filter |].
    split; [exact Hgone |].
    unfold Get. cbn [failNext entries]. rewrite mock_Get_one.
    eexists. split; [reflexivity |].
    intros Hin. apply in_map_iff in Hin as (x & Hv & Hin).
    apply filter_In in Hin as [Hin Ht]. apply String.eqb_eq in Ht.
    apply Hgone. apply in_map_iff. exists x. split; [|assumption].
    unfold pairOf. congruence.
  - intros tag s'. unfold Delete. destruct (failNext s); [discriminate |].
    intros [= <-]. cbn [entries]. split; [reflexivity |].
    split; [now apply NoDup_map_filter |].
    unfold Get. cbn [failNext entries]. rewrite mock_Get_one.
    f_equal. f_equal. clear Hnd.
    induction (entries s) as [|x l IH]; [reflexivity |].
    cbn [List.filter]. destruct (String.eqb (Tag x) tag) eqn:Ht;
      cbn [negb List.filter]; [exact IH |]. now rewrite Ht.
Qed.

End MockStorage.

(** ** [stringSetsEqual] *)

Lemma forallb_existsb_incl (left right : list string) :
  forallb (fun l => existsb (fun r => String.eqb l r) right) left = true
  <-> incl left right.
Proof.
  rewrite forallb_forall. unfold incl. split; intros H x Hx.
  - apply existsb_eqb_In. now apply H.
  - apply (proj2 (existsb_eqb_In x right)). now apply H.
Qed.

(** [stringSetsEqual] holds when the two slices have the same length and
    every string of the first is in the second.  When the first has no
    string twice this is that the second is a rearrangement of the first;
    otherwise it can hold of slices that differ as sets, and it is not
    symmetric. *)
Theorem stringSetsEqual_spec :
  (forall left right,
      stringSetsEqual left right = true
      <-> length left = length right /\ incl left right)
  /\ (forall left right,
        List.NoDup left ->
        (stringSetsEqual left right = true <-> Permutation left right))
  /\ stringSetsEqual ["a"; "a"] ["a"; "b"] = true
  /\ stringSetsEqual ["a"; "b"] ["a"; "a"] = false.
Proof.
  assert (Hspec : forall left right,
             stringSetsEqual left right = true
             <-> length left = length right /\ incl left right).
  { intros left right. unfold stringSetsEqual.
    destruct (Nat.eqb_spec (length left) (length right)) as [Hlen | Hlen];
      cbn [negb].
    - rewrite forallb_existsb_incl. tauto.
    - split; [discriminate | tauto]. }
  split; [exact Hspec |]. split; [|split; reflexivity].
  intros left right Hnd. rewrite Hspec. split.
  - intros [Hlen Hincl]. apply NoDup_Permutation_bis; [assumption | lia |].
    exact Hincl.
  - intros Hp. split; [now apply Permutation_length |].
    intros x Hx. now apply (Permutation_in _ Hp).
Qed.

(** ** [newStorage] and [New] *)

Section StorageSetup.
Import storageSetup.

(** The driver and the data source [newStorage] works with. *)
Definition driverOf (o : StorageOptions) : string :=
  if String.eqb (DriverName o) "" then "sqlite3" else DriverName o.

Definition sourceOf (o : StorageOptions) : string :=
  if String.eqb (DataSourceName o) "" then "data.sqlite"
  else DataSourceName o.

Lemma createDB_getCommands d : createDB (getCommands d) = Cmd_create_db.
Proof. unfold getCommands. now destruct (String.eqb d postgres). Qed.

(** [newStorage], case by case. *)
Lemma newStorage_cases (w : world) (o : StorageOptions) :
  newStorage w o
  = let d := driverOf o in
    let s := sourceOf o in
    let st := mkStorage d s (getCommands d) in
    if String.eqb d "sqlite3" then
      match os_Stat w s with
      | StatError err => (inl err, [CallStat s])
      | StatFound =>
          match sql_Open w d s with
          | Some err => (inl err, [CallStat s; CallOpen d s])
          | None => (inr st, [CallStat s; CallOpen d s])
          end
      | StatNotExist =>
          match sql_Open w d s with
          | Some err => (inl err, [CallStat s; CallOpen d s])
          | None =>
              match db_Exec w Cmd_create_db with
              | Some err =>
                  (inl err,
                   [CallStat s; CallOpen d s; CallExec Cmd_create_db;
                    CallClose])
              | None =>
                  (inr st,
                   [CallStat s; CallOpen d s; CallExec Cmd_create_db])
              end
          end
      end
    else
      match sql_Open w d s with
      | Some err => (inl err, [CallOpen d s])
      | None => (inr st, [CallOpen d s])
      end.
Proof.
  unfold newStorage.
  change (if String.eqb (DriverName o) "" then DefaultDriverName
          else DriverName o) with (driverOf o).
  change (if String.eqb (DataSourceName o) "" then DefaultDataSourceName
          else DataSourceName o) with (sourceOf o).
  change sqlite with "sqlite3". cbv zeta. rewrite !createDB_getCommands.
  destruct (String.eqb (driverOf o) "sqlite3").
  - destruct (os_Stat w (sourceOf o)); [| |reflexivity];
      destruct (sql_Open w (driverOf o) (sourceOf o)); reflexivity.
  - now destruct (sql_Open w (driverOf o) (sourceOf o)).
Qed.

Lemma driverOf_idem o :
  driverOf (mkStorageOptions (driverOf o) (sourceOf o)) = driverOf o
  /\ sourceOf (mkStorageOptions (driverOf o) (sourceOf o)) = sourceOf o.
Proof.
  unfold driverOf, sourceOf. cbn [DriverName DataSourceName]. split.
  - destruct (String.eqb_spec (DriverName o) "") as [Hd | Hd];
      [reflexivity |].
    now destruct (String.eqb_spec (DriverName o) "").
  - destruct (String.eqb_spec (DataSourceName o) "") as [Hd | Hd];
      [reflexivity |].
    now destruct (String.eqb_spec (DataSourceName o) "").
Qed.

Ltac calls :=
  cbn [fst snd In];
  intuition (try discriminate; try congruence).

(** [newStorage]: an empty driver name stands for sqlite3 and an empty data
    source for data.sqlite, whatever the driver.  The file system is looked
    at for sqlite3 only.  The command that creates the tables runs in one
    case only: the driver is sqlite3, the file does not exist, and the data
    base opens.  The data base is closed by [newStorage] exactly when that
    command fails, and then [newStorage] fails; a storage that is returned
    is open, has the commands of its driver, and these differ for postgres
    in the insert command only. *)
Theorem newStorage_effects (w : world) (o : StorageOptions) :
  newStorage w o
  = newStorage w (mkStorageOptions (driverOf o) (sourceOf o))
  /\ (forall p, In (CallStat p) (snd (newStorage w o))
                <-> driverOf o = "sqlite3" /\ p = sourceOf o)
  /\ (forall c, In (CallExec c) (snd (newStorage w o))
                <-> c = Cmd_create_db /\ driverOf o = "sqlite3"
                    /\ os_Stat w (sourceOf o) = StatNotExist
                    /\ sql_Open w (driverOf o) (sourceOf o) = None)
  /\ (In CallClose (snd (newStorage w o))
      <-> In (CallExec Cmd_create_db) (snd (newStorage w o))
          /\ exists err, db_Exec w Cmd_create_db = Some err
                         /\ fst (newStorage w o) = inl err)
  /\ (forall st, fst (newStorage w o) = inr st ->
        ~ In CallClose (snd (newStorage w o))
        /\ In (CallOpen (driverOf o) (sourceOf o)) (snd (newStorage w o))
        /\ db_driver st = driverOf o /\ db_source st = sourceOf o
        /\ st_commands st = getCommands (driverOf o))
  /\ (forall d,
        getCommands d
        = mkCommands Cmd_create_db Cmd_get_entries Cmd_get_tags
            (if String.eqb d "postgres" then Cmd_insert_entry_pq
             else Cmd_insert_entry)
            Cmd_delete_entry Cmd_delete_tag).
Proof.
  split.
  { rewrite !newStorage_cases. cbv zeta.
    now destruct (driverOf_idem o) as [-> ->]. }
  assert (Hcmd : forall d,
             getCommands d
             = mkCommands Cmd_create_db Cmd_get_entries Cmd_get_tags
                 (if String.eqb d "postgres" then Cmd_insert_entry_pq
                  else Cmd_insert_entry)
                 Cmd_delete_entry Cmd_delete_tag).
  { intros d. unfold getCommands, postgres.
    now destruct (String.eqb d "postgres"). }
  rewrite newStorage_cases. cbv zeta.
  destruct (String.eqb_spec (driverOf o) "sqlite3") as [Hd | Hd];
    [destruct (os_Stat w (sourceOf o)) as [| |serr] eqn:Hstat |];
    destruct (sql_Open w (driverOf o) (sourceOf o)) as [oerr|] eqn:Hopen;
    try destruct (db_Exec w Cmd_create_db) as [xerr|] eqn:Hexec;
    (split; [intros p; calls |]);
    (split; [intros c; calls |]);
    (split; [|split; [|exact Hcmd]]).
  all: try (intros st; cbn [fst snd]; first [discriminate | intros [= <-]];
            cbn [db_driver db_source st_commands]; calls).
  all: cbn [fst snd In]; split.
  all: try (intros [_ (err & H1 & H2)]; first [discriminate | tauto]).
  all: try (intros H; exfalso; intuition discriminate).
  all: intros _; split; [tauto | exists xerr; now split].
Qed.

(** [New]: with a custom storage it makes none, so that it touches neither
    the file system nor a data base and does not fail; without one it fails
    exactly when [newStorage] fails, with its error and before any cache is
    made.  The cache it makes without a custom one has the configured size
    and a chunk size of 64 at least: the expected item size when that is
    larger. *)
Theorem New_storage_and_cache {S C : Type} (w : world) (o : Options S C) :
  (forall s, Storage_ o = Some s ->
     snd (New w o) = []
     /\ exists c, fst (New w o) = inr (mkTagStash c (inl s)))
  /\ (Storage_ o = None ->
      snd (New w o) = snd (newStorage w (StorageOptions_ o))
      /\ (forall err, fst (New w o) = inl err
                      <-> fst (newStorage w (StorageOptions_ o)) = inl err)
      /\ (forall st, fst (newStorage w (StorageOptions_ o)) = inr st ->
            exists c, fst (New w o) = inr (mkTagStash c (inr st))))
  /\ (forall t, fst (New w o) = inr t ->
        match Cache_ o with
        | Some c => cache t = inl c
        | None =>
            cache t
            = inr (mkForgetOptions (CacheSize (CacheOptions_ o))
                     (Z.max 64 (ExpectedItemSize (CacheOptions_ o))))
        end).
Proof.
  assert (Hchunk : forall co,
             newCache co
             = mkForgetOptions (CacheSize co)
                 (Z.max 64 (ExpectedItemSize co))).
  { intros co. unfold newCache. f_equal.
    destruct (Z.ltb_spec (ExpectedItemSize co) 64); lia. }
  unfold New. split; [|split].
  - intros s ->. cbn [fst snd]. split; [reflexivity |]. eauto.
  - intros ->.
    destruct (newStorage w (StorageOptions_ o)) as [[err | st] calls];
      cbn [fst snd].
    + split; [reflexivity |].
      split; [intros err0; split; intros [= ->]; reflexivity | discriminate].
    + split; [reflexivity |]. split.
      * intros err. split; discriminate.
      * intros st' [= <-]. eauto.
  - intros t.
    destruct (Storage_ o) as [s|].
    + intros [= <-]. cbn [cache]. destruct (Cache_ o); [reflexivity |].
      now rewrite Hchunk.
    + destruct (newStorage w (StorageOptions_ o)) as [[err | st] calls];
        [discriminate |].
      intros [= <-]. cbn [cache]. destruct (Cache_ o); [reflexivity |].
      now rewrite Hchunk.
Qed.

End StorageSetup.

(** ** [Set]: the positions that are stored *)

Lemma NoDup_map_inj {A B} (f : A -> B) l x y :
  List.NoDup (map f l) -> In x l -> In y l -> f x = f y -> x = y.
Proof.
  induction l as [|a l IH]; intros Hnd Hx Hy Hf; [destruct Hx |].
  cbn [map] in Hnd. inversion Hnd as [|? ? Hno Hnd']; subst.
  destruct Hx as [<- | Hx], Hy as [<- | Hy]; try reflexivity.
  - exfalso. apply Hno. rewrite Hf. now apply in_map.
  - exfalso. apply Hno. rewrite <- Hf. now apply in_map.
  - now apply IH.
Qed.

Section SetPositions.
Context {K : Keyval} {C : Type} {F : Forget C}.

Lemma Set_loop_positions tags :
  forall (t t' : TagStash C mock.mockStorage) (value : string) (i : Z),
  List.NoDup (map pairOf (mock.entries (storage t))) ->
  TagStash_Set_loop cacheStorage mock.asStorage t value i tags = (None, t') ->
  List.NoDup (map pairOf (mock.entries (storage t')))
  /\ (forall tag, In tag tags ->
        exists x, In x (mock.entries (storage t'))
                  /\ pairOf x = (value, tag)
                  /\ TagIndex x = i + position tags tag)
  /\ (forall x, Value x <> value \/ ~ In (Tag x) tags ->
        (In x (mock.entries (storage t'))
         <-> In x (mock.entries (storage t)))).
Proof.
  induction tags as [|ti tags IH]; intros t t' value i Hnd Hset;
    cbn [TagStash_Set_loop] in Hset.
  - injection Hset as <-. split; [assumption |].
    split; [intros tag [] | tauto].
  - cbn [st_Set mock.asStorage] in Hset.
    destruct (mock.Set_ (storage t) (newEntry value ti i))
      as [[err|] s1] eqn:Hs; [discriminate |].
    destruct (st_Set cacheStorage (cache t) (newEntry value ti i))
      as [[err|] c1]; [discriminate |].
    destruct (mock_Set_spec _ _ _ _ Hnd Hs) as (Hnd1 & Hin1).
    destruct (Hin1 eq_refl) as [Hpair Hidx].
    destruct (mock_Set_frame _ _ _ Hs) as (_ & _ & Hframe).
    destruct (IH (mkTagStash c1 s1) t' value (i + 1) Hnd1 Hset)
      as (Hnd' & Hpos & Hkeep).
    cbn [storage] in *.
    split; [exact Hnd' |]. split.
    + intros tag Htag. cbn [position].
      destruct (existsb (String.eqb tag) tags) eqn:Hlater.
      * apply existsb_eqb_In in Hlater.
        destruct (Hpos tag Hlater) as (x & Hx & Hp & Hi).
        exists x. split; [assumption |]. split; [assumption | lia].
      * assert (Hno : ~ In tag tags).
        { intros Hin. apply existsb_eqb_In in Hin. congruence. }
        destruct Htag as [<- | Htag]; [|contradiction].
        apply in_map_iff in Hpair as (x & Hp & Hx). exists x.
        assert (Ht : Tag x = ti) by (unfold pairOf in Hp; cbn in Hp; congruence).
        split; [|split; [exact Hp |]].
        -- apply Hkeep; [right; now rewrite Ht | exact Hx].
        -- rewrite (Hidx x Hx Hp). cbn. lia.
    + intros x Hx. rewrite Hkeep.
      * apply Hframe. unfold pairOf. cbn [Value Tag newEntry].
        intros [= Hv Ht]. destruct Hx as [Hx | Hx]; [contradiction |].
        apply Hx. now left.
      * destruct Hx as [Hx | Hx]; [now left |].
        right. intros Hin. apply Hx. now right.
Qed.

(** [Set] of a value with its tags on a stash with the built-in cache and
    the storage of the tests, whose (value, tag) pairs are distinct: when
    [Set] succeeds, the storage has for each of the tags one entry of the
    value, and its tag index is the position of the tag in the arguments,
    the last one when the tag is named more than once.  The pairs are still
    distinct, and the entries of other values and of other tags are the
    ones that were stored. *)
Theorem Set_stores_positions (t t' : TagStash C mock.mockStorage)
    (value : string) (tags : list string) :
  List.NoDup (map pairOf (mock.entries (storage t))) ->
  TagStash_Set cacheStorage mock.asStorage t value tags = (None, t') ->
  List.NoDup (map pairOf (mock.entries (storage t')))
  /\ (forall tag, In tag tags ->
        exists x, In x (mock.entries (storage t'))
                  /\ pairOf x = (value, tag))
  /\ (forall x, In x (mock.entries (storage t')) ->
        Value x = value -> In (Tag x) tags ->
        TagIndex x = position tags (Tag x)
        /\ tags !! Z.to_nat (TagIndex x) = Some (Tag x))
  /\ (forall x, Value x <> value \/ ~ In (Tag x) tags ->
        (In x (mock.entries (storage t'))
         <-> In x (mock.entries (storage t)))).
Proof.
  intros Hnd Hset. unfold TagStash_Set in Hset.
  destruct (Set_loop_positions tags t t' value 0 Hnd Hset)
    as (Hnd' & Hpos & Hkeep).
  split; [exact Hnd' |]. split; [|split; [|exact Hkeep]].
  - intros tag Htag. destruct (Hpos tag Htag) as (x & Hx & Hp & _). eauto.
  - intros x Hx Hv Htag.
    destruct (Hpos (Tag x) Htag) as (y & Hy & Hp & Hi).
    assert (Hxy : x = y).
    { apply (NoDup_map_inj pairOf _ x y Hnd' Hx Hy).
      rewrite Hp. unfold pairOf. now rewrite Hv. }
    subst y. rewrite Hi, Z.add_0_l. split; [reflexivity |].
    now apply position_lookup.
Qed.

End SetPositions.

(** ** [GetAll] and [Get]: the values *)

Section GetAllValues.
Context {C S : Type} (cacheI : Storage C) (storageI : Storage S).
Context {sorter : Sorter} {SL : SorterLaws sorter}.

(** A result of [getAll]: what went into it, and its values. *)
Lemma getAll_inv (t : TagStash C S) (tags : list string) (r : list Entry)
    (t' : TagStash C S) :
  getAll cacheI storageI t tags = (inr r, t') ->
  exists cached c1 stored s1 c2,
    st_Get cacheI (cache t) tags = (inr cached, c1)
    /\ st_Get storageI (storage t) (fst (setRequestIndex tags cached))
       = (inr stored, s1)
    /\ cacheStored cacheI c1 stored = (None, c2)
    /\ t' = mkTagStash c2 s1
    /\ forall v, In v (map Value r) <-> In v (map Value (cached ++ stored)).
Proof.
  intros Hg. pose proof Hg as Hg'. unfold getAll in Hg.
  destruct (st_Get cacheI (cache t) tags) as [[err | cached] c1] eqn:Hc;
    [discriminate |].
  destruct (setRequestIndex tags cached) as [notCached entries] eqn:Hre.
  destruct (st_Get storageI (storage t) notCached)
    as [[err | stored] s1] eqn:Hs; [discriminate |].
  destruct (cacheStored cacheI c1 stored) as [[err|] c2] eqn:Hw;
    [discriminate |].
  exists cached, c1, stored, s1, c2. rewrite Hre. cbn [fst].
  split; [reflexivity |]. split; [exact Hs |]. split; [exact Hw |].
  rewrite (getAll_success cacheI storageI t tags cached c1 stored s1 c2)
    in Hg'; [| assumption | now rewrite Hre | assumption].
  injection Hg' as <- <-. split; [reflexivity |]. intros v.
  destruct (dedup_values (map (annotate 0 tags) (cached ++ stored)) [])
    as [_ Hin]; [constructor |].
  rewrite <- (map_Value_annotate 0 tags (cached ++ stored)).
  specialize (Hin v). cbn [map In] in Hin.
  rewrite <- uniqueValues_dedup in Hin.
  pose proof (sort_perm
                (uniqueValues (map (annotate 0 tags) (cached ++ stored))))
    as Hperm.
  split.
  - intros Hv. apply (Permutation_in _ (Permutation_map Value Hperm)) in Hv.
    tauto.
  - intros Hv.
    apply (Permutation_in _ (Permutation_sym (Permutation_map Value Hperm))).
    tauto.
Qed.

(** Whenever [GetAll] succeeds, the values it returns are distinct and are
    the values of the entries that the cache and the storage returned for
    the query, whatever their tags and numbers; [Get] returns the first of
    them, or the empty string when there is none, and both leave the stash
    in the same state. *)
Theorem GetAll_values (t : TagStash C S) (tags : list string)
    (values : list string) (t' : TagStash C S) :
  GetAll cacheI storageI t tags = (inr values, t') ->
  List.NoDup values
  /\ Get cacheI storageI t tags = (inr (hd "" values), t')
  /\ exists cached c1 stored s1 c2,
       st_Get cacheI (cache t) tags = (inr cached, c1)
       /\ st_Get storageI (storage t) (fst (setRequestIndex tags cached))
          = (inr stored, s1)
       /\ cacheStored cacheI c1 stored = (None, c2)
       /\ t' = mkTagStash c2 s1
       /\ forall v, In v values <-> In v (map Value (cached ++ stored)).
Proof.
  unfold GetAll, Get.
  destruct (getAll cacheI storageI t tags) as [[err | r] t0] eqn:Hall;
    [discriminate |].
  intros [= <- <-]. unfold mapEntries.
  destruct (getAll_inv t tags r t0 Hall)
    as (cached & c1 & stored & s1 & c2 & Hc & Hs & Hw & Ht & Hv).
  split; [|split].
  - rewrite (getAll_success cacheI storageI t tags cached c1 stored s1 c2
               Hc Hs Hw) in Hall.
    injection Hall as <- _.
    pose proof (sort_perm
                  (uniqueValues (map (annotate 0 tags) (cached ++ stored))))
      as Hperm.
    apply (Permutation_NoDup (Permutation_sym (Permutation_map Value Hperm))).
    rewrite uniqueValues_dedup. apply dedup_values. constructor.
  - now destruct r.
  - exists cached, c1, stored, s1, c2. auto.
Qed.

End GetAllValues.

(** ** [Remove], then a query *)

Section RemoveThenQuery.
Context {K : Keyval} {KL : KeyvalLaws K}.
Context {C : Type} {F : Forget C} {FL : ForgetLaws F}.
Context {sorter : Sorter} {SL : SorterLaws sorter}.

(** After [Remove] of a value and a tag has succeeded, on a stash with the
    built-in cache and the storage of the tests, a query for the tag does
    not return the value: neither from the cache, where the record of the
    value is gone, nor from the storage, where the entry of the pair is
    gone.  The record list of the tag has distinct values and writable
    records, and the pairs of the storage are distinct. *)
Theorem Remove_then_GetAll (t : TagStash C mock.mockStorage)
    (value tag : string) (l : list Entry)
    (t1 : TagStash C mock.mockStorage) (values : list string)
    (t2 : TagStash C mock.mockStorage) :
  cached (cache t) tag = inr l ->
  List.NoDup (map Value l) ->
  Forall writable l ->
  List.NoDup (map pairOf (mock.entries (storage t))) ->
  TagStash_Remove cacheStorage mock.asStorage t value tag = (None, t1) ->
  GetAll cacheStorage mock.asStorage t1 [tag] = (inr values, t2) ->
  ~ In value values.
Proof.
  intros Hl Hnd Hwf Hpairs Hrem Hget.
  unfold TagStash_Remove in Hrem.
  cbn [st_Remove cacheStorage mock.asStorage] in Hrem.
  set (e := newEntry value tag 0) in *.
  destruct (cache_Remove (cache t) e) as [[err|] c'] eqn:Hc; [discriminate |].
  destruct (mock.Remove (storage t) e) as [[err|] m'] eqn:Hm;
    [discriminate |].
  injection Hrem as <-.
  (* the cache *)
  destruct (cache_Remove_op_spec e l Hnd) as (_ & R2 & _).
  assert (Hwf' : Forall writable (cache_Remove_op e l)).
  { rewrite List.Forall_forall in *. intros x Hx. apply Hwf.
    now apply cache_Remove_op_incl in Hx. }
  assert (Hcached : cache_Get c' [tag]
                    = inr (reread tag (cache_Remove_op e l))).
  { apply cache_Get_single.
    apply (cached_after_write c' tag (cache_Remove_op e l)); [|assumption].
    exact (withTagEntries_written _ _ _ _ _ Hl Hc). }
  (* the storage *)
  unfold mock.Remove in Hm.
  destruct (mock.failNext (storage t)); [discriminate |].
  injection Hm as <-. rewrite (Remove_first_filter e _ Hpairs) in Hget.
  (* the query *)
  unfold GetAll in Hget.
  destruct (getAll cacheStorage mock.asStorage _ [tag])
    as [[err | r] t3] eqn:Hall; [discriminate |].
  injection Hget as <- <-.
  destruct (getAll_inv cacheStorage mock.asStorage _ _ _ _ Hall)
    as (cachedL & c1 & stored & s1 & c2 & Hcg & Hsg & _ & _ & Hvals).
  cbn [st_Get cacheStorage cache] in Hcg. rewrite Hcached in Hcg.
  injection Hcg as <- <-.
  cbn [st_Get mock.asStorage storage] in Hsg.
  unfold mapEntries. rewrite Hvals, map_app, in_app_iff.
  intros [Hin | Hin].
  - unfold reread in Hin. rewrite map_map in Hin. cbn [Value newEntry] in Hin.
    exact (R2 Hin).
  - rewrite mock_Get_ok in Hsg by reflexivity. injection Hsg as <- <-.
    apply in_map_iff in Hin as (x & Hv & Hx).
    apply mock_found_In in Hx as [Hx Ht]. cbn [mock.entries] in Hx.
    apply filter_In in Hx as [_ Hk].
    apply negb_true_iff, samePair_false in Hk. apply Hk.
    rewrite setRequestIndex_spec in Ht. cbn [fst] in Ht.
    apply filter_In in Ht as [[Ht | []] _].
    unfold pairOf, e. cbn [Value Tag newEntry]. congruence.
Qed.

End RemoveThenQuery.

(** ** The match counts of a stash *)

Section MatchCountStash.
Context {K : Keyval} {C : Type} {F : Forget C}.
Context {S : Type} (storageI : Storage S).
Context {sorter : Sorter} {SL : SorterLaws sorter}.

(** The storage holds the associations [rows]: whatever tags it is asked
    for, none twice, what it returns when it does not fail are, once each,
    the associations that have one of these tags.  This is what the
    interface [Storage] asks of [Get] and of the uniqueness of the
    pairs. *)
Definition holds (s : S) (rows : list Entry) : Prop :=
  forall asked stored s1,
    List.NoDup asked ->
    st_Get storageI s asked = (inr stored, s1) ->
    answered rows asked stored.







End MatchCountStash.



(** The built-in storage holds the rows of its data base, when no pair of
    value and tag has two rows. *)
Lemma sqlstorage_holds (s : sqlstorage.db) :
  uniqueRows s ->
  holds sqlstorage.asStorage s
    (map (fun r => newEntry (sqlstorage.r_value r) (sqlstorage.r_tag r)
                     (sqlstorage.r_index r))
       (sqlstorage.rows s)).
Proof.
  intros Hrows asked stored s1 _. cbn [st_Get sqlstorage.asStorage].
  unfold sqlstorage.Get.
  assert (Hmap : forall l,
             map pairOf
               (map (fun r => newEntry (sqlstorage.r_value r)
                                (sqlstorage.r_tag r) (sqlstorage.r_index r)) l)
             = map rowKey l).
  { intros l. rewrite map_map. now apply map_ext. }
  destruct asked as [|a asked'] eqn:Hasked.
  - intros [= <- <-]. split; [constructor |]. intros v t. cbn. tauto.
  - rewrite <- Hasked. destruct (sqlstorage.fault s); [discriminate |].
    intros [= <- <-]. clear Hasked. unfold answered. rewrite !Hmap.
    unfold sqlstorage.Cmd_get_entries.
    split; [now apply NoDup_map_filter |].
    intros v t. rewrite !in_map_iff. split.
    + intros (r & Hk & Hr). apply filter_In in Hr as [Hr Htag].
      apply existsb_eqb_In in Htag. unfold rowKey in Hk.
      injection Hk as Hv Ht. subst. eauto.
    + intros [(r & Hk & Hr) Ht]. exists r. split; [assumption |].
      apply filter_In. split; [assumption |]. apply existsb_eqb_In.
      unfold rowKey in Hk. injection Hk as _ Hk. now rewrite Hk.
Qed.

(** * The reference implementations meet the contracts *)

Module lineCodecFacts.
Import lineCodec.

Lemma append_cons x (a b : string) : String x a +:+ b = String x (a +:+ b).
Proof. reflexivity. Qed.

Lemma append_nil (b : string) : "" +:+ b = b.
Proof. reflexivity. Qed.

Lemma append_assoc (a b c : string) : (a +:+ b) +:+ c = a +:+ (b +:+ c).
Proof.
  induction a as [|x a IH]; [reflexivity |].
  rewrite !append_cons. f_equal. exact IH.
Qed.

Lemma string_of_list_byte_app (a b : list byte) :
  string_of_list_byte (a ++ b)
  = string_of_list_byte a +:+ string_of_list_byte b.
Proof.
  induction a as [|x a IH]; [reflexivity |].
  cbn [app]. change (string_of_list_byte (x :: a ++ b))
    with (String (ascii_of_byte x) (string_of_list_byte (a ++ b))).
  now rewrite IH.
Qed.

Lemma free_app c (a b : string) : free c (a +:+ b) = free c a && free c b.
Proof.
  induction a as [|x a IH]; [reflexivity |].
  rewrite append_cons. cbn [free]. rewrite IH. now rewrite andb_assoc.
Qed.

Lemma lines_line l rest :
  free lf l = true ->
  lines (l +:+ String lf rest) = (l :: fst (lines rest), snd (lines rest)).
Proof.
  induction l as [|a l IH]; intros Hfree.
  - rewrite append_nil. cbn [lines]. rewrite Ascii.eqb_refl.
    now destruct (lines rest).
  - cbn [free] in Hfree. apply andb_true_iff in Hfree as [Ha Hl].
    rewrite append_cons. cbn [lines]. rewrite (IH Hl).
    apply negb_true_iff in Ha. now rewrite Ha.
Qed.

Lemma break_line c p r :
  free c p = true -> break c (p +:+ String c r) = Some (p, r).
Proof.
  induction p as [|a p IH]; intros Hfree.
  - rewrite append_nil. cbn [break]. now rewrite Ascii.eqb_refl.
  - cbn [free] in Hfree. apply andb_true_iff in Hfree as [Ha Hp].
    rewrite append_cons. cbn [break]. apply negb_true_iff in Ha.
    now rewrite Ha, (IH Hp).
Qed.

Lemma split_free c t : free c t = true -> split c t = [t].
Proof.
  induction t as [|a t IH]; intros Hfree; [reflexivity |].
  cbn [free] in Hfree. apply andb_true_iff in Hfree as [Ha Ht].
  cbn [split]. apply negb_true_iff in Ha. now rewrite Ha, (IH Ht).
Qed.

Lemma split_field c t r :
  free c t = true -> split c (t +:+ String c r) = t :: split c r.
Proof.
  induction t as [|a t IH]; intros Hfree.
  - rewrite append_nil. cbn [split]. now rewrite Ascii.eqb_refl.
  - cbn [free] in Hfree. apply andb_true_iff in Hfree as [Ha Ht].
    rewrite append_cons. cbn [split]. apply negb_true_iff in Ha.
    now rewrite Ha, (IH Ht).
Qed.

Lemma token_parts s :
  token s = true ->
  s <> "" /\ free dot s = true /\ free eq_sign s = true /\ free lf s = true.
Proof.
  unfold token. rewrite !andb_true_iff, negb_true_iff, String.eqb_neq.
  tauto.
Qed.

Lemma split_join ts :
  ts <> [] -> forallb token ts = true -> split dot (join ts) = ts.
Proof.
  induction ts as [|t ts IH]; intros Hne Htok; [contradiction |].
  cbn [forallb] in Htok. apply andb_true_iff in Htok as [Ht Hts].
  destruct (token_parts t Ht) as (_ & Hdot & _).
  destruct ts as [|t' ts].
  - cbn [join]. now apply split_free.
  - change (join (t :: t' :: ts)) with (t +:+ String dot (join (t' :: ts))).
    rewrite split_field by assumption. f_equal. now apply IH.
Qed.

Lemma join_nonempty t ts : t <> "" -> join (t :: ts) <> "".
Proof.
  intros Ht. destruct ts; cbn [join]; [assumption |].
  destruct t; [contradiction | discriminate].
Qed.

Lemma tokens_join ts : forallb token ts = true -> tokens (join ts) = ts.
Proof.
  intros Htok. destruct ts as [|t ts]; [reflexivity |].
  assert (Hne : join (t :: ts) <> "").
  { apply join_nonempty. cbn [forallb] in Htok.
    apply andb_true_iff in Htok as [Ht _]. now apply token_parts in Ht. }
  unfold tokens. destruct (join (t :: ts)) eqn:Hj; [contradiction |].
  rewrite <- Hj. now apply split_join.
Qed.

Lemma free_join c ts :
  Ascii.eqb dot c = false ->
  forallb (free c) ts = true -> free c (join ts) = true.
Proof.
  intros Hc. induction ts as [|t ts IH]; intros Hts; [reflexivity |].
  cbn [forallb] in Hts. apply andb_true_iff in Hts as [Ht Hts].
  destruct ts as [|t' ts]; [exact Ht |].
  change (join (t :: t' :: ts)) with (t +:+ String dot (join (t' :: ts))).
  rewrite free_app, Ht. cbn [free andb]. rewrite Hc. cbn [negb andb].
  now apply IH.
Qed.

Lemma forallb_token_free ts :
  forallb token ts = true ->
  forallb (free eq_sign) ts = true /\ forallb (free lf) ts = true.
Proof.
  induction ts as [|t ts IH]; intros Hts; [now split |].
  cbn [forallb] in *. apply andb_true_iff in Hts as [Ht Hts].
  destruct (token_parts t Ht) as (_ & _ & He & Hl).
  destruct (IH Hts) as [IH1 IH2]. now rewrite He, Hl, IH1, IH2.
Qed.

(** The line of a record, without its line feed. *)
Definition line (e : KvEntry) : string :=
  join (Key e) +:+ String eq_sign (Val e).

Lemma record_line e : record e = line e +:+ String lf "".
Proof. unfold record, line. now rewrite append_assoc. Qed.

Lemma line_free e : wf e = true -> free lf (line e) = true.
Proof.
  unfold wf, line. intros Hwf. apply andb_true_iff in Hwf as [Hk Hv].
  rewrite free_app. cbn [free]. rewrite Hv.
  destruct (forallb_token_free _ Hk) as [_ Hl].
  rewrite free_join by (assumption || reflexivity). reflexivity.
Qed.

Lemma parseLine_line e : wf e = true -> parseLine (line e) = ReadOk e.
Proof.
  unfold wf, line, parseLine. intros Hwf.
  apply andb_true_iff in Hwf as [Hk Hv].
  destruct (forallb_token_free _ Hk) as [He _].
  rewrite break_line by (apply free_join; [reflexivity | assumption]).
  rewrite tokens_join by assumption. now destruct e.
Qed.

(** The text of a list of records. *)
Fixpoint text (kvs : list KvEntry) : string :=
  match kvs with
  | [] => ""
  | e :: kvs' => record e +:+ text kvs'
  end.

Lemma text_written kvs :
  string_of_list_byte (flat_map WriteEntry kvs) = text kvs.
Proof.
  induction kvs as [|e kvs IH]; [reflexivity |].
  cbn [flat_map text]. rewrite string_of_list_byte_app, IH.
  unfold WriteEntry. now rewrite string_of_list_byte_of_string.
Qed.

Lemma lines_text kvs :
  forallb wf kvs = true -> lines (text kvs) = (map line kvs, "").
Proof.
  induction kvs as [|e kvs IH]; intros Hwf; [reflexivity |].
  cbn [forallb] in Hwf. apply andb_true_iff in Hwf as [He Hkvs].
  cbn [text map]. rewrite record_line, append_assoc.
  rewrite append_cons, append_nil. rewrite lines_line by now apply line_free.
  now rewrite (IH Hkvs).
Qed.

Lemma ReadEntries_written kvs :
  Forall (fun e => wf e = true) kvs ->
  ReadEntries (flat_map WriteEntry kvs) = map ReadOk kvs ++ [ReadErr io_EOF].
Proof.
  intros Hwf. unfold ReadEntries. rewrite text_written, lines_text.
  - f_equal. rewrite map_map. apply map_ext_in. intros e He.
    apply parseLine_line. rewrite List.Forall_forall in Hwf. now apply Hwf.
  - apply forallb_forall. rewrite List.Forall_forall in Hwf. exact Hwf.
Qed.

#[export] Instance laws : KeyvalLaws codec :=
  {| kv_wf := fun e => wf e = true; kv_read_written := ReadEntries_written |}.

End lineCodecFacts.

Module mapForgetFacts.
Import mapForget.

Lemma Set_ok c key c' : Set_ c key = (true, c') -> Get c' key = Some [].
Proof.
  unfold Set_, Get. destruct (cacheSize c <? size key [])%nat;
    intros [= <-]. cbn. apply lookup_insert_eq.
Qed.

Lemma Write_ok c key b c' :
  Write_ c key b = (None, c') ->
  exists old, Get c key = Some old /\ Get c' key = Some (old ++ b).
Proof.
  unfold Write_, Get. destruct (items c !! key) as [old|]; [|discriminate].
  destruct (cacheSize c <? size key (old ++ b))%nat; intros [= <-].
  exists old. split; [reflexivity |]. cbn. apply lookup_insert_eq.
Qed.

#[export] Instance laws : ForgetLaws forget :=
  {| forget_Set_ok := Set_ok; forget_Write_ok := Write_ok |}.

Lemma Delete_gone c key :
  Get (Delete c key) key = None.
Proof. unfold Get, Delete. cbn. apply lookup_delete_eq. Qed.

Lemma Delete_others c key key' :
  key' <> key ->
  Get (Delete c key) key' = Get c key'.
Proof.
  intros Hne. unfold Get, Delete. cbn.
  now apply lookup_delete_ne.
Qed.

#[export] Instance deleteLaws : ForgetDeleteLaws forget :=
  {| forget_Delete_gone := Delete_gone;
     forget_Delete_others := Delete_others |}.

End mapForgetFacts.

Module shortSortFacts.
Import shortSort.

(** The reverse of a sorted slice: no element is [Less] than the next. *)
Definition backSorted (rp : list Entry) : Prop :=
  Sorted (fun a b => Less a b = false) rp.

Lemma Less_asym x y : Less x y = true -> Less y x = false.
Proof.
  intros Hxy. apply Less_false_iff. unfold ranksBefore.
  unfold Less in Hxy.
  destruct (Z.eqb_spec (requestTagMatch x) (requestTagMatch y)) as [He | Hn].
  - apply Z.ltb_lt in Hxy. lia.
  - destruct (Z.gtb_spec (requestTagMatch x) (requestTagMatch y));
      [lia | discriminate].
Qed.

Lemma insertBack_perm x rp : Permutation (insertBack x rp) (x :: rp).
Proof.
  induction rp as [|y rp IH]; [reflexivity |]. cbn [insertBack].
  destruct (Less x y); [|reflexivity].
  rewrite IH. apply perm_swap.
Qed.

Lemma insertBack_head x y rp :
  Less y x = false ->
  HdRel (fun a b => Less a b = false) y rp ->
  HdRel (fun a b => Less a b = false) y (insertBack x rp).
Proof.
  intros Hyx Hhd. destruct rp as [|z rp]; cbn [insertBack].
  - now constructor.
  - inversion Hhd; subst. destruct (Less x z); now constructor.
Qed.

Lemma insertBack_sorted x rp : backSorted rp -> backSorted (insertBack x rp).
Proof.
  unfold backSorted. induction rp as [|y rp IH]; intros Hs.
  - repeat constructor.
  - inversion Hs as [|? ? Hs' Hhd]; subst. cbn [insertBack].
    destruct (Less x y) eqn:Hxy.
    + constructor; [now apply IH |].
      apply insertBack_head; [now apply Less_asym | assumption].
    + constructor; [assumption | now constructor].
Qed.

Lemma insertionSort_loop_perm l : forall rp,
  Permutation (insertionSort_loop rp l) (rev rp ++ l).
Proof.
  induction l as [|x l IH]; intros rp; cbn [insertionSort_loop].
  - now rewrite app_nil_r.
  - rewrite IH. rewrite (Permutation_rev (insertBack x rp)) at 1.
    rewrite rev_involutive, insertBack_perm.
    rewrite <- Permutation_rev. apply Permutation_middle.
Qed.

Lemma insertionSort_loop_sorted l : forall rp,
  backSorted rp ->
  Sorted (fun a b => Less b a = false) (insertionSort_loop rp l).
Proof.
  induction l as [|x l IH]; intros rp Hs; cbn [insertionSort_loop].
  - rewrite rev_alt. apply (Sorted_reverse _ rp Hs).
  - apply IH. now apply insertBack_sorted.
Qed.

Lemma replace_perm (l : list Entry) : forall j y a,
  l !! j = Some y -> Permutation (y :: <[j := a]> l) (a :: l).
Proof.
  induction l as [|b l IH]; intros j y a Hj; [discriminate |].
  destruct j as [|j]; cbn in Hj |- *.
  - injection Hj as ->. apply perm_swap.
  - rewrite perm_swap. rewrite (IH j y a Hj). apply perm_swap.
Qed.

Lemma swap_perm (l : list Entry) : forall i j x y,
  l !! i = Some x -> l !! j = Some y ->
  Permutation (<[i := y]> (<[j := x]> l)) l.
Proof.
  induction l as [|a l IH]; intros i j x y Hi Hj; [discriminate |].
  destruct i as [|i], j as [|j]; cbn in Hi, Hj |- *.
  - injection Hi as <-. injection Hj as <-. reflexivity.
  - injection Hi as ->. now apply replace_perm.
  - injection Hj as ->. now apply replace_perm.
  - apply perm_skip. now apply IH with (x := x) (y := y).
Qed.

Lemma shellStep_perm i l : Permutation (shellStep i l) l.
Proof.
  unfold shellStep. destruct (l !! i) as [x|] eqn:Hi; [|reflexivity].
  destruct (l !! (i - 6)%nat) as [y|] eqn:Hj; [|reflexivity].
  destruct (Less x y); [|reflexivity]. now apply swap_perm.
Qed.

Lemma shellPass_perm n : forall i l, Permutation (shellPass n i l) l.
Proof.
  induction n as [|n IH]; intros i l; [reflexivity |].
  cbn [shellPass]. rewrite IH. apply shellStep_perm.
Qed.

Lemma Sort_perm l : Permutation (Sort l) l.
Proof.
  unfold Sort, insertionSort. rewrite insertionSort_loop_perm.
  cbn [rev app]. apply shellPass_perm.
Qed.

Lemma Sort_sorted l : Sorted (fun a b => Less b a = false) (Sort l).
Proof.
  unfold Sort, insertionSort. apply insertionSort_loop_sorted. constructor.
Qed.

#[export] Instance laws : SorterLaws sorter :=
  {| sort_perm := Sort_perm; sort_sorted := Sort_sorted |}.

Lemma insertionSort_perm l : Permutation (insertionSort l) l.
Proof. unfold insertionSort. now rewrite insertionSort_loop_perm. Qed.

Lemma insertionSort_sorted l :
  Sorted (fun a b => Less b a = false) (insertionSort l).
Proof. apply insertionSort_loop_sorted. constructor. Qed.

Definition insertionLaws : SorterLaws insertionSorter :=
  {| sort_perm := insertionSort_perm; sort_sorted := insertionSort_sorted |}.

End shortSortFacts.


(** * Worked examples

    A stash over the reference implementations: the cache over the line
    codec and the one-segment blob cache, the storage over a table. *)

Module demo.

Definition cacheI : Storage mapForget.state :=
  cacheStorage (K := lineCodec.codec) (F := mapForget.forget).

Definition sqlI : Storage sqlstorage.db := sqlstorage.asStorage.

Definition mockI : Storage mock.mockStorage := mock.asStorage.

(** An empty stash with a cache of [size] bytes. *)
Definition stash (size : nat) : TagStash mapForget.state sqlstorage.db :=
  mkTagStash (mapForget.empty size) (sqlstorage.mkDb [] None).

Definition after_Set (t : TagStash mapForget.state sqlstorage.db)
    (value : string) (tags : list string)
    : TagStash mapForget.state sqlstorage.db :=
  snd (TagStash_Set cacheI sqlI t value tags).

(** The bytes of some lines of text. *)
Definition lines (ls : list string) : list byte :=
  flat_map (fun l => list_byte_of_string (l +:+ String lineCodec.lf "")) ls.

(** A blob cache with one item. *)
Definition holding (key : string) (content : list byte) : mapForget.state :=
  mapForget.mkState {[ key := content ]} 4096.

(** Scenario C of the specification. *)
Definition stashC : TagStash mapForget.state sqlstorage.db :=
  after_Set (after_Set (stash 4096) "u1" ["foo"; "bar"; "baz"])
    "u2" ["bar"; "foo"; "qux"].

Definition queryC : list string := ["foo"; "bar"; "baz"; "qux"; "quux"].


(** Six values with the tag a, and a seventh with the tags a and b. *)
Definition stash7 : TagStash mapForget.state sqlstorage.db :=
  after_Set
    (fold_left (fun t v => after_Set t v ["a"])
       ["v0"; "v1"; "v2"; "v3"; "v4"; "v5"] (stash 4096))
    "v6" ["a"; "b"].

(** The deduplicated entries of the query a, b on [stash7], before the
    sort. *)
Definition unsorted7 : list Entry :=
  [mkEntry "v0" "a" 0 1 0; mkEntry "v1" "a" 0 1 0; mkEntry "v2" "a" 0 1 0;
   mkEntry "v3" "a" 0 1 0; mkEntry "v4" "a" 0 1 0; mkEntry "v5" "a" 0 1 0;
   mkEntry "v6" "a" 0 2 0].

End demo.

Example scenarios :
  fst (Get (sorter := shortSort.sorter) demo.cacheI demo.sqlI
         (demo.after_Set (demo.stash 4096) "u1" ["foo"; "bar"; "baz"])
         ["foo"; "bar"; "qux"]) = inr "u1"
  /\ fst (Get (sorter := shortSort.sorter) demo.cacheI demo.sqlI
            (demo.after_Set
               (demo.after_Set (demo.stash 4096) "u1" ["foo"; "bar"; "baz"])
               "u2" ["foo"; "qux"; "quux"])
            ["foo"; "bar"; "qux"; "quux"]) = inr "u2"
  /\ fst (Get (sorter := shortSort.sorter) demo.cacheI demo.sqlI
            demo.stashC demo.queryC) = inr "u1".
Proof. repeat split; vm_compute; reflexivity. Qed.

(** ** The properties on the examples *)

#[local] Existing Instance lineCodec.codec.
#[local] Existing Instance lineCodecFacts.laws.
#[local] Existing Instance mapForget.forget.
#[local] Existing Instance mapForgetFacts.laws.
#[local] Existing Instance shortSortFacts.laws.

(** An item that is no record at all: decoding fails, and [Set] and
    [Remove] leave the cache as it is. *)
Lemma cache_write_decode_error_witness :
  forget_Get (demo.holding "foo" (list_byte_of_string "["))
    (Tag (newEntry "u2" "foo" 0)) = Some (list_byte_of_string "[")
  /\ readAll (list_byte_of_string "[") (Tag (newEntry "u2" "foo" 0))
     = inl (ErrKeyval "unterminated record")
  /\ cache_Set (demo.holding "foo" (list_byte_of_string "["))
       (newEntry "u2" "foo" 0)
     = (Some (ErrKeyval "unterminated record"),
        demo.holding "foo" (list_byte_of_string "["))
  /\ cache_Remove (demo.holding "foo" (list_byte_of_string "["))
       (newEntry "u2" "foo" 0)
     = (Some (ErrKeyval "unterminated record"),
        demo.holding "foo" (list_byte_of_string "[")).
Proof.
  assert (H1 : forget_Get (demo.holding "foo" (list_byte_of_string "["))
                 (Tag (newEntry "u2" "foo" 0))
               = Some (list_byte_of_string "["))
    by (vm_compute; reflexivity).
  assert (H2 : readAll (list_byte_of_string "[") (Tag (newEntry "u2" "foo" 0))
               = inl (ErrKeyval "unterminated record"))
    by (vm_compute; reflexivity).
  split; [exact H1 |]. split; [exact H2 |].
  exact (cache_write_decode_error _ _ _ _ H1 H2).
Defined.

(** A record with a position that is no integer, after a well-formed one
    and before another: the conversion error, and no entries. *)
Lemma readAll_first_malformed_witness :
  kv_ReadEntries (demo.lines ["a=1"; "b=x"; "c=2"])
  = map ReadOk [mkKv ["a"] "1"]
    ++ ReadOk (mkKv ["b"] "x") :: [ReadOk (mkKv ["c"] "2"); ReadErr io_EOF]
  /\ Forall wellFormed [mkKv ["a"] "1"]
  /\ ~ wellFormed (mkKv ["b"] "x")
  /\ readAll (demo.lines ["a=1"; "b=x"; "c=2"]) "foo"
     = inl (NumError "Atoi" "x" ErrSyntax).
Proof.
  assert (H1 : kv_ReadEntries (demo.lines ["a=1"; "b=x"; "c=2"])
               = map ReadOk [mkKv ["a"] "1"]
                 ++ ReadOk (mkKv ["b"] "x")
                    :: [ReadOk (mkKv ["c"] "2"); ReadErr io_EOF])
    by (vm_compute; reflexivity).
  assert (H2 : Forall wellFormed [mkKv ["a"] "1"]).
  { constructor; [|constructor]. split; [now exists "a" | now exists 1]. }
  assert (H3 : ~ wellFormed (mkKv ["b"] "x")).
  { intros [_ [i Hi]]. vm_compute in Hi. discriminate. }
  split; [exact H1 |]. split; [exact H2 |]. split; [exact H3 |].
  apply (proj1 (proj2 (proj2
           (readAll_first_malformed _ "foo" _ _ _ H1 H2 H3)))).
  vm_compute. reflexivity.
Defined.

(** C4 as the specification has it fails on a position that is no integer:
    the error is not [ErrDamagedCacheData], for a lone record and for one
    that follows a well-formed record. *)
Lemma readAll_bad_position_not_DamagedData :
  readAll (demo.lines ["u=a"]) "foo" = inl (NumError "Atoi" "a" ErrSyntax)
  /\ readAll (demo.lines ["v=1"; "u=a"]) "foo"
     = inl (NumError "Atoi" "a" ErrSyntax)
  /\ readAll (demo.lines ["u=a"]) "foo" <> inl ErrDamagedCacheData
  /\ readAll (demo.lines ["v=1"; "u=a"]) "foo" <> inl ErrDamagedCacheData.
Proof.
  repeat split; try (vm_compute; reflexivity);
    vm_compute; intros Heq; discriminate Heq.
Qed.

(** Two records of the tag foo, one with a negative position. *)
Lemma decode_encode_roundtrip_witness :
  Forall (fun e => Tag e = "foo" /\ GoInt.is_int (TagIndex e)
                   /\ kv_wf (kvOf e))
    [newEntry "u1" "foo" 0; newEntry "u2" "foo" (-3)]
  /\ exists l',
       readAll (encode [newEntry "u1" "foo" 0; newEntry "u2" "foo" (-3)]) "foo"
       = inr l'
       /\ map content l'
          = map content [newEntry "u1" "foo" 0; newEntry "u2" "foo" (-3)].
Proof.
  assert (H1 : Forall (fun e => Tag e = "foo" /\ GoInt.is_int (TagIndex e)
                                /\ kv_wf (kvOf e))
                 [newEntry "u1" "foo" 0; newEntry "u2" "foo" (-3)]).
  { repeat constructor; try reflexivity;
      unfold GoInt.min_int, GoInt.max_int; cbn; lia. }
  split; [exact H1 |].
  exact (decode_encode_roundtrip "foo" _ H1).
Defined.



(** A cache too small for the tag foo: the storage has the entry, the cache
    refuses it, and the read fails. *)
Lemma getAll_cache_write_failure_witness :
  st_Get demo.cacheI (mapForget.empty 2) ["foo"] = (inr [], mapForget.empty 2)
  /\ st_Get demo.sqlI (sqlstorage.mkDb [sqlstorage.mkRow "foo" "u1" 0] None)
       (fst (setRequestIndex ["foo"] []))
     = (inr [newEntry "u1" "foo" 0],
        sqlstorage.mkDb [sqlstorage.mkRow "foo" "u1" 0] None)
  /\ cacheStored demo.cacheI (mapForget.empty 2) [] = (None, mapForget.empty 2)
  /\ st_Set demo.cacheI (mapForget.empty 2) (newEntry "u1" "foo" 0)
     = (Some ErrFailedToCacheEntry, mapForget.empty 2)
  /\ GetAll (sorter := shortSort.sorter) demo.cacheI demo.sqlI
       (mkTagStash (mapForget.empty 2)
          (sqlstorage.mkDb [sqlstorage.mkRow "foo" "u1" 0] None))
       ["foo"]
     = (inl ErrFailedToCacheEntry,
        mkTagStash (mapForget.empty 2)
          (sqlstorage.mkDb [sqlstorage.mkRow "foo" "u1" 0] None)).
Proof.
  assert (H1 : st_Get demo.cacheI (mapForget.empty 2) ["foo"]
               = (inr [], mapForget.empty 2)) by (vm_compute; reflexivity).
  assert (H2 : st_Get demo.sqlI
                 (sqlstorage.mkDb [sqlstorage.mkRow "foo" "u1" 0] None)
                 (fst (setRequestIndex ["foo"] []))
               = (inr [newEntry "u1" "foo" 0],
                  sqlstorage.mkDb [sqlstorage.mkRow "foo" "u1" 0] None))
    by (vm_compute; reflexivity).
  assert (H3 : cacheStored demo.cacheI (mapForget.empty 2) []
               = (None, mapForget.empty 2)) by reflexivity.
  assert (H4 : st_Set demo.cacheI (mapForget.empty 2) (newEntry "u1" "foo" 0)
               = (Some ErrFailedToCacheEntry, mapForget.empty 2))
    by (vm_compute; reflexivity).
  split; [exact H1 |]. split; [exact H2 |]. split; [exact H3 |].
  split; [exact H4 |].
  exact (proj2 (proj2
    (getAll_cache_write_failure (sorter := shortSort.sorter)
       demo.cacheI demo.sqlI
       (mkTagStash (mapForget.empty 2)
          (sqlstorage.mkDb [sqlstorage.mkRow "foo" "u1" 0] None))
       ["foo"] [] _ _ _ [] _ [] _ _ _ H1 H2 eq_refl H3 H4))).
Defined.

(** With a cache of 8 bytes the tag a is stored and cached, the second tag
    is stored and then refused by the cache: [Set] returns the error, the
    third tag is not stored, and the first two stay in the storage. *)
Lemma TagStash_Set_first_failure_witness :
  TagStash_Set demo.cacheI demo.sqlI (demo.stash 8) "u1" ["a"]
  = (None, demo.after_Set (demo.stash 8) "u1" ["a"])
  /\ fst (TagStash_Set demo.cacheI demo.sqlI (demo.stash 8) "u1"
            (["a"] ++ "toolongtag" :: ["b"]))
     = Some ErrFailedToCacheEntry
  /\ sqlstorage.rows
       (storage (snd (TagStash_Set demo.cacheI demo.sqlI (demo.stash 8) "u1"
                        (["a"] ++ "toolongtag" :: ["b"]))))
     = [sqlstorage.mkRow "a" "u1" 0; sqlstorage.mkRow "toolongtag" "u1" 1].
Proof.
  assert (H1 : TagStash_Set demo.cacheI demo.sqlI (demo.stash 8) "u1" ["a"]
               = (None, demo.after_Set (demo.stash 8) "u1" ["a"]))
    by (vm_compute; reflexivity).
  destruct (TagStash_Set_first_failure demo.cacheI demo.sqlI (demo.stash 8)
              "u1" ["a"] "toolongtag" ["b"] _ H1) as (_ & Hcache & _).
  split; [exact H1 |].
  rewrite (Hcache
    (snd (st_Set demo.sqlI
            (storage (demo.after_Set (demo.stash 8) "u1" ["a"]))
            (newEntry "u1" "toolongtag" 1)))
    ErrFailedToCacheEntry
    (snd (st_Set demo.cacheI
            (cache (demo.after_Set (demo.stash 8) "u1" ["a"]))
            (newEntry "u1" "toolongtag" 1)))
    ltac:(vm_compute; reflexivity) ltac:(vm_compute; reflexivity)).
  split; vm_compute; reflexivity.
Defined.

(** A storage that fails: [Set] returns its error and the cache is not
    written. *)
Example TagStash_Set_storage_fails :
  TagStash_Set demo.cacheI demo.mockI
    (mkTagStash (mapForget.empty 4096) (mock.mkMock [] true)) "u1" ["a"; "b"]
  = (Some mock.errForgedError,
     mkTagStash (mapForget.empty 4096) (mock.mkMock [] false)).
Proof. vm_compute. reflexivity. Qed.

(** The value u1 is cached and stored for foo at position 0 and is set again
    at position 5: one record, one row, both with position 5. *)
Lemma unique_pairs_preserved_witness :
  cached (cache (demo.after_Set (demo.stash 4096) "u1" ["foo"]))
    (Tag (newEntry "u1" "foo" 5)) = inr [newEntry "u1" "foo" 0]
  /\ List.NoDup (map Value [newEntry "u1" "foo" 0])
  /\ uniqueRows (storage (demo.after_Set (demo.stash 4096) "u1" ["foo"]))
  /\ List.NoDup
       (map Value (cache_Set_op (newEntry "u1" "foo" 5)
                     [newEntry "u1" "foo" 0]))
  /\ (forall x,
        In x (cache_Set_op (newEntry "u1" "foo" 5) [newEntry "u1" "foo" 0]) ->
        Value x = "u1" -> TagIndex x = 5)
  /\ (forall res s',
        sqlstorage.Set_
          (storage (demo.after_Set (demo.stash 4096) "u1" ["foo"]))
          (newEntry "u1" "foo" 5) = (res, s') ->
        uniqueRows s').
Proof.
  assert (H1 : cached (cache (demo.after_Set (demo.stash 4096) "u1" ["foo"]))
                 (Tag (newEntry "u1" "foo" 5)) = inr [newEntry "u1" "foo" 0])
    by (vm_compute; reflexivity).
  assert (H2 : List.NoDup (map Value [newEntry "u1" "foo" 0])).
  { constructor; [intros Hin; destruct Hin | constructor]. }
  assert (H3 : uniqueRows
                 (storage (demo.after_Set (demo.stash 4096) "u1" ["foo"]))).
  { unfold uniqueRows. vm_compute.
    constructor; [intros Hin; destruct Hin | constructor]. }
  destruct (unique_pairs_preserved _ _ _ _ (mock.mkMock [] false)
              H1 H2 H3 (List.NoDup_nil _))
    as ((S1 & _ & S3 & _) & _ & Hset & _).
  split; [exact H1 |]. split; [exact H2 |]. split; [exact H3 |].
  split; [exact S1 |]. split; [exact S3 |].
  intros res s' Hs. exact (proj1 (Hset res s' Hs)).
Defined.



(** Entries tied on both numbers keep their order from [l] to [out]. *)
Definition keepsTies (l out : list Entry) : Prop :=
  forall (i j : nat) (a b : Entry),
    (i < j)%nat -> l !! i = Some a -> l !! j = Some b ->
    rankKey a = rankKey b ->
    exists i' j' : nat,
      (i' < j')%nat /\ out !! i' = Some a /\ out !! j' = Some b.

(** C3 as the specification has it fails with the routine of Go's
    [sort.Sort] for short slices: seven values, the first six tied and the
    seventh with more matches; the Shell pass swaps the first and the
    seventh, and v0, which came before v1, is returned after it. *)
Lemma getAll_sort_not_stable :
  fst (getAll (sorter := shortSort.sorter) demo.cacheI demo.sqlI
         demo.stash7 ["a"; "b"])
  = inr (sort_Sort (Sorter := shortSort.sorter) demo.unsorted7)
  /\ fst (GetAll (sorter := shortSort.sorter) demo.cacheI demo.sqlI
            demo.stash7 ["a"; "b"])
     = inr ["v6"; "v1"; "v2"; "v3"; "v4"; "v5"; "v0"]
  /\ ~ keepsTies demo.unsorted7
         (sort_Sort (Sorter := shortSort.sorter) demo.unsorted7)
  /\ ~ (forall sorter : Sorter, SorterLaws sorter ->
         forall l, keepsTies l (sort_Sort l)).
Proof.
  split; [vm_compute; reflexivity |]. split; [vm_compute; reflexivity |].
  assert (Hnot : ~ keepsTies demo.unsorted7
                     (sort_Sort (Sorter := shortSort.sorter) demo.unsorted7));
    [|split; [exact Hnot |];
      intros Hall; exact (Hnot (Hall _ shortSortFacts.laws _))].
  intros Hk.
  destruct (Hk 0%nat 1%nat (mkEntry "v0" "a" 0 1 0) (mkEntry "v1" "a" 0 1 0))
    as (i' & j' & Hlt & Hi & Hj); try reflexivity; [lia |].
  vm_compute in Hi, Hj.
  assert (Hi6 : i' = 6%nat).
  { do 7 (destruct i' as [|i']; [first [discriminate Hi | reflexivity] |]).
    discriminate Hi. }
  assert (Hj1 : j' = 1%nat).
  { do 7 (destruct j' as [|j']; [first [discriminate Hj | reflexivity] |]).
    discriminate Hj. }
  lia.
Qed.

(** On [stash7] the two sorting routines return the same sequence of match
    counts and deltas. *)
Lemma getAll_order_up_to_ties_witness :
  getAll (sorter := shortSort.sorter) demo.cacheI demo.sqlI
    demo.stash7 ["a"; "b"]
  = (inr (shortSort.Sort demo.unsorted7), demo.stash7)
  /\ exists r2,
       getAll (sorter := shortSort.insertionSorter) demo.cacheI demo.sqlI
         demo.stash7 ["a"; "b"] = (inr r2, demo.stash7)
       /\ Permutation (shortSort.Sort demo.unsorted7) r2
       /\ map rankKey (shortSort.Sort demo.unsorted7) = map rankKey r2.
Proof.
  assert (H1 : getAll (sorter := shortSort.sorter) demo.cacheI demo.sqlI
                 demo.stash7 ["a"; "b"]
               = (inr (shortSort.Sort demo.unsorted7), demo.stash7))
    by (vm_compute; reflexivity).
  split; [exact H1 |].
  destruct (getAll_order_up_to_ties demo.cacheI demo.sqlI
              shortSort.sorter shortSort.insertionSorter
              shortSortFacts.laws shortSortFacts.insertionLaws
              demo.stash7 ["a"; "b"] _ _ H1) as (r2 & Hg & Hp & Hk & _).
  exists r2. split; [exact Hg |]. split; [exact Hp | exact Hk].
Defined.

(** ** The further properties on the examples *)

Definition mockStash : TagStash mapForget.state mock.mockStorage :=
  mkTagStash (mapForget.empty 4096) (mock.mkMock [] false).

Definition after_SetM (t : TagStash mapForget.state mock.mockStorage)
    (value : string) (tags : list string)
    : TagStash mapForget.state mock.mockStorage :=
  snd (TagStash_Set demo.cacheI demo.mockI t value tags).




(** Three entries of two values, each pointed to once. *)
Lemma uniqueValues_totals_witness :
  List.NoDup [0; 1; 2]%nat
  /\ sumDelta
       (pointees [mkEntry "u1" "foo" 0 0 1; mkEntry "u2" "foo" 1 0 0;
                  mkEntry "u1" "bar" 1 0 2] [0; 1; 2]%nat) = 3
  /\ pointees
       (snd (uniqueValues_at
               [mkEntry "u1" "foo" 0 0 1; mkEntry "u2" "foo" 1 0 0;
                mkEntry "u1" "bar" 1 0 2] [0; 1; 2]%nat))
       (fst (uniqueValues_at
               [mkEntry "u1" "foo" 0 0 1; mkEntry "u2" "foo" 1 0 0;
                mkEntry "u1" "bar" 1 0 2] [0; 1; 2]%nat))
     = [mkEntry "u1" "foo" 0 2 3; mkEntry "u2" "foo" 1 1 0]
  /\ sumMatch
       (pointees
          (snd (uniqueValues_at
                  [mkEntry "u1" "foo" 0 0 1; mkEntry "u2" "foo" 1 0 0;
                   mkEntry "u1" "bar" 1 0 2] [0; 1; 2]%nat))
          (fst (uniqueValues_at
                  [mkEntry "u1" "foo" 0 0 1; mkEntry "u2" "foo" 1 0 0;
                   mkEntry "u1" "bar" 1 0 2] [0; 1; 2]%nat)))
     = 3
  /\ sumDelta
       (pointees
          (snd (uniqueValues_at
                  [mkEntry "u1" "foo" 0 0 1; mkEntry "u2" "foo" 1 0 0;
                   mkEntry "u1" "bar" 1 0 2] [0; 1; 2]%nat))
          (fst (uniqueValues_at
                  [mkEntry "u1" "foo" 0 0 1; mkEntry "u2" "foo" 1 0 0;
                   mkEntry "u1" "bar" 1 0 2] [0; 1; 2]%nat)))
     = 3.
Proof.
  set (h := [mkEntry "u1" "foo" 0 0 1; mkEntry "u2" "foo" 1 0 0;
             mkEntry "u1" "bar" 1 0 2]).
  assert (H0 : forall p, In p [0; 1; 2]%nat -> (p < length h)%nat).
  { intros p Hp. cbn in *. lia. }
  assert (H1 : List.NoDup [0; 1; 2]%nat).
  { apply NoDup_ListNoDup. apply (bool_decide_unpack _). vm_compute. exact I. }
  assert (H2 : Z.of_nat (length [0; 1; 2]%nat) <= GoInt.max_int)
    by (vm_compute; discriminate).
  assert (H3 : forall x, In x (pointees h [0; 1; 2]%nat) ->
                         0 <= requestIndexDelta x).
  { intros x Hx. cbn in Hx.
    repeat (destruct Hx as [<- | Hx]; [cbn; lia |]). destruct Hx. }
  assert (H4 : sumDelta (pointees h [0; 1; 2]%nat) <= GoInt.max_int)
    by (vm_compute; discriminate).
  split; [exact H1 |]. split; [vm_compute; reflexivity |].
  split; [vm_compute; reflexivity |].
  exact (uniqueValues_totals h [0; 1; 2]%nat H0 H1 H2 H3 H4).
Defined.

(** The cache after u1 was set for foo and bar. *)
Lemma cache_Get_entries_witness :
  cache_Get (cache (demo.after_Set (demo.stash 4096) "u1" ["foo"; "bar"]))
    ["bar"; "qux"; "foo"]
  = inr [newEntry "u1" "bar" 1; newEntry "u1" "foo" 0]
  /\ Forall (fun e => In (Tag e) ["bar"; "qux"; "foo"]
                      /\ decodedFor (Tag e) e)
       [newEntry "u1" "bar" 1; newEntry "u1" "foo" 0].
Proof.
  assert (H1 : cache_Get
                 (cache (demo.after_Set (demo.stash 4096) "u1" ["foo"; "bar"]))
                 ["bar"; "qux"; "foo"]
               = inr [newEntry "u1" "bar" 1; newEntry "u1" "foo" 0])
    by (vm_compute; reflexivity).
  split; [exact H1 |].
  exact (proj2 (cache_Get_entries _ _ _ H1)).
Defined.


(** u1 and u2 are cached for foo, and u1 is removed. *)
Lemma cache_Remove_then_Get_witness :
  cached (cache (demo.after_Set
                   (demo.after_Set (demo.stash 4096) "u1" ["foo"])
                   "u2" ["bar"; "foo"]))
    (Tag (newEntry "u1" "foo" 0))
  = inr [newEntry "u1" "foo" 0; newEntry "u2" "foo" 1]
  /\ List.NoDup (map Value [newEntry "u1" "foo" 0; newEntry "u2" "foo" 1])
  /\ Forall writable [newEntry "u1" "foo" 0; newEntry "u2" "foo" 1]
  /\ cache_Get
       (snd (cache_Remove
               (cache (demo.after_Set
                         (demo.after_Set (demo.stash 4096) "u1" ["foo"])
                         "u2" ["bar"; "foo"]))
               (newEntry "u1" "foo" 0)))
       [Tag (newEntry "u1" "foo" 0)]
     = inr (reread (Tag (newEntry "u1" "foo" 0))
              (cache_Remove_op (newEntry "u1" "foo" 0)
                 [newEntry "u1" "foo" 0; newEntry "u2" "foo" 1])).
Proof.
  set (c := cache (demo.after_Set
                     (demo.after_Set (demo.stash 4096) "u1" ["foo"])
                     "u2" ["bar"; "foo"])).
  set (e := newEntry "u1" "foo" 0).
  assert (H1 : cached c (Tag e)
               = inr [newEntry "u1" "foo" 0; newEntry "u2" "foo" 1])
    by (vm_compute; reflexivity).
  assert (H2 : List.NoDup
                 (map Value [newEntry "u1" "foo" 0; newEntry "u2" "foo" 1])).
  { apply NoDup_ListNoDup. apply (bool_decide_unpack _). vm_compute. exact I. }
  assert (H3 : Forall writable [newEntry "u1" "foo" 0; newEntry "u2" "foo" 1]).
  { repeat constructor;
      unfold GoInt.is_int, GoInt.min_int, GoInt.max_int; cbn; lia. }
  assert (H4 : cache_Remove c e = (None, snd (cache_Remove c e)))
    by (vm_compute; reflexivity).
  split; [exact H1 |]. split; [exact H2 |]. split; [exact H3 |].
  exact (proj1 (cache_Remove_then_Get c e _ _ H1 H2 H3 H4)).
Defined.


(** foo and bar are cached; foo is deleted. *)
Lemma cache_Delete_then_Get_witness :
  cache_Get (cache (demo.after_Set (demo.stash 4096) "u1" ["foo"; "bar"]))
    ["foo"; "bar"]
  = inr [newEntry "u1" "foo" 0; newEntry "u1" "bar" 1]
  /\ cache_Get
       (snd (cache_Delete
               (cache (demo.after_Set (demo.stash 4096) "u1" ["foo"; "bar"]))
               "foo"))
       ["foo"; "bar"]
     = cache_Get
         (cache (demo.after_Set (demo.stash 4096) "u1" ["foo"; "bar"]))
         (List.filter (fun t => negb (String.eqb t "foo")) ["foo"; "bar"])
  /\ cache_Get
       (cache (demo.after_Set (demo.stash 4096) "u1" ["foo"; "bar"]))
       (List.filter (fun t => negb (String.eqb t "foo")) ["foo"; "bar"])
     = inr [newEntry "u1" "bar" 1].
Proof.
  split; [vm_compute; reflexivity |].
  split; [|vm_compute; reflexivity].
  exact (proj1 (proj2
    (cache_Delete_then_Get (FD := mapForgetFacts.deleteLaws)
       (cache (demo.after_Set (demo.stash 4096) "u1" ["foo"; "bar"]))
       "foo" ["foo"; "bar"]))).
Defined.

(** foo is cached and the data base is down: the query for foo succeeds,
    the query for foo and bar fails. *)
Lemma getAll_consults_database_witness :
  st_Get demo.cacheI
    (cache (demo.after_Set (demo.stash 4096) "u1" ["foo"])) ["foo"]
  = (inr [newEntry "u1" "foo" 0],
     cache (demo.after_Set (demo.stash 4096) "u1" ["foo"]))
  /\ fst (GetAll (sorter := shortSort.sorter) demo.cacheI demo.sqlI
            (mkTagStash
               (cache (demo.after_Set (demo.stash 4096) "u1" ["foo"]))
               (sqlstorage.mkDb [] (Some (ErrStorage "down"))))
            ["foo"]) = inr ["u1"]
  /\ getAll (sorter := shortSort.sorter) demo.cacheI sqlstorage.asStorage
       (mkTagStash
          (cache (demo.after_Set (demo.stash 4096) "u1" ["foo"]))
          (sqlstorage.mkDb [] (Some (ErrStorage "down"))))
       ["foo"]
     = (inr (sort_Sort (Sorter := shortSort.sorter)
               (uniqueValues
                  (snd (setRequestIndex ["foo"] [newEntry "u1" "foo" 0])))),
        mkTagStash
          (cache (demo.after_Set (demo.stash 4096) "u1" ["foo"]))
          (sqlstorage.mkDb [] (Some (ErrStorage "down"))))
  /\ fst (GetAll (sorter := shortSort.sorter) demo.cacheI demo.sqlI
            (mkTagStash
               (cache (demo.after_Set (demo.stash 4096) "u1" ["foo"]))
               (sqlstorage.mkDb [] (Some (ErrStorage "down"))))
            ["foo"; "bar"]) = inl (ErrStorage "down").
Proof.
  set (c := cache (demo.after_Set (demo.stash 4096) "u1" ["foo"])).
  set (t := mkTagStash c (sqlstorage.mkDb [] (Some (ErrStorage "down")))).
  assert (H1 : st_Get demo.cacheI (cache t) ["foo"]
               = (inr [newEntry "u1" "foo" 0], c))
    by (vm_compute; reflexivity).
  assert (H2 : forall tag, In tag ["foo"] ->
                           hasTag tag [newEntry "u1" "foo" 0] = true).
  { intros tag [<- | []]. reflexivity. }
  split; [exact H1 |]. split; [vm_compute; reflexivity |].
  split; [|vm_compute; reflexivity].
  exact (proj1 (getAll_consults_database (sorter := shortSort.sorter)
                  demo.cacheI t ["foo"] _ _ H1) H2).
Defined.


(** A cache of 8 bytes refuses the tag: [Set] stores the row and fails, and
    [Remove] fails on the stash [Set] has left, which keeps the row. *)
Lemma refused_tag_stored_not_removable_witness :
  cached (mapForget.empty 8) "toolongtag" = inr []
  /\ forget_Set (mapForget.empty 8) "toolongtag"
     = (false, mapForget.empty 8)
  /\ TagStash_Set demo.cacheI demo.sqlI (demo.stash 8) "u1" ["toolongtag"]
     = (Some ErrFailedToCacheEntry,
        mkTagStash (mapForget.empty 8)
          (sqlstorage.mkDb [sqlstorage.mkRow "toolongtag" "u1" 0] None))
  /\ TagStash_Remove demo.cacheI demo.sqlI
       (mkTagStash (mapForget.empty 8)
          (sqlstorage.mkDb [sqlstorage.mkRow "toolongtag" "u1" 0] None))
       "u1" "toolongtag"
     = (Some ErrFailedToCacheEntry,
        mkTagStash (mapForget.empty 8)
          (sqlstorage.mkDb [sqlstorage.mkRow "toolongtag" "u1" 0] None)).
Proof.
  assert (H1 : cached (mapForget.empty 8) "toolongtag" = inr [])
    by (vm_compute; reflexivity).
  assert (H2 : forget_Set (mapForget.empty 8) "toolongtag"
               = (false, mapForget.empty 8)) by (vm_compute; reflexivity).
  split; [exact H1 |]. split; [exact H2 |]. split.
  - exact (proj1 (refused_tag_stored_not_removable demo.sqlI (demo.stash 8)
                    "u1" "toolongtag" [] _ H1 H2) _ eq_refl).
  - exact (proj1 (proj2
             (refused_tag_stored_not_removable demo.sqlI
                (mkTagStash (mapForget.empty 8)
                   (sqlstorage.mkDb [sqlstorage.mkRow "toolongtag" "u1" 0]
                      None))
                "u1" "toolongtag" [] _ H1 H2))).
Defined.

(** u1 is set for foo and bar on the storage of the tests, foo is deleted:
    the query for foo finds nothing, the one for bar finds u1. *)
Lemma Delete_then_GetAll_witness :
  fst (TagStash_Delete demo.cacheI demo.mockI
         (after_SetM mockStash "u1" ["foo"; "bar"]) "foo") = None
  /\ fst (GetAll (sorter := shortSort.sorter) demo.cacheI demo.mockI
            (snd (TagStash_Delete demo.cacheI demo.mockI
                    (after_SetM mockStash "u1" ["foo"; "bar"]) "foo"))
            ["foo"]) = inr []
  /\ fst (GetAll (sorter := shortSort.sorter) demo.cacheI demo.mockI
            (snd (TagStash_Delete demo.cacheI demo.mockI
                    (after_SetM mockStash "u1" ["foo"; "bar"]) "foo"))
            ["bar"]) = inr ["u1"].
Proof.
  set (t := after_SetM mockStash "u1" ["foo"; "bar"]).
  set (t' := snd (TagStash_Delete demo.cacheI demo.mockI t "foo")).
  assert (H1 : TagStash_Delete cacheStorage mock.asStorage t "foo"
               = (None, t')) by (vm_compute; reflexivity).
  split; [vm_compute; reflexivity |]. split; [|vm_compute; reflexivity].
  destruct (Delete_then_GetAll (FD := mapForgetFacts.deleteLaws) (sorter := shortSort.sorter)
              t "foo" t' H1) as [Hall _].
  unfold demo.cacheI, demo.mockI. now rewrite Hall.
Defined.

(** u1 is stored for foo at position 0 and set again at position 7. *)
Lemma mock_Set_then_Get_witness :
  List.NoDup
    (map pairOf [newEntry "u1" "foo" 0; newEntry "u2" "foo" 1;
                 newEntry "u1" "bar" 1])
  /\ fst (mock.Get
            (snd (mock.Set_
                    (mock.mkMock [newEntry "u1" "foo" 0; newEntry "u2" "foo" 1;
                                  newEntry "u1" "bar" 1] false)
                    (newEntry "u1" "foo" 7)))
            ["foo"])
     = inr [newEntry "u1" "foo" 7; newEntry "u2" "foo" 1]
  /\ exists l,
       mock.Get
         (snd (mock.Set_
                 (mock.mkMock [newEntry "u1" "foo" 0; newEntry "u2" "foo" 1;
                               newEntry "u1" "bar" 1] false)
                 (newEntry "u1" "foo" 7)))
         [Tag (newEntry "u1" "foo" 7)]
       = (inr l,
          snd (mock.Set_
                 (mock.mkMock [newEntry "u1" "foo" 0; newEntry "u2" "foo" 1;
                               newEntry "u1" "bar" 1] false)
                 (newEntry "u1" "foo" 7)))
       /\ forall x, In x l -> pairOf x = pairOf (newEntry "u1" "foo" 7) ->
                    TagIndex x = 7.
Proof.
  set (s := mock.mkMock [newEntry "u1" "foo" 0; newEntry "u2" "foo" 1;
                         newEntry "u1" "bar" 1] false).
  set (e := newEntry "u1" "foo" 7).
  assert (H1 : List.NoDup (map pairOf (mock.entries s))).
  { apply NoDup_ListNoDup. apply (bool_decide_unpack _). vm_compute. exact I. }
  assert (H2 : mock.Set_ s e = (None, snd (mock.Set_ s e)))
    by (vm_compute; reflexivity).
  split; [exact H1 |]. split; [vm_compute; reflexivity |].
  destruct (mock_Set_then_Get s e _ H1 H2) as (l & Hl & _ & _ & Hidx & _).
  exists l. split; [exact Hl | exact Hidx].
Defined.

(** u1 is removed for foo, and bar is deleted. *)
Lemma mock_Remove_and_Delete_witness :
  List.NoDup
    (map pairOf [newEntry "u1" "foo" 0; newEntry "u2" "foo" 1;
                 newEntry "u1" "bar" 1])
  /\ mock.entries
       (snd (mock.Remove
               (mock.mkMock [newEntry "u1" "foo" 0; newEntry "u2" "foo" 1;
                             newEntry "u1" "bar" 1] false)
               (newEntry "u1" "foo" 0)))
     = List.filter (fun x => negb (samePair (newEntry "u1" "foo" 0) x))
         [newEntry "u1" "foo" 0; newEntry "u2" "foo" 1; newEntry "u1" "bar" 1]
  /\ mock.Get
       (snd (mock.Delete
               (mock.mkMock [newEntry "u1" "foo" 0; newEntry "u2" "foo" 1;
                             newEntry "u1" "bar" 1] false)
               "bar"))
       ["bar"]
     = (inr [],
        snd (mock.Delete
               (mock.mkMock [newEntry "u1" "foo" 0; newEntry "u2" "foo" 1;
                             newEntry "u1" "bar" 1] false)
               "bar")).
Proof.
  set (s := mock.mkMock [newEntry "u1" "foo" 0; newEntry "u2" "foo" 1;
                         newEntry "u1" "bar" 1] false).
  assert (H1 : List.NoDup (map pairOf (mock.entries s))).
  { apply NoDup_ListNoDup. apply (bool_decide_unpack _). vm_compute. exact I. }
  destruct (mock_Remove_and_Delete s H1) as [Hrem Hdel].
  split; [exact H1 |]. split.
  - exact (proj1 (Hrem (newEntry "u1" "foo" 0) _ eq_refl)).
  - exact (proj2 (proj2 (Hdel "bar" _ eq_refl))).
Defined.

(** u1 is set with the tags a, b, a: a is stored with position 2. *)
Lemma Set_stores_positions_witness :
  List.NoDup (map pairOf (mock.entries (storage mockStash)))
  /\ mock.entries (storage (after_SetM mockStash "u1" ["a"; "b"; "a"]))
     = [newEntry "u1" "a" 2; newEntry "u1" "b" 1]
  /\ forall x,
       In x (mock.entries (storage (after_SetM mockStash "u1" ["a"; "b"; "a"])))
       -> Value x = "u1" -> In (Tag x) ["a"; "b"; "a"] ->
       TagIndex x = position ["a"; "b"; "a"] (Tag x)
       /\ ["a"; "b"; "a"] !! Z.to_nat (TagIndex x) = Some (Tag x).
Proof.
  assert (H1 : List.NoDup (map pairOf (mock.entries (storage mockStash))))
    by constructor.
  assert (H2 : TagStash_Set cacheStorage mock.asStorage mockStash "u1"
                 ["a"; "b"; "a"]
               = (None, after_SetM mockStash "u1" ["a"; "b"; "a"]))
    by (vm_compute; reflexivity).
  split; [exact H1 |]. split; [vm_compute; reflexivity |].
  exact (proj1 (proj2 (proj2
           (Set_stores_positions mockStash _ "u1" ["a"; "b"; "a"] H1 H2)))).
Defined.

(** u1 and u2 are set for foo, and u1 is removed for foo. *)
Lemma Remove_then_GetAll_witness :
  cached (cache (after_SetM (after_SetM mockStash "u1" ["foo"]) "u2" ["foo"]))
    "foo" = inr [newEntry "u1" "foo" 0; newEntry "u2" "foo" 0]
  /\ fst (TagStash_Remove demo.cacheI demo.mockI
            (after_SetM (after_SetM mockStash "u1" ["foo"]) "u2" ["foo"])
            "u1" "foo") = None
  /\ fst (GetAll (sorter := shortSort.sorter) demo.cacheI demo.mockI
            (snd (TagStash_Remove demo.cacheI demo.mockI
                    (after_SetM (after_SetM mockStash "u1" ["foo"])
                       "u2" ["foo"])
                    "u1" "foo"))
            ["foo"]) = inr ["u2"]
  /\ ~ In "u1" ["u2"].
Proof.
  set (t := after_SetM (after_SetM mockStash "u1" ["foo"]) "u2" ["foo"]).
  set (t1 := snd (TagStash_Remove demo.cacheI demo.mockI t "u1" "foo")).
  set (t2 := snd (GetAll (sorter := shortSort.sorter) demo.cacheI demo.mockI
                    t1 ["foo"])).
  assert (H1 : cached (cache t) "foo"
               = inr [newEntry "u1" "foo" 0; newEntry "u2" "foo" 0])
    by (vm_compute; reflexivity).
  assert (H2 : List.NoDup
                 (map Value [newEntry "u1" "foo" 0; newEntry "u2" "foo" 0])).
  { apply NoDup_ListNoDup. apply (bool_decide_unpack _). vm_compute. exact I. }
  assert (H3 : Forall writable [newEntry "u1" "foo" 0; newEntry "u2" "foo" 0]).
  { repeat constructor;
      unfold GoInt.is_int, GoInt.min_int, GoInt.max_int; cbn; lia. }
  assert (H4 : List.NoDup (map pairOf (mock.entries (storage t)))).
  { apply NoDup_ListNoDup. apply (bool_decide_unpack _). vm_compute. exact I. }
  assert (H5 : TagStash_Remove cacheStorage mock.asStorage t "u1" "foo"
               = (None, t1)) by (vm_compute; reflexivity).
  assert (H6 : GetAll (sorter := shortSort.sorter) cacheStorage mock.asStorage
                 t1 ["foo"] = (inr ["u2"], t2)) by (vm_compute; reflexivity).
  split; [exact H1 |]. split; [vm_compute; reflexivity |].
  split; [vm_compute; reflexivity |].
  exact (Remove_then_GetAll (sorter := shortSort.sorter)
           t "u1" "foo" _ t1 ["u2"] t2 H1 H2 H3 H4 H5 H6).
Defined.

(** The stash of scenario C, queried for its tags. *)
Lemma GetAll_values_witness :
  GetAll (sorter := shortSort.sorter) demo.cacheI demo.sqlI
    demo.stashC demo.queryC = (inr ["u1"; "u2"], demo.stashC)
  /\ List.NoDup ["u1"; "u2"]
  /\ Get (sorter := shortSort.sorter) demo.cacheI demo.sqlI
       demo.stashC demo.queryC = (inr (hd "" ["u1"; "u2"]), demo.stashC).
Proof.
  assert (H1 : GetAll (sorter := shortSort.sorter) demo.cacheI demo.sqlI
                 demo.stashC demo.queryC = (inr ["u1"; "u2"], demo.stashC))
    by (vm_compute; reflexivity).
  split; [exact H1 |].
  destruct (GetAll_values (sorter := shortSort.sorter) demo.cacheI demo.sqlI
              demo.stashC demo.queryC _ _ H1) as (Hnd & Hget & _).
  split; [exact Hnd | exact Hget].
Defined.
